(** * Salesforce tool handlers: DML, case creation and the guided flow

    A shallow embedding of [src/tools/caseCreation.ts] (the case handlers and
    the DML handler that owns the guided flow), of the second DML handler
    variant and of [src/utils/interaction.ts].

    The handlers are asynchronous TypeScript functions whose only effects are
    console output, reading lines from standard input and calls on the
    Salesforce connection.  They are embedded in an effect monad [M] that
    threads the history of events, the pending input lines and an outcome
    (returned, thrown, or suspended for ever on an input that never comes). *)

From Stdlib Require Import String Ascii List Bool Arith ZArith Lia.
Import ListNotations.
Open Scope list_scope.
Open Scope string_scope.

(* ================================================================= *)
(** ** JavaScript strings *)

(** Strings are sequences of code units below 256.  Within that range the
    JavaScript white-space class (WhiteSpace and LineTerminator, used by both
    [String.prototype.trim] and [parseInt]) is TAB, LF, VT, FF, CR, SP and
    NBSP. *)
Module JsString.

Definition is_ws (c : ascii) : bool :=
  let n := nat_of_ascii c in
  ((9 <=? n)%nat && (n <=? 13)%nat) || (n =? 32)%nat || (n =? 160)%nat.

Fixpoint ltrim (s : string) : string :=
  match s with
  | String c r => if is_ws c then ltrim r else s
  | EmptyString => EmptyString
  end.

Fixpoint rev (s : string) : string :=
  match s with
  | EmptyString => EmptyString
  | String c r => rev r ++ String c EmptyString
  end.

Definition rtrim (s : string) : string := rev (ltrim (rev s)).

(** [s.trim()] *)
Definition trim (s : string) : string := rtrim (ltrim s).

(** [s.toLowerCase()] and [s.toUpperCase()].  Only the letters A-Z / a-z are
    mapped; the results are only ever compared with the ASCII words ["y"] and
    ["true"] or computed from one of the four operation names, and no code
    unit outside A-Z lower-cases to an ASCII letter of those words. *)
Definition lower_char (c : ascii) : ascii :=
  let n := nat_of_ascii c in
  if (65 <=? n)%nat && (n <=? 90)%nat then ascii_of_nat (n + 32) else c.

Definition upper_char (c : ascii) : ascii :=
  let n := nat_of_ascii c in
  if (97 <=? n)%nat && (n <=? 122)%nat then ascii_of_nat (n - 32) else c.

Fixpoint map_chars (f : ascii -> ascii) (s : string) : string :=
  match s with
  | EmptyString => EmptyString
  | String c r => String (f c) (map_chars f r)
  end.

Definition toLowerCase : string -> string := map_chars lower_char.
Definition toUpperCase : string -> string := map_chars upper_char.

Definition digit_of (c : ascii) : option Z :=
  let n := nat_of_ascii c in
  if (48 <=? n)%nat && (n <=? 57)%nat then Some (Z.of_nat (n - 48)) else None.

(** The longest prefix of decimal digits, read as a number; [None] when the
    string does not start with a digit. *)
Fixpoint digits (acc : option Z) (s : string) : option Z :=
  match s with
  | EmptyString => acc
  | String c r =>
      match digit_of c with
      | Some d =>
          digits (Some (10 * match acc with Some a => a | None => 0 end + d)%Z) r
      | None => acc
      end
  end.

(** [parseInt(s, 10)]: leading white space is skipped, one sign is accepted,
    then the longest run of digits is read and whatever follows is ignored.
    [None] is NaN.  The integer is kept exact; the handlers only compare it
    with array lengths, which rounding to a double does not affect. *)
Definition parseInt (s : string) : option Z :=
  match ltrim s with
  | String "-" r => option_map Z.opp (digits None r)
  | String "+" r => digits None r
  | t => digits None t
  end.

(** [isNaN(parseFloat(s))]: after leading white space and one sign, a number
    is read when the text starts with [Infinity], a digit, or a dot followed
    by a digit. *)
Definition starts_digit (s : string) : bool :=
  match s with
  | String c _ => match digit_of c with Some _ => true | None => false end
  | EmptyString => false
  end.

Definition parseFloat_isNaN (s : string) : bool :=
  let t := match ltrim s with
           | String "-" r => r
           | String "+" r => r
           | t => t
           end in
  negb (prefix "Infinity" t
        || starts_digit t
        || match t with String "." r => starts_digit r | _ => false end).

(** [xs.join(sep)] on an array of strings. *)
Fixpoint join (sep : string) (xs : list string) : string :=
  match xs with
  | [] => ""
  | [x] => x
  | x :: rest => x ++ sep ++ join sep rest
  end.

(** Decimal rendering of a non-negative integer, as in a template literal. *)
Fixpoint show_pos (fuel : nat) (n : nat) (acc : string) : string :=
  match fuel with
  | 0 => acc
  | S fuel' =>
      let acc' := String (ascii_of_nat (48 + n mod 10)) acc in
      if (n <? 10)%nat then acc' else show_pos fuel' (n / 10) acc'
  end.

Definition show_nat (n : nat) : string := show_pos (S n) n "".

End JsString.
Import JsString.

(** The characters a Rocq string literal cannot hold. *)
Definition nl : string := String (ascii_of_nat 10) EmptyString.
Definition dq : string := String (ascii_of_nat 34) EmptyString.

(* ================================================================= *)
(** ** Data model *)

(** A field value of a record.  A number is kept as the text it was read
    from: [VNum t] stands for the double [parseFloat(t)]. *)
Inductive JSVal : Type :=
| VUndefined
| VNull
| VBool (b : bool)
| VNum (lexeme : string)
| VStr (s : string).

(** [Record<string, any>]: own properties in insertion order, which is the
    order of [Object.entries] since field API names are never integer-like. *)
Definition Obj : Type := list (string * JSVal).

Module Object.

Fixpoint get (o : Obj) (k : string) : option JSVal :=
  match o with
  | [] => None
  | (k', v) :: r => if String.eqb k' k then Some v else get r k
  end.

(** [o[k] = v]: an existing key keeps its place, a new one goes last. *)
Fixpoint set (o : Obj) (k : string) (v : JSVal) : Obj :=
  match o with
  | [] => [(k, v)]
  | (k', v') :: r => if String.eqb k' k then (k, v) :: r else (k', v') :: set r k v
  end.

(** [delete o[k]] *)
Fixpoint delete (o : Obj) (k : string) : Obj :=
  match o with
  | [] => []
  | (k', v') :: r => if String.eqb k' k then r else (k', v') :: delete r k
  end.

(** The members every object literal inherits from [Object.prototype]. *)
Definition inherited (k : string) : bool :=
  existsb (String.eqb k)
    ["constructor"; "hasOwnProperty"; "isPrototypeOf"; "propertyIsEnumerable";
     "toLocaleString"; "toString"; "valueOf"; "__proto__";
     "__defineGetter__"; "__defineSetter__"; "__lookupGetter__";
     "__lookupSetter__"].

(** [o[k] !== undefined] for a computed key. *)
Definition defined_at (o : Obj) (k : string) : bool :=
  match get o k with
  | Some VUndefined => false
  | Some _ => true
  | None => inherited k
  end.

(** [Object.assign(target, source)]: own properties of the source are set on
    the target one after the other.  Setting [__proto__] goes to the
    prototype setter and creates no own property. *)
Fixpoint assign (target source : Obj) : Obj :=
  match source with
  | [] => target
  | (k, v) :: r =>
      assign (if String.eqb k "__proto__" then target else set target k v) r
  end.

End Object.

(** Is the number written [t] zero?  [t] is read after its sign; only the
    digits of the mantissa count (underflow of a tiny non-zero literal to
    zero is not modelled). *)
Fixpoint zero_digits (dot_seen : bool) (t : string) : bool :=
  match t with
  | EmptyString => true
  | String c r =>
      if Ascii.eqb c "0" then zero_digits dot_seen r
      else if Ascii.eqb c "." && negb dot_seen then zero_digits true r
      else match digit_of c with Some _ => false | None => true end
  end.

Definition num_is_zero (t : string) : bool :=
  let u := match ltrim t with
           | String "-" r => r
           | String "+" r => r
           | u => u
           end in
  negb (prefix "Infinity" u) && zero_digits false u.

(** JavaScript truthiness, as tested by [if (x)] and [!x]. *)
Definition truthy (v : JSVal) : bool :=
  match v with
  | VUndefined | VNull => false
  | VBool b => b
  | VNum t => negb (parseFloat_isNaN t) && negb (num_is_zero t)
  | VStr s => negb (String.eqb s "")
  end.

(** [o.k] read as a condition. *)
Definition truthy_at (o : Obj) (k : string) : bool :=
  match Object.get o k with Some v => truthy v | None => false end.

Definition str_truthy (s : string) : bool := negb (String.eqb s "").
Definition opt_truthy (s : option string) : bool :=
  match s with Some t => str_truthy t | None => false end.
(** An optional string interpolated in a template literal. *)
Definition show_opt (s : option string) : string :=
  match s with Some t => t | None => "undefined" end.
Definition val_of (s : option string) : JSVal :=
  match s with Some t => VStr t | None => VUndefined end.

(** A record returned by [find] / [retrieve]. *)
Record SRecord : Type := {
  Id : string;
  Name : string;
  Email : option string;
  Phone : option string
}.

Record PicklistValue : Type := {
  pv_label : string;
  pv_value : string;
  pv_defaultValue : bool
}.

(** A field descriptor of the [describe] metadata. *)
Record Field : Type := {
  f_name : string;
  f_label : string;
  f_type : string;
  f_nillable : bool;
  f_defaultedOnCreate : bool;
  f_createable : bool;
  f_picklistValues : option (list PicklistValue);
  f_referenceTo : option (list string)
}.

(** Modelled from the spec: the declaration of [DMLResult] in
    [types/salesforce] is not part of the sources.  The spec gives a per-record
    outcome with a success flag, an optional identifier and zero or more
    structured errors (message, status code, offending field names); the
    handler reads [errors] either as an array of errors, whose [fields] is an
    array, or as one error object, whose [fields] is an array or a string. *)
Record DMLError (F : Type) : Type := {
  e_message : string;
  e_statusCode : option string;
  e_fields : option F
}.
Arguments e_message {F} _.
Arguments e_statusCode {F} _.
Arguments e_fields {F} _.

Inductive FieldsVal : Type :=
| FArr (names : list string)
| FStr (s : string).

Inductive Errors : Type :=
| ErrArr (es : list (DMLError (list string)))
| ErrOne (e : DMLError FieldsVal).

Record DMLResult : Type := {
  success : bool;
  id : option string;
  errors : option Errors
}.

(** What a DML call resolves to: [DMLResult | DMLResult[]]. *)
Inductive DMLReply : Type :=
| Batch (rs : list DMLResult)
| Single (r : DMLResult).

(** A thrown or rejected value: an [Error] with its message, or anything
    else with its [String(...)] rendering. *)
Inductive Exn : Type :=
| JsError (message : string)
| Other (rendered : string).

(** [error instanceof Error ? error.message : String(error)] *)
Definition exn_text (e : Exn) : string :=
  match e with JsError m => m | Other t => t end.

Inductive Criteria : Type :=
| NameLike (pattern : string)
| FieldIs (field value : string).

(** The remote calls issued through [conn.sobject(obj)]. *)
Inductive Call : Type :=
| Describe (obj : string)
| Find (obj : string) (criteria : Criteria) (fields : list string)
| Retrieve (obj : string) (ident : string)
| Create (obj : string) (records : list Obj)
| CreateOne (obj : string) (record : Obj)
| Update (obj : string) (records : list Obj)
| Destroy (obj : string) (ids : list JSVal)
| Upsert (obj : string) (records : list Obj) (externalIdField : string).

(** What a run does that the outside can observe, in order. *)
Inductive Event : Type :=
| Log (line : string)
| LogField (label : string) (v : JSVal)
| LogError (line : string) (e : Exn)
| Write (s : string)
| Read (chunk : string)
| Remote (c : Call) (rejection : option Exn).

(** The connection handle.  Each answer may depend on everything that
    happened before; an answer is a rejection or a value. *)
Record Conn : Type := {
  instanceUrl : option string;
  describe : list Event -> string -> Exn + list Field;
  find : list Event -> string -> Criteria -> list string -> Exn + list SRecord;
  retrieve : list Event -> string -> string -> Exn + SRecord;
  dml : list Event -> Call -> Exn + DMLReply
}.

Record ContentItem : Type := { c_type : string; c_text : string }.

(** [{ content: [...], isError }] *)
Record ToolResult : Type := { content : list ContentItem; isError : bool }.

Definition text_result (t : string) (e : bool) : ToolResult :=
  {| content := [ {| c_type := "text"; c_text := t |} ]; isError := e |}.

(* ================================================================= *)
(** ** The effect monad *)

Inductive Outcome (A : Type) : Type :=
| Returned (a : A)
| Thrown (e : Exn)
| Pending.
Arguments Returned {A} a.
Arguments Thrown {A} e.
Arguments Pending {A}.

Record Run (A : Type) : Type := {
  outcome : Outcome A;
  emitted : list Event;
  unread : list string
}.
Arguments outcome {A} _.
Arguments emitted {A} _.
Arguments unread {A} _.

(** A computation sees the events so far and the chunks standard input will
    deliver, and yields an outcome, the events it added and the chunks left. *)
Definition M (A : Type) : Type := list Event -> list string -> Run A.

Definition ret {A} (a : A) : M A :=
  fun _ i => {| outcome := Returned a; emitted := []; unread := i |}.

Definition throw {A} (e : Exn) : M A :=
  fun _ i => {| outcome := Thrown e; emitted := []; unread := i |}.

Definition after {A B} (r : Run A) (r2 : Run B) : Run B :=
  {| outcome := outcome r2;
     emitted := (emitted r ++ emitted r2)%list;
     unread := unread r2 |}.

Definition bind {A B} (m : M A) (f : A -> M B) : M B :=
  fun h i =>
    let r := m h i in
    match outcome r with
    | Returned a => after r (f a (h ++ emitted r)%list (unread r))
    | Thrown e => {| outcome := Thrown e; emitted := emitted r; unread := unread r |}
    | Pending => {| outcome := Pending; emitted := emitted r; unread := unread r |}
    end.

(** [try { m } catch (error) { handler(error) }] *)
Definition try_catch {A} (m : M A) (handler : Exn -> M A) : M A :=
  fun h i =>
    let r := m h i in
    match outcome r with
    | Thrown e => after r (handler e (h ++ emitted r)%list (unread r))
    | _ => r
    end.

Notation "x <- m ;; k" := (bind m (fun x => k))
  (at level 61, m at next level, right associativity).
Notation "m ;;; k" := (bind m (fun _ => k))
  (at level 61, right associativity).

Definition emit (ev : Event) : M unit :=
  fun _ i => {| outcome := Returned tt; emitted := [ev]; unread := i |}.

Definition settle {A} (c : Call) (answer : Exn + A) : list string -> Run A :=
  fun i =>
    match answer with
    | inl e => {| outcome := Thrown e; emitted := [Remote c (Some e)]; unread := i |}
    | inr a => {| outcome := Returned a; emitted := [Remote c None]; unread := i |}
    end.

Definition call_describe (conn : Conn) (obj : string) : M (list Field) :=
  fun h => settle (Describe obj) (describe conn h obj).

Definition call_find (conn : Conn) (obj : string) (crit : Criteria)
    (fields : list string) : M (list SRecord) :=
  fun h => settle (Find obj crit fields) (find conn h obj crit fields).

Definition call_retrieve (conn : Conn) (obj ident : string) : M SRecord :=
  fun h => settle (Retrieve obj ident) (retrieve conn h obj ident).

Definition call_dml (conn : Conn) (c : Call) : M DMLReply :=
  fun h => settle c (dml conn h c).

(* ================================================================= *)
(** ** utils/interaction.ts *)

(** The message is logged, the prompt mark written, and the promise resolves
    with the trimmed text of the next chunk of standard input; it stays
    pending when none arrives. *)
Definition promptUser (message : string) : M string :=
  fun _ i =>
    match i with
    | [] =>
        {| outcome := Pending; emitted := [Log message; Write "> "]; unread := [] |}
    | chunk :: rest =>
        {| outcome := Returned (trim chunk);
           emitted := [Log message; Write "> "; Read chunk];
           unread := rest |}
    end.

(* ================================================================= *)
(** ** Array helpers *)

Fixpoint mapi_from {A B} (f : A -> nat -> B) (idx : nat) (xs : list A) : list B :=
  match xs with
  | [] => []
  | x :: r => f x idx :: mapi_from f (S idx) r
  end.

(** [xs.map((x, idx) => f(x, idx))] *)
Definition mapi {A B} (f : A -> nat -> B) (xs : list A) : list B :=
  mapi_from f 0 xs.

(** [xs[z]] for a number [z]: [None] is [undefined]. *)
Definition element {A} (xs : list A) (z : Z) : option A :=
  if (z <? 0)%Z then None else nth_error xs (Z.to_nat z).

(** [isNaN(sel) || sel < 1 || sel > n] *)
Definition invalid_selection (sel : option Z) (n : nat) : bool :=
  match sel with
  | None => true
  | Some z => (z <? 1)%Z || (Z.of_nat n <? z)%Z
  end.

(** [!isNaN(sel) && sel >= 1 && sel <= n] *)
Definition valid_selection (sel : option Z) (n : nat) : bool :=
  match sel with
  | None => false
  | Some z => (1 <=? z)%Z && (z <=? Z.of_nat n)%Z
  end.

(** [xs[sel - 1]] *)
Definition chosen {A} (xs : list A) (sel : option Z) : option A :=
  match sel with
  | None => None
  | Some z => element xs (z - 1)%Z
  end.

(** Reading a property of [undefined]. *)
Definition undefined_read {A} (prop : string) : M A :=
  throw (JsError ("Cannot read properties of undefined (reading '" ++ prop ++ "')")).

(** [`${idx + 1}. ${name}`] joined by new lines. *)
Definition numbered (names : list string) : string :=
  join nl (mapi (fun n idx => show_nat (idx + 1) ++ ". " ++ n) names).

(* ================================================================= *)
(** ** tools/caseCreation.ts: the case handlers *)

(** The filter shared by [handleGetCaseMetadata] and the guided flow:
    not nillable, not defaulted on create, createable, and not the
    system-generated [CaseNumber]. *)
Definition is_required (field : Field) : bool :=
  negb (f_nillable field) && negb (f_defaultedOnCreate field)
  && f_createable field && negb (String.eqb (f_name field) "CaseNumber").

Definition guidance : string :=
  "GUIDED CASE CREATION PROCESS - FOLLOW THESE STEPS IN ORDER:" ++ nl ++ nl ++
  "1. FIRST STEP: Use the 'salesforce_search_accounts' tool to help the user find and select an account" ++ nl ++
  "   - Ask the user for an account name to search for" ++ nl ++
  "   - Once they provide a name, call salesforce_search_accounts with their search term" ++ nl ++
  "   - Present the results and ask them to select an account by number" ++ nl ++ nl ++
  "2. SECOND STEP: After the user selects an account, use the 'salesforce_search_contacts' tool" ++ nl ++
  "   - Call salesforce_search_contacts with the selected accountId" ++ nl ++
  "   - Present the contact results and ask the user to select a contact by number" ++ nl ++ nl ++
  "3. THIRD STEP: Ask for the Subject field (one field at a time)" ++ nl ++
  "   - Ask the user to provide a subject for the case" ++ nl ++
  "   - Wait for their response before proceeding" ++ nl ++ nl ++
  "4. FOURTH STEP: Ask for the Description field (one field at a time)" ++ nl ++
  "   - Ask the user to provide a detailed description of the issue" ++ nl ++
  "   - Wait for their response before proceeding" ++ nl ++ nl ++
  "5. FIFTH STEP: For each picklist field (Priority, Status, Type, Origin), use the salesforce_get_picklist_values tool" ++ nl ++
  "   - Call salesforce_get_picklist_values with fieldName=" ++ dq ++ "Priority" ++ dq ++ nl ++
  "   - Present the options and ask the user to select one" ++ nl ++
  "   - Wait for their response before proceeding to the next field" ++ nl ++
  "   - Repeat for Status, Type, and Origin fields" ++ nl ++ nl ++
  "6. FINAL STEP: After collecting all required information, use the 'salesforce_create_case' tool" ++ nl ++
  "   - Call salesforce_create_case with all the collected information" ++ nl ++
  "   - Confirm to the user that the case has been created" ++ nl ++ nl ++
  "IMPORTANT: Ask for ONE FIELD AT A TIME and wait for the user's response before proceeding to the next field.".

Definition handleGetCaseMetadata (conn : Conn) : M ToolResult :=
  try_catch
    (caseDescribe <- call_describe conn "Case" ;;
     let requiredFields := filter is_required caseDescribe in
     ret (text_result
            ("Case Object Metadata:" ++ nl ++ nl ++ "Required Fields:" ++ nl ++
             join nl (map (fun field =>
                             "- " ++ f_label field ++ " (" ++ f_name field ++ "): "
                             ++ f_type field) requiredFields)
             ++ nl ++ nl ++ guidance)
            false))
    (fun error =>
       ret (text_result ("Error getting case metadata: " ++ exn_text error) true)).

Definition handleSearchAccounts (conn : Conn) (searchTerm : string) : M ToolResult :=
  try_catch
    (accounts <- call_find conn "Account" (NameLike ("%" ++ searchTerm ++ "%"))
                   ["Id"; "Name"] ;;
     if (length accounts =? 0)%nat then
       ret (text_result "No accounts found matching your search criteria." false)
     else
       ret (text_result
              ("Found " ++ show_nat (length accounts) ++ " accounts matching "
               ++ dq ++ searchTerm ++ dq ++ ":" ++ nl ++ nl ++
               join nl (mapi (fun account idx =>
                                show_nat (idx + 1) ++ ". " ++ Name account
                                ++ " (ID: " ++ Id account ++ ")") accounts))
              false))
    (fun error =>
       ret (text_result ("Error searching accounts: " ++ exn_text error) true)).

(** [x || 'N/A'] *)
Definition or_na (x : option string) : string :=
  if opt_truthy x then show_opt x else "N/A".

Definition handleSearchContacts (conn : Conn) (accountId : string) : M ToolResult :=
  try_catch
    (account <- call_retrieve conn "Account" accountId ;;
     contacts <- call_find conn "Contact" (FieldIs "AccountId" accountId)
                   ["Id"; "Name"; "Email"; "Phone"] ;;
     if (length contacts =? 0)%nat then
       ret (text_result
              ("No contacts found for account " ++ dq ++ Name account ++ dq
               ++ " (ID: " ++ accountId ++ ").")
              false)
     else
       ret (text_result
              ("Found " ++ show_nat (length contacts) ++ " contacts for account "
               ++ dq ++ Name account ++ dq ++ ":" ++ nl ++ nl ++
               join (nl ++ nl)
                 (mapi (fun contact idx =>
                          show_nat (idx + 1) ++ ". " ++ Name contact
                          ++ " (ID: " ++ Id contact ++ ")" ++ nl
                          ++ "   Email: " ++ or_na (Email contact) ++ nl
                          ++ "   Phone: " ++ or_na (Phone contact)) contacts))
              false))
    (fun error =>
       ret (text_result ("Error searching contacts: " ++ exn_text error) true)).

(** The arguments of [salesforce_create_case]; the named ones are strings by
    the input schema, and absent ones are [undefined]. *)
Record CreateCaseArgs : Type := {
  subject : option string;
  description : option string;
  priority : option string;
  status : option string;
  accountId : option string;
  contactId : option string;
  caseType : option string;
  origin : option string;
  additionalFields : option Obj
}.

(** The record [handleCreateCase] builds before it calls [create]. *)
Definition namedFields (args : CreateCaseArgs) : Obj :=
  let caseRecord :=
    [("Subject", val_of (subject args));
     ("Description", val_of (description args));
     ("Priority", val_of (priority args));
     ("Status", val_of (status args));
     ("AccountId", val_of (accountId args))] in
  let caseRecord :=
    if opt_truthy (contactId args)
    then Object.set caseRecord "ContactId" (val_of (contactId args))
    else caseRecord in
  let caseRecord :=
    if opt_truthy (caseType args)
    then Object.set caseRecord "Type" (val_of (caseType args))
    else caseRecord in
  if opt_truthy (origin args)
  then Object.set caseRecord "Origin" (val_of (origin args))
  else caseRecord.

Definition caseRecordOf (args : CreateCaseArgs) : Obj :=
  match additionalFields args with
  | Some extra => Object.assign (namedFields args) extra
  | None => namedFields args
  end.

(** [env] is [process.env.SALESFORCE_INSTANCE_URL]. *)
Definition handleCreateCase (env : option string) (conn : Conn)
    (args : CreateCaseArgs) : M ToolResult :=
  try_catch
    (result <- call_dml conn (CreateOne "Case" (caseRecordOf args)) ;;
     match result with
     | Single r =>
         if success r then
           let url := if opt_truthy (instanceUrl conn) then instanceUrl conn else env in
           let caseUrl := show_opt url ++ "/lightning/r/Case/" ++ show_opt (id r) ++ "/view" in
           ret (text_result
                  ("The case has been created successfully!" ++ nl ++ nl ++
                   "Case Details:" ++ nl ++ nl ++
                   "- Case ID: " ++ show_opt (id r) ++ nl ++
                   "- Subject: " ++ show_opt (subject args) ++ nl ++
                   "- Priority: " ++ show_opt (priority args) ++ nl ++
                   "- Status: " ++ show_opt (status args) ++ nl ++ nl ++
                   "You can view the case at: " ++ caseUrl)
                  false)
         else
           match errors r with
           | None => ret (text_result "Failed to create case: undefined" true)
           | Some (ErrArr es) =>
               ret (text_result
                      ("Failed to create case: "
                       ++ join ", " (map (fun _ => "[object Object]") es))
                      true)
           | Some (ErrOne _) =>
               throw (JsError "result.errors?.join is not a function")
           end
     | Batch _ =>
         (* an array has neither [success] nor [errors] *)
         ret (text_result "Failed to create case: undefined" true)
     end)
    (fun error =>
       ret (text_result ("Error creating case: " ++ exn_text error) true)).

Definition handleGetPicklistValues (conn : Conn) (fieldName : string) : M ToolResult :=
  try_catch
    (caseDescribe <- call_describe conn "Case" ;;
     match List.find (fun f => String.eqb (f_name f) fieldName) caseDescribe with
     | None =>
         ret (text_result ("Field '" ++ fieldName ++ "' not found on Case object.") true)
     | Some field =>
         if negb (String.eqb (f_type field) "picklist") then
           ret (text_result ("Field '" ++ fieldName ++ "' is not a picklist field.") true)
         else
           match f_picklistValues field with
           | None => undefined_read "map"
           | Some values =>
               ret (text_result
                      ("Picklist values for " ++ f_label field ++ " (" ++ fieldName
                       ++ "):" ++ nl ++ nl ++
                       join nl (mapi (fun value idx =>
                                        show_nat (idx + 1) ++ ". " ++ pv_label value
                                        ++ (if pv_defaultValue value then " (Default)"
                                            else "")) values)
                       ++ nl ++ nl ++ "Please ask the user to select one of these values for the "
                       ++ f_label field ++ " field.")
                      false)
           end
     end)
    (fun error =>
       ret (text_result ("Error getting picklist values: " ++ exn_text error) true)).

(* ================================================================= *)
(** ** The guided flow: [advancedGuidedCaseCreation] *)

Definition fmap {A B} (f : A -> B) (m : M A) : M B :=
  x <- m ;; ret (f x).

(** [`${idx + 1}. ${item.label || item.value}`] joined by new lines. *)
Definition choices (values : list PicklistValue) : string :=
  numbered (map (fun item => if str_truthy (pv_label item) then pv_label item
                             else pv_value item) values).

(** Account selection: search, fail on no match, take the only match, or ask
    for a number and reject what is not one of the list. *)
Definition selectAccount (conn : Conn) : M SRecord :=
  accountSearchString <- promptUser "Enter a search string to filter accounts:" ;;
  accounts <- call_find conn "Account" (NameLike ("%" ++ accountSearchString ++ "%"))
                ["Id"; "Name"] ;;
  match accounts with
  | [] =>
      throw (JsError "No accounts found matching your search criteria. Please try again with a different search term.")
  | [only] =>
      emit (Log ("Using the only matching account: " ++ Name only)) ;;;
      ret only
  | _ =>
      accountSelection <-
        fmap parseInt (promptUser ("Select an account:" ++ nl ++ numbered (map Name accounts))) ;;
      if invalid_selection accountSelection (length accounts) then
        throw (JsError "Invalid account selection. Please enter a valid number from the list.")
      else
        match chosen accounts accountSelection with
        | Some selectedAccount => ret selectedAccount
        | None => undefined_read "Id"
        end
  end.

(** Contact selection: offered when the account has contacts; a blank answer
    or one that is not a number of the list leaves the record as it is. *)
Definition selectContact (conn : Conn) (selectedAccount : SRecord)
    (caseRecord : Obj) : M Obj :=
  contacts <- call_find conn "Contact" (FieldIs "AccountId" (Id selectedAccount))
                ["Id"; "Name"] ;;
  if (0 <? length contacts)%nat then
    contactSelectionInput <-
      promptUser ("Select a contact for this case (or press Enter to skip):" ++ nl
                  ++ numbered (map Name contacts)) ;;
    if negb (String.eqb (trim contactSelectionInput) "") then
      let contactSelection := parseInt contactSelectionInput in
      if valid_selection contactSelection (length contacts) then
        match chosen contacts contactSelection with
        | Some contact => ret (Object.set caseRecord "ContactId" (VStr (Id contact)))
        | None => undefined_read "Id"
        end
      else ret caseRecord
    else ret caseRecord
  else ret caseRecord.

(** [let x = ""; while (x.trim() === "") { x = await promptUser(message);
    if (x.trim() === "") console.log(nag); }]: one chunk of input is used
    per round, so the loop is a recursion on the input still to come. *)
Fixpoint askUntilFilled (message nag : string) (h : list Event)
    (i : list string) {struct i} : Run string :=
  match i with
  | [] => promptUser message h []
  | chunk :: rest =>
      let r := promptUser message h (chunk :: rest) in
      match outcome r with
      | Returned answer =>
          if String.eqb (trim answer) "" then
            after r (after (emit (Log nag) (h ++ emitted r)%list rest)
                       (askUntilFilled message nag
                          (h ++ emitted r ++ [Log nag])%list rest))
          else r
      | _ => r
      end
  end.

(** Web contact details, asked for when the record has no contact. *)
Definition webContact (caseRecord : Obj) : M Obj :=
  if negb (truthy_at caseRecord "ContactId") then
    emit (Log (nl ++ "No contact selected. Please provide web contact information:")) ;;;
    webEmail <- askUntilFilled "Web Email (required):"
      "Web Email is required when no contact is selected. Please enter a valid email address." ;;
    let caseRecord := Object.set caseRecord "SuppliedEmail" (VStr webEmail) in
    webName <- askUntilFilled "Web Name (required):"
      "Web Name is required when no contact is selected. Please enter a name." ;;
    ret (Object.set caseRecord "SuppliedName" (VStr webName))
  else ret caseRecord.

Definition askSubject (caseRecord : Obj) : M Obj :=
  if negb (truthy_at caseRecord "Subject") then
    answer <- promptUser "Enter a subject for this case:" ;;
    ret (Object.set caseRecord "Subject" (VStr answer))
  else ret caseRecord.

Definition askDescription (caseRecord : Obj) : M Obj :=
  if negb (truthy_at caseRecord "Description") then
    answer <- promptUser "Enter a description for this case (press Enter to skip):" ;;
    let caseRecord := Object.set caseRecord "Description" (VStr answer) in
    if String.eqb (trim answer) "" then ret (Object.delete caseRecord "Description")
    else ret caseRecord
  else ret caseRecord.

(** The block the flow repeats for [Origin], [Status] and [Priority]: when
    the field is not set yet and the metadata has values for it, ask for a
    number; an answer that is not a number of the list sets nothing. *)
Definition askCommonPicklist (key message : string) (caseDescribe : list Field)
    (caseRecord : Obj) : M Obj :=
  if negb (truthy_at caseRecord key) then
    match List.find (fun f => String.eqb (f_name f) key) caseDescribe with
    | Some field =>
        match f_picklistValues field with
        | Some values =>
            if (0 <? length values)%nat then
              selection <- fmap parseInt (promptUser (message ++ nl ++ choices values)) ;;
              if valid_selection selection (length values) then
                match chosen values selection with
                | Some item => ret (Object.set caseRecord key (VStr (pv_value item)))
                | None => undefined_read "value"
                end
              else ret caseRecord
            else ret caseRecord
        | None => ret caseRecord
        end
    | None => ret caseRecord
    end
  else ret caseRecord.

(** The fields the loop over the required fields passes over. *)
Definition alreadyHandled (caseRecord : Obj) (field : Field) : bool :=
  existsb (String.eqb (f_name field))
    ["AccountId"; "ContactId"; "Subject"; "Description"; "Origin"; "Status"; "Priority"]
  || Object.defined_at caseRecord (f_name field).

(** A required lookup field: search the referenced object, then select as
    for the account.  Every failure inside is logged and replaced by one
    error. *)
Definition askReference (conn : Conn) (field : Field) (objectName : string)
    (caseRecord : Obj) : M Obj :=
  searchString <- promptUser ("Enter a search string to find " ++ f_label field ++ ":") ;;
  try_catch
    (records <- call_find conn objectName (NameLike ("%" ++ searchString ++ "%"))
                  ["Id"; "Name"] ;;
     match records with
     | [] =>
         throw (JsError ("No " ++ objectName ++ " records found matching your search criteria."))
     | [only] =>
         emit (Log ("Using the only matching " ++ objectName ++ ": " ++ Name only)) ;;;
         ret (Object.set caseRecord (f_name field) (VStr (Id only)))
     | _ =>
         selection <-
           fmap parseInt (promptUser ("Select a " ++ f_label field ++ ":" ++ nl
                                      ++ numbered (map Name records))) ;;
         if invalid_selection selection (length records) then
           throw (JsError ("Invalid " ++ objectName
                           ++ " selection. Please enter a valid number from the list."))
         else
           match chosen records selection with
           | Some rec => ret (Object.set caseRecord (f_name field) (VStr (Id rec)))
           | None => undefined_read "Id"
           end
     end)
    (fun error =>
       emit (LogError ("Error finding " ++ objectName ++ " records:") error) ;;;
       throw (JsError ("Unable to find " ++ f_label field ++ " records. Please try again."))).

(** A required picklist field. *)
Definition askPicklist (field : Field) (values : list PicklistValue)
    (caseRecord : Obj) : M Obj :=
  selection <- fmap parseInt (promptUser ("Select a " ++ f_label field ++ ":" ++ nl
                                          ++ choices values)) ;;
  if invalid_selection selection (length values) then
    throw (JsError ("Invalid " ++ f_label field
                    ++ " selection. Please enter a valid number from the list."))
  else
    match chosen values selection with
    | Some item => ret (Object.set caseRecord (f_name field) (VStr (pv_value item)))
    | None => undefined_read "value"
    end.

(** [switch (field.type)] for the remaining required fields. *)
Definition askScalar (field : Field) : M JSVal :=
  let t := f_type field in
  if String.eqb t "boolean" then
    boolResponse <- promptUser (f_label field ++ " (true/false):") ;;
    ret (VBool (String.eqb (toLowerCase boolResponse) "true"))
  else if String.eqb t "date" then
    fmap VStr (promptUser (f_label field ++ " (YYYY-MM-DD):"))
  else if String.eqb t "datetime" then
    fmap VStr (promptUser (f_label field ++ " (YYYY-MM-DDTHH:MM:SS):"))
  else if String.eqb t "double" || String.eqb t "int" || String.eqb t "currency" then
    numResponse <- promptUser (f_label field ++ ":") ;;
    if parseFloat_isNaN numResponse then
      throw (JsError ("Invalid number format for " ++ f_label field))
    else ret (VNum numResponse)
  else
    fmap VStr (promptUser (f_label field ++ ":")).

(** One round of [for (const field of requiredFields)] on a field that is
    not passed over. *)
Definition askRequired (conn : Conn) (field : Field) (caseRecord : Obj) : M Obj :=
  match (if String.eqb (f_type field) "reference" then f_referenceTo field else None) with
  | Some (objectName :: _) => askReference conn field objectName caseRecord
  | _ =>
      match (if String.eqb (f_type field) "picklist" then f_picklistValues field else None) with
      | Some (v :: vs) => askPicklist field (v :: vs) caseRecord
      | _ =>
          fieldValue <- askScalar field ;;
          ret (Object.set caseRecord (f_name field) fieldValue)
      end
  end.

Fixpoint askRequiredFields (conn : Conn) (requiredFields : list Field)
    (caseRecord : Obj) : M Obj :=
  match requiredFields with
  | [] => ret caseRecord
  | field :: rest =>
      if alreadyHandled caseRecord field then askRequiredFields conn rest caseRecord
      else
        caseRecord' <- askRequired conn field caseRecord ;;
        askRequiredFields conn rest caseRecord'
  end.

(** Everything the flow does before the summary: the metadata and the record
    accumulated from the answers. *)
Definition collectCaseRecord (conn : Conn) : M (list Field * Obj) :=
  caseDescribe <- call_describe conn "Case" ;;
  let requiredFields := filter is_required caseDescribe in
  let caseRecord : Obj := [] in
  selectedAccount <- selectAccount conn ;;
  let caseRecord := Object.set caseRecord "AccountId" (VStr (Id selectedAccount)) in
  caseRecord <- selectContact conn selectedAccount caseRecord ;;
  caseRecord <- webContact caseRecord ;;
  caseRecord <- askSubject caseRecord ;;
  caseRecord <- askDescription caseRecord ;;
  caseRecord <- askCommonPicklist "Origin" "Select an origin:" caseDescribe caseRecord ;;
  caseRecord <- askCommonPicklist "Status" "Select a status:" caseDescribe caseRecord ;;
  caseRecord <- askCommonPicklist "Priority" "Select a priority:" caseDescribe caseRecord ;;
  caseRecord <- askRequiredFields conn requiredFields caseRecord ;;
  ret (caseDescribe, caseRecord).

(** The summary: one line per entry, under the label of the metadata. *)
Fixpoint logSummary (caseDescribe : list Field) (entries : Obj) : M unit :=
  match entries with
  | [] => ret tt
  | (key, value) :: rest =>
      let label :=
        match List.find (fun f => String.eqb (f_name f) key) caseDescribe with
        | Some fieldMeta => f_label fieldMeta
        | None => key
        end in
      emit (LogField label value) ;;;
      logSummary caseDescribe rest
  end.

Definition confirmPrompt : string := nl ++ "Create this case? (Y/N):".
Definition canceled : Exn := JsError "Case creation canceled by user.".

(** The summary and the confirmation of an accumulated record. *)
Definition confirmCase (caseDescribe : list Field) (caseRecord : Obj) : M Obj :=
  emit (Log (nl ++ "Case Details Summary:")) ;;;
  logSummary caseDescribe caseRecord ;;;
  confirmation <- promptUser confirmPrompt ;;
  if negb (String.eqb (toLowerCase confirmation) "y") then throw canceled
  else ret caseRecord.

Definition advancedGuidedCaseCreation (conn : Conn) : M Obj :=
  collected <- collectCaseRecord conn ;;
  confirmCase (fst collected) (snd collected).

(* ================================================================= *)
(** ** The DML handler *)

Record DMLArgs : Type := {
  operation : string;
  objectName : string;
  records : list Obj;
  externalIdField : option string;
  guidedInput : option bool
}.

(** [r.Id] of a caller's record. *)
Definition idOf (r : Obj) : JSVal :=
  match Object.get r "Id" with Some v => v | None => VUndefined end.

(** [Array.isArray(result) ? result : [result]] *)
Definition resultsOf (result : DMLReply) : list DMLResult :=
  match result with Batch rs => rs | Single r => [r] end.

Definition successCount (results : list DMLResult) : nat :=
  length (filter success results).

Definition failureCount (results : list DMLResult) : nat :=
  length results - successCount results.

Definition tally (operation : string) (results : list DMLResult) : string :=
  toUpperCase operation ++ " operation completed." ++ nl ++
  "Processed " ++ show_nat (length results) ++ " records:" ++ nl ++
  "- Successful: " ++ show_nat (successCount results) ++ nl ++
  "- Failed: " ++ show_nat (failureCount results) ++ nl.

(** [results.forEach((r, idx) => { responseText += f(r, idx) })] *)
Fixpoint forEachIdx {A} (f : A -> nat -> string) (idx : nat) (xs : list A) : string :=
  match xs with
  | [] => ""
  | x :: rest => f x idx ++ forEachIdx f (S idx) rest
  end.

Definition successLine (r : DMLResult) (idx : nat) : string :=
  if success r && opt_truthy (id r)
  then "Record " ++ show_nat (idx + 1) ++ " - ID: " ++ show_opt (id r) ++ nl
  else "".

Definition statusSuffix (code : option string) : string :=
  if opt_truthy code then " [" ++ show_opt code ++ "]" else "".

(** One error of an [errors] array. *)
Definition errorLine (error : DMLError (list string)) : string :=
  "  - " ++ e_message error ++ statusSuffix (e_statusCode error) ++
  match e_fields error with
  | Some (n :: ns) => nl ++ "    Fields: " ++ join ", " (n :: ns)
  | _ => ""
  end ++ nl.

(** A single error object. *)
Definition errorLineOne (error : DMLError FieldsVal) : string :=
  "  - " ++ e_message error ++ statusSuffix (e_statusCode error) ++
  match e_fields error with
  | Some (FArr names) => nl ++ "    Fields: " ++ join ", " names
  | Some (FStr s) => if str_truthy s then nl ++ "    Fields: " ++ s else ""
  | None => ""
  end ++ nl.

Definition errorBlock (r : DMLResult) (idx : nat) : string :=
  if success r then ""
  else
    match errors r with
    | None => ""
    | Some errs =>
        "Record " ++ show_nat (idx + 1) ++ ":" ++ nl ++
        match errs with
        | ErrArr es => String.concat "" (map errorLine es)
        | ErrOne e => errorLineOne e
        end
    end.

Definition responseText (operation : string) (results : list DMLResult) : string :=
  tally operation results ++
  (if (0 <? successCount results)%nat
   then nl ++ "Successful Records:" ++ nl ++ forEachIdx successLine 0 results
   else "") ++
  nl ++
  (if (0 <? failureCount results)%nat
   then "Errors:" ++ nl ++ forEachIdx errorBlock 0 results
   else "").

(** The part after the [switch], the same in both variants. *)
Definition formatResults (operation : string) (result : DMLReply) : ToolResult :=
  text_result (responseText operation (resultsOf result)) false.

Definition missingExternalId : Exn :=
  JsError "externalIdField is required for upsert operations".

(** The cases of the [switch] other than insert, the same in both variants. *)
Definition otherOperations (conn : Conn) (args : DMLArgs) : M DMLReply :=
  let op := operation args in
  if String.eqb op "update" then
    call_dml conn (Update (objectName args) (records args))
  else if String.eqb op "delete" then
    call_dml conn (Destroy (objectName args) (map idOf (records args)))
  else if String.eqb op "upsert" then
    match externalIdField args with
    | Some ext =>
        if str_truthy ext then call_dml conn (Upsert (objectName args) (records args) ext)
        else throw missingExternalId
    | None => throw missingExternalId
    end
  else throw (JsError ("Unsupported operation: " ++ op)).

(** [handleDMLRecords] of [tools/caseCreation.ts]: a Case insert goes through
    the guided flow. *)
Module Guided.

Definition performOperation (conn : Conn) (args : DMLArgs) : M DMLReply :=
  if String.eqb (operation args) "insert" then
    if String.eqb (objectName args) "Case" then
      caseDetails <- advancedGuidedCaseCreation conn ;;
      call_dml conn (Create (objectName args) [caseDetails])
    else call_dml conn (Create (objectName args) (records args))
  else otherOperations conn args.

Definition handleDMLRecords (conn : Conn) (args : DMLArgs) : M ToolResult :=
  result <- performOperation conn args ;;
  ret (formatResults (operation args) result).

End Guided.

(** [handleDMLRecords] of the second variant: a Case insert is answered with
    a pointer to the dedicated case tools. *)
Module Dedicated.

Definition useCaseTools : string :=
  "For creating Case records, please use the dedicated case creation tools:" ++ nl ++
  "1. salesforce_get_case_metadata - Get required fields and picklist values" ++ nl ++
  "2. salesforce_search_accounts - Search for accounts" ++ nl ++
  "3. salesforce_search_contacts - Search for contacts" ++ nl ++
  "4. salesforce_get_picklist_values - Get picklist values for a specific field" ++ nl ++
  "5. salesforce_create_case - Create the case with collected information" ++ nl ++ nl ++
  "These tools provide a better guided experience for creating cases.".

(** The [switch]: an early [return] of a result, or the answer of the call. *)
Definition performOperation (conn : Conn) (args : DMLArgs) : M (ToolResult + DMLReply) :=
  if String.eqb (operation args) "insert" then
    if String.eqb (objectName args) "Case" then
      ret (inl (text_result useCaseTools true))
    else fmap inr (call_dml conn (Create (objectName args) (records args)))
  else fmap inr (otherOperations conn args).

Definition handleDMLRecords (conn : Conn) (args : DMLArgs) : M ToolResult :=
  outcome_of_switch <- performOperation conn args ;;
  match outcome_of_switch with
  | inl early => ret early
  | inr result => ret (formatResults (operation args) result)
  end.

End Dedicated.

(* ================================================================= *)
(** ** A sample organisation *)

(** A small connection used to run the handlers on concrete input: two
    accounts match every search, the account has two contacts, and every DML
    call is answered with one result per submitted record. *)
Module Demo.

Definition acmeCorp : SRecord :=
  {| Id := "001A"; Name := "Acme Corp"; Email := None; Phone := None |}.
Definition acmeIndustries : SRecord :=
  {| Id := "001B"; Name := "Acme Industries"; Email := None; Phone := None |}.
Definition ann : SRecord :=
  {| Id := "003A"; Name := "Ann Lee"; Email := Some "ann@acme.test"; Phone := None |}.
Definition bob : SRecord :=
  {| Id := "003B"; Name := "Bob Ray"; Email := None; Phone := Some "555-0100" |}.

Definition picklist (name : string) (required : bool) (values : list string) : Field :=
  {| f_name := name; f_label := name; f_type := "picklist";
     f_nillable := negb required; f_defaultedOnCreate := false; f_createable := true;
     f_picklistValues :=
       Some (map (fun v => {| pv_label := v; pv_value := v; pv_defaultValue := false |})
               values);
     f_referenceTo := Some [] |}.

Definition lookup (name target : string) : Field :=
  {| f_name := name; f_label := name; f_type := "reference";
     f_nillable := false; f_defaultedOnCreate := false; f_createable := true;
     f_picklistValues := Some [];
     f_referenceTo := Some [target] |}.

Definition caseFields : list Field :=
  [ picklist "Origin" false ["Phone"; "Web"];
    picklist "Status" false ["New"; "Closed"];
    picklist "Priority" false ["High"; "Low"] ].

Definition done (ident : string) : DMLResult :=
  {| success := true; id := Some ident; errors := None |}.

Definition failed (message code : string) (fields : list string) : DMLResult :=
  {| success := false; id := None;
     errors := Some (ErrArr [ {| e_message := message; e_statusCode := Some code;
                                 e_fields := Some fields |} ]) |}.

Definition onePerRecord (c : Call) : DMLReply :=
  match c with
  | Create _ rs | Update _ rs | Upsert _ rs _ => Batch (map (fun _ => done "500X") rs)
  | Destroy _ ids => Batch (map (fun _ => done "500X") ids)
  | _ => Single (done "500X")
  end.

Definition org (fields : list Field) (answer : Call -> Exn + DMLReply) : Conn :=
  {| instanceUrl := Some "https://acme.example";
     describe := fun _ _ => inr fields;
     find := fun _ obj _ _ =>
               if String.eqb obj "Contact" then inr [ann; bob]
               else inr [acmeCorp; acmeIndustries];
     retrieve := fun _ _ _ => inr acmeCorp;
     dml := fun _ c => answer c |}.

Definition conn : Conn := org caseFields (fun c => inr (onePerRecord c)).

(** The same organisation with the session expired: every call is rejected. *)
Definition expired : Exn := JsError "INVALID_SESSION_ID: Session expired or invalid".
Definition offline : Conn :=
  {| instanceUrl := None;
     describe := fun _ _ => inl expired;
     find := fun _ _ _ _ => inl expired;
     retrieve := fun _ _ _ => inl expired;
     dml := fun _ _ => inl expired |}.

(** The same organisation answering an update of two records with one
    success and one failure. *)
Definition mixed : Conn :=
  org caseFields
    (fun _ => inr (Batch [ done "500X";
                           failed "Required fields are missing" "REQUIRED_FIELD_MISSING"
                             ["Subject"; "Origin"] ])).

(** Answers that take the guided flow to its end: search, second account,
    no contact, web e-mail after one blank line, web name, subject, no
    description, origin 2, status 1, priority 1, and the confirmation. *)
Definition answers (confirmation : string) : list string :=
  ["Acme"; "2"; ""; "   "; "joe@acme.test"; "Joe"; "Printer on fire"; "";
   "2"; "1"; "1"; confirmation].

Definition insertCase (rs : list Obj) : DMLArgs :=
  {| operation := "insert"; objectName := "Case"; records := rs;
     externalIdField := None; guidedInput := Some true |}.

(** The Case metadata with a required picklist and a required lookup. *)
Definition caseFieldsMore : list Field :=
  (caseFields ++ [ picklist "Reason__c" true ["Breakdown"; "Other"];
                   lookup "Product__c" "Product2" ])%list.

Definition upsertAccounts (ext : option string) : DMLArgs :=
  {| operation := "upsert"; objectName := "Account";
     records := [[("Name", VStr "Acme Corp"); ("Ext__c", VStr "A-1")]];
     externalIdField := ext; guidedInput := None |}.

Definition updateTwo : DMLArgs :=
  {| operation := "update"; objectName := "Account";
     records := [[("Id", VStr "001A"); ("Name", VStr "Acme Corporation")];
                 [("Id", VStr "001B")]];
     externalIdField := None; guidedInput := None |}.


End Demo.

(* ================================================================= *)
(** ** Vocabulary of the properties *)

Definition starts_ws (s : string) : bool :=
  match s with String c _ => is_ws c | EmptyString => false end.

Definition ends_ws (s : string) : bool := starts_ws (JsString.rev s).

(** [part] occurs in [whole]. *)
Definition contains (part whole : string) : Prop :=
  exists before after_, whole = before ++ part ++ after_.

(** The calls that write to the organisation. *)
Definition is_dml (c : Call) : bool :=
  match c with
  | Describe _ | Find _ _ _ | Retrieve _ _ => false
  | _ => true
  end.

Definition writes (ev : Event) : Prop :=
  match ev with Remote c _ => is_dml c = true | _ => False end.

Definition rejected (ev : Event) : Prop :=
  match ev with Remote _ (Some _) => True | _ => False end.

Definition is_remote (ev : Event) : Prop :=
  match ev with Remote _ _ => True | _ => False end.

(** An event that is no remote call. *)
Definition local (ev : Event) : Prop := ~ is_remote ev.

(** An answer that is no number of a list of [n] choices: [parseInt] finds
    no number, or one outside 1..n. *)
Definition Invalid (answer : string) (n : nat) : Prop :=
  parseInt answer = None \/
  exists z, parseInt answer = Some z /\ (z < 1 \/ Z.of_nat n < z)%Z.

(** An answer that is the 1-based number of [x] in [xs]. *)
Definition Picks {A} (answer : string) (xs : list A) (x : A) : Prop :=
  exists z, parseInt answer = Some z /\ (1 <= z <= Z.of_nat (length xs))%Z /\
            nth_error xs (Z.to_nat (z - 1)) = Some x.

(** The text of a result. *)
Definition textOf (r : ToolResult) : string :=
  String.concat "" (map c_text (content r)).

(** A property of the outcome and the events that holds of every run. *)
Definition always {A} (Q : Outcome A -> list Event -> Prop) (m : M A) : Prop :=
  forall h i, Q (outcome (m h i)) (emitted (m h i)).

(** No call that writes was issued. *)
Definition quietly {A} (_ : Outcome A) (ev : list Event) : Prop :=
  Forall (fun e => ~ writes e) ev.

(** A rejected call ends in a thrown error. *)
Definition loudly {A} (o : Outcome A) (ev : list Event) : Prop :=
  (exists e, o = Thrown e) \/ Forall (fun e => ~ rejected e) ev.

(** What a returned value satisfies. *)
Definition post {A} (m : M A) (P : A -> Prop) : Prop :=
  forall h i a, outcome (m h i) = Returned a -> P a.

(** The number of records a DML call submits. *)
Definition submitted (c : Call) : nat :=
  match c with
  | Create _ rs | Update _ rs | Upsert _ rs _ => length rs
  | Destroy _ ids => length ids
  | CreateOne _ _ => 1
  | _ => 0
  end.

Definition isCaseInsert (args : DMLArgs) : bool :=
  String.eqb (operation args) "insert" && String.eqb (objectName args) "Case".

(** The single call the [switch] issues outside the Case insert, or the error
    it throws before any call. *)
Definition directCall (args : DMLArgs) : Exn + Call :=
  let op := operation args in
  if String.eqb op "insert" then inr (Create (objectName args) (records args))
  else if String.eqb op "update" then inr (Update (objectName args) (records args))
  else if String.eqb op "delete" then
    inr (Destroy (objectName args) (map idOf (records args)))
  else if String.eqb op "upsert" then
    match externalIdField args with
    | Some ext => if String.eqb ext "" then inl missingExternalId
                  else inr (Upsert (objectName args) (records args) ext)
    | None => inl missingExternalId
    end
  else inl (JsError ("Unsupported operation: " ++ op)).

(** Issue the call and format its answer. *)
Definition runDirect (conn : Conn) (op : string) (d : Exn + Call) : M ToolResult :=
  fun h i =>
    match d with
    | inl e => {| outcome := Thrown e; emitted := []; unread := i |}
    | inr c =>
        match dml conn h c with
        | inl e => {| outcome := Thrown e; emitted := [Remote c (Some e)]; unread := i |}
        | inr reply =>
            {| outcome := Returned (formatResults op reply);
               emitted := [Remote c None]; unread := i |}
        end
    end.

(** The two variants of the DML handler. *)
Definition variants : list (Conn -> DMLArgs -> M ToolResult) :=
  [Guided.handleDMLRecords; Dedicated.handleDMLRecords].




(** A handler that catches: every run returns a result, and a run in which
    a call was rejected returns the error result made of the handler's
    prefix and the text of the rejection. *)
Definition catches (prefix : string) (m : M ToolResult) : Prop :=
  forall h i,
    exists res,
      outcome (m h i) = Returned res
      /\ forall c e, In (Remote c (Some e)) (emitted (m h i)) ->
                     res = text_result (prefix ++ exn_text e) true.

(* ================================================================= *)
(** ** [JSON.stringify(value, null, 2)] *)

Module Json.

Definition backslash : string := String (ascii_of_nat 92) EmptyString.

Definition hex_digit (n : nat) : ascii :=
  nth n (list_ascii_of_string "0123456789abcdef") "0"%char.

(** One code unit inside a JSON string. *)
Definition escape_char (c : ascii) : string :=
  let n := nat_of_ascii c in
  if (n =? 34)%nat then backslash ++ dq
  else if (n =? 92)%nat then backslash ++ backslash
  else if (n =? 8)%nat then backslash ++ "b"
  else if (n =? 12)%nat then backslash ++ "f"
  else if (n =? 10)%nat then backslash ++ "n"
  else if (n =? 13)%nat then backslash ++ "r"
  else if (n =? 9)%nat then backslash ++ "t"
  else if (n <? 32)%nat then
    backslash ++ "u00" ++ String (hex_digit (n / 16)) (String (hex_digit (n mod 16)) "")
  else String c "".

Fixpoint escape (s : string) : string :=
  match s with
  | EmptyString => ""
  | String c r => escape_char c ++ escape r
  end.

Definition quote (s : string) : string := dq ++ escape s ++ dq.

(** An object whose values are strings or [undefined]; a member whose
    value is [undefined] is left out. *)
Definition stringify (o : list (string * option string)) : string :=
  let members :=
    flat_map (fun kv => match snd kv with
                        | Some v => ["  " ++ quote (fst kv) ++ ": " ++ quote v]
                        | None => []
                        end) o in
  match members with
  | [] => "{}"
  | _ => "{" ++ nl ++ join ("," ++ nl) members ++ nl ++ "}"
  end.

Definition stringifyItem (item : ContentItem) : string :=
  "    {" ++ nl ++
  "      " ++ quote "type" ++ ": " ++ quote (c_type item) ++ "," ++ nl ++
  "      " ++ quote "text" ++ ": " ++ quote (c_text item) ++ nl ++
  "    }".

(** A tool result. *)
Definition stringifyResult (r : ToolResult) : string :=
  "{" ++ nl ++
  "  " ++ quote "content" ++ ": " ++
  match content r with
  | [] => "[]"
  | items => "[" ++ nl ++ join ("," ++ nl) (map stringifyItem items) ++ nl ++ "  ]"
  end ++ "," ++ nl ++
  "  " ++ quote "isError" ++ ": " ++ (if isError r then "true" else "false") ++ nl ++
  "}".

End Json.

(* ================================================================= *)
(** ** The first guided flow: [guidedCaseCreation] *)

(** [(await conn.sobject("Case").describe().then(desc =>
    desc.fields.find(f => f.name === fieldName).picklistValues))], read by
    [.map] right after. *)
Definition picklistOf (conn : Conn) (fieldName : string) : M (list PicklistValue) :=
  desc <- call_describe conn "Case" ;;
  match List.find (fun f => String.eqb (f_name f) fieldName) desc with
  | None => undefined_read "picklistValues"
  | Some field =>
      match f_picklistValues field with
      | None => undefined_read "map"
      | Some values => ret values
      end
  end.

(** A record whose values are strings or [undefined], as an object. *)
Definition toObj (o : list (string * option string)) : Obj :=
  map (fun kv => (fst kv, val_of (snd kv))) o.

Definition guidedCaseCreation (conn : Conn) : M Obj :=
  accountSearchString <- promptUser "Enter a search string to filter accounts:" ;;
  accounts <- call_find conn "Account" (NameLike ("%" ++ accountSearchString ++ "%"))
                ["Id"; "Name"] ;;
  if (length accounts =? 0)%nat then
    throw (JsError "No accounts found for the given search string.")
  else
    accountSelection <-
      fmap parseInt (promptUser ("Select an account:" ++ nl ++ numbered (map Name accounts))) ;;
    match chosen accounts accountSelection with
    | None => throw (JsError "Invalid account selection.")
    | Some selectedAccount =>
        contacts <- call_find conn "Contact" (FieldIs "AccountId" (Id selectedAccount))
                      ["Id"; "Name"] ;;
        selectedContact <-
          (if (0 <? length contacts)%nat then
             contactSelection <-
               fmap parseInt
                 (promptUser ("Select a contact (or press Enter to skip):" ++ nl
                              ++ numbered (map Name contacts))) ;;
             ret (chosen contacts contactSelection)
           else ret None) ;;
        caseTypes <- picklistOf conn "Type" ;;
        typeSelection <-
          fmap parseInt (promptUser ("Select a case type:" ++ nl
                                     ++ numbered (map pv_label caseTypes))) ;;
        let selectedType := option_map pv_value (chosen caseTypes typeSelection) in
        caseStatuses <- picklistOf conn "Status" ;;
        statusSelection <-
          fmap parseInt (promptUser ("Select a case status:" ++ nl
                                     ++ numbered (map pv_label caseStatuses))) ;;
        let selectedStatus := option_map pv_value (chosen caseStatuses statusSelection) in
        let caseDetails :=
          [("AccountId", Some (Id selectedAccount));
           ("ContactId",
            match selectedContact with
            | Some contact => if str_truthy (Id contact) then Some (Id contact) else None
            | None => None
            end);
           ("Type", selectedType);
           ("Status", selectedStatus)] in
        confirmation <-
          promptUser ("Confirm case details:" ++ nl ++ Json.stringify caseDetails ++ nl
                      ++ "(Y to confirm, N to edit):") ;;
        if negb (String.eqb (toLowerCase confirmation) "y") then throw canceled
        else ret (toObj caseDetails)
    end.

(* ================================================================= *)
(** ** The test script: [createTestCase] *)

(** The regular expression [/Record \d+ - ID: (\w+)/]. *)
Module IdPattern.

Definition is_digit (c : ascii) : bool :=
  let n := nat_of_ascii c in (48 <=? n)%nat && (n <=? 57)%nat.

(** [\w] *)
Definition is_word (c : ascii) : bool :=
  let n := nat_of_ascii c in
  is_digit c || ((65 <=? n)%nat && (n <=? 90)%nat)
  || ((97 <=? n)%nat && (n <=? 122)%nat) || (n =? 95)%nat.

(** The longest prefix of characters of a class, and what follows it. *)
Fixpoint span (p : ascii -> bool) (s : string) : string * string :=
  match s with
  | EmptyString => ("", "")
  | String c r =>
      if p c then let (a, b) := span p r in (String c a, b) else ("", s)
  end.

Fixpoint strip (literal s : string) : option string :=
  match literal, s with
  | EmptyString, _ => Some s
  | String a l, String b r => if Ascii.eqb a b then strip l r else None
  | String _ _, EmptyString => None
  end.

(** A match that starts at the first character: its group.  Both
    repetitions are greedy, and no shorter run can be followed by what the
    pattern has next, so there is nothing to backtrack to. *)
Definition matchHere (s : string) : option string :=
  match strip "Record " s with
  | None => None
  | Some r1 =>
      let (ds, r2) := span is_digit r1 in
      if String.eqb ds "" then None
      else
        match strip " - ID: " r2 with
        | None => None
        | Some r3 =>
            let (ws, _) := span is_word r3 in
            if String.eqb ws "" then None else Some ws
        end
  end.

(** [text.match(...)]: the group of the leftmost match. *)
Fixpoint search (s : string) : option string :=
  match matchHere s with
  | Some group => Some group
  | None =>
      match s with
      | EmptyString => None
      | String _ r => search r
      end
  end.

End IdPattern.

Definition testArgs : DMLArgs :=
  {| operation := "insert"; objectName := "Case"; records := [[]];
     externalIdField := None; guidedInput := Some true |}.

(** [createTestCase(conn)], over the [handleDMLRecords] the script imports. *)
Definition createTestCase (handleDMLRecords : Conn -> DMLArgs -> M ToolResult)
    (conn : Conn) : M ToolResult :=
  try_catch
    (emit (Log "Creating test case with guided input...") ;;;
     result <- handleDMLRecords conn testArgs ;;
     match content result with
     | first :: _ =>
         emit (Log (nl ++ "Result: " ++ Json.stringifyResult result)) ;;;
         (if negb (isError result) then
            match IdPattern.search (c_text first) with
            | Some caseId =>
                emit (Log (nl ++ "Case created successfully!")) ;;;
                emit (Log ("Case URL: " ++ show_opt (instanceUrl conn)
                           ++ "/lightning/r/Case/" ++ caseId ++ "/view"))
            | None => ret tt
            end
          else ret tt) ;;;
         ret result
     | [] => ret result
     end)
    (fun error =>
       emit (LogError "Error creating test case:" error) ;;;
       throw error).

(* ================================================================= *)
(** ** Further vocabulary *)

Fixpoint all_chars (p : ascii -> bool) (s : string) : bool :=
  match s with
  | EmptyString => true
  | String c r => p c && all_chars p r
  end.

(** A non-empty run of decimal digits. *)
Definition is_number (s : string) : bool :=
  negb (String.eqb s "") && all_chars IdPattern.is_digit s.

(** Every entry of [o] that is defined is the same in [o']. *)
Definition extends (o o' : Obj) : Prop :=
  forall k, Object.defined_at o k = true -> Object.get o' k = Object.get o k.

(** The names the loop over the required fields passes over. *)
Definition handledNames : list string :=
  ["AccountId"; "ContactId"; "Subject"; "Description"; "Origin"; "Status"; "Priority"].

(** A value other than [undefined]. *)
Definition is_defined (v : JSVal) : bool :=
  match v with VUndefined => false | _ => true end.

(** [o'] differs from [o] at the keys [ks] at most. *)
Definition only_changes (ks : list string) (o o' : Obj) : Prop :=
  forall k, ~ In k ks -> Object.get o' k = Object.get o k.

(** A value of the picklist that the metadata gives for [key]. *)
Definition picklistValueOf (caseDescribe : list Field) (key value : string) : Prop :=
  exists field values item,
    List.find (fun f => String.eqb (f_name f) key) caseDescribe = Some field
    /\ f_picklistValues field = Some values
    /\ In item values
    /\ value = pv_value item.

(** An event that is a call which only reads from the organisation. *)
Definition reads (ev : Event) : Prop :=
  match ev with Remote c _ => is_dml c = false | _ => False end.

(** The handlers of the case tools that only look things up. *)
Definition lookups (conn : Conn) (searchTerm accountId fieldName : string)
  : list (M ToolResult) :=
  [handleGetCaseMetadata conn; handleSearchAccounts conn searchTerm;
   handleSearchContacts conn accountId; handleGetPicklistValues conn fieldName].

(** What a returned value and the events of its run satisfy. *)
Definition ends {A} (m : M A) (P : A -> list Event -> Prop) : Prop :=
  forall h i a, outcome (m h i) = Returned a -> P a (emitted (m h i)).

(** The prompt of the confirmation of the first guided flow. *)
Definition confirmDetails (details : list (string * option string)) : string :=
  "Confirm case details:" ++ nl ++ Json.stringify details ++ nl
  ++ "(Y to confirm, N to edit):".

(** What the test script logs after a result came back. *)
Definition scriptLogs (conn : Conn) (result : ToolResult) : list Event :=
  match content result with
  | [] => []
  | first :: _ =>
      Log (nl ++ "Result: " ++ Json.stringifyResult result)
      :: (if isError result then []
          else match IdPattern.search (c_text first) with
               | Some caseId =>
                   [Log (nl ++ "Case created successfully!");
                    Log ("Case URL: " ++ show_opt (instanceUrl conn)
                         ++ "/lightning/r/Case/" ++ caseId ++ "/view")]
               | None => []
               end)
  end.

(** The first result that the report lists: none before it is a success
    with a non-empty id. *)
Definition firstListed (results : list DMLResult) (j : nat) (ident : string) : Prop :=
  (exists r, nth_error results j = Some r /\ success r = true /\ id r = Some ident)
  /\ ident <> ""
  /\ forall j' r', j' < j -> nth_error results j' = Some r' ->
                   success r' && opt_truthy (id r') = false.

(* ================================================================= *)
(** * Properties *)

(** ** Strings *)

Lemma append_nil_r (s : string) : s ++ "" = s.
Proof. induction s; simpl; congruence. Qed.

Lemma append_assoc (a b c : string) : (a ++ b) ++ c = a ++ b ++ c.
Proof. induction a; simpl; congruence. Qed.

Lemma rev_append (a b : string) :
  JsString.rev (a ++ b) = JsString.rev b ++ JsString.rev a.
Proof.
  induction a as [|c a IH]; simpl.
  - now rewrite append_nil_r.
  - now rewrite IH, append_assoc.
Qed.

Lemma rev_involutive (s : string) : JsString.rev (JsString.rev s) = s.
Proof.
  induction s as [|c s IH]; simpl; auto.
  rewrite rev_append, IH. reflexivity.
Qed.

Lemma ltrim_no_lead (s : string) : starts_ws (ltrim s) = false.
Proof.
  induction s as [|c s IH]; simpl; auto.
  destruct (is_ws c) eqn:E; simpl; auto.
Qed.

Lemma ltrim_fixed (s : string) : starts_ws s = false -> ltrim s = s.
Proof. destruct s; simpl; auto. intros ->. reflexivity. Qed.

Lemma ltrim_append (a b : string) :
  ltrim (a ++ b) = if String.eqb (ltrim a) "" then ltrim b else ltrim a ++ b.
Proof.
  induction a as [|c a IH]; simpl; auto.
  destruct (is_ws c); auto.
Qed.

(** [rtrim] read from the front: the last characters go while they are
    white space. *)
Lemma rtrim_cons (c : ascii) (s : string) :
  rtrim (String c s) =
  if String.eqb (rtrim s) "" && is_ws c then "" else String c (rtrim s).
Proof.
  unfold rtrim. simpl JsString.rev at 2. rewrite ltrim_append.
  destruct (ltrim (JsString.rev s)) as [|d t] eqn:E; simpl.
  - destruct (is_ws c); reflexivity.
  - rewrite rev_append. simpl.
    destruct (JsString.rev t ++ String d "") eqn:E2; simpl; auto.
    destruct (JsString.rev t); discriminate.
Qed.




Lemma rtrim_fixed (s : string) : ends_ws s = false -> rtrim s = s.
Proof.
  unfold ends_ws, rtrim. intros E. rewrite (ltrim_fixed _ E). apply rev_involutive.
Qed.



Example trim_pads :
  trim (String (ascii_of_nat 9) " Y " ++ nl) = "Y".
Proof. reflexivity. Qed.

Example parseInt_cases :
  parseInt "12" = Some 12%Z /\ parseInt "2abc" = Some 2%Z
  /\ parseInt " -7x" = Some (-7)%Z /\ parseInt "abc" = None
  /\ parseInt "" = None /\ parseInt "-" = None.
Proof. repeat split. Qed.

Example show_nat_cases :
  show_nat 120 = "120" /\ show_nat 0 = "0" /\ show_nat 7 = "7".
Proof. repeat split. Qed.

Example parseFloat_cases :
  parseFloat_isNaN "1.5e3" = false /\ parseFloat_isNaN ".5" = false
  /\ parseFloat_isNaN "-Infinity" = false /\ parseFloat_isNaN "." = true
  /\ parseFloat_isNaN "abc" = true.
Proof. repeat split. Qed.

(** Only ["y"] and ["Y"] lower-case to ["y"]. *)
Lemma lower_is_y (s : string) : toLowerCase s = "y" <-> s = "y" \/ s = "Y".
Proof.
  split.
  - destruct s as [|c [|d r]]; simpl; try discriminate.
    intros H. injection H as H.
    destruct c as [[] [] [] [] [] [] [] []]; vm_compute in H; try discriminate; auto.
  - intros [-> | ->]; reflexivity.
Qed.

(* ================================================================= *)
(** ** Running computations *)

Lemma bind_returned {A B} (m : M A) (f : A -> M B) h i a :
  outcome (m h i) = Returned a ->
  bind m f h i = after (m h i) (f a (h ++ emitted (m h i))%list (unread (m h i))).
Proof. unfold bind. intros ->. reflexivity. Qed.

Lemma bind_thrown {A B} (m : M A) (f : A -> M B) h i e :
  outcome (m h i) = Thrown e ->
  bind m f h i = {| outcome := Thrown e; emitted := emitted (m h i); unread := unread (m h i) |}.
Proof. unfold bind. intros ->. reflexivity. Qed.

Lemma bind_pending {A B} (m : M A) (f : A -> M B) h i :
  outcome (m h i) = Pending ->
  bind m f h i = {| outcome := Pending; emitted := emitted (m h i); unread := unread (m h i) |}.
Proof. unfold bind. intros ->. reflexivity. Qed.

(** How a bound computation can return. *)
Lemma bind_returns {A B} (m : M A) (f : A -> M B) h i b :
  outcome (bind m f h i) = Returned b ->
  exists a, outcome (m h i) = Returned a /\
            outcome (f a (h ++ emitted (m h i))%list (unread (m h i))) = Returned b.
Proof.
  unfold bind. destruct (outcome (m h i)) eqn:E; simpl; try discriminate.
  intros H. eauto.
Qed.

Lemma logSummary_runs (caseDescribe : list Field) (entries : Obj) h i :
  outcome (logSummary caseDescribe entries h i) = Returned tt /\
  unread (logSummary caseDescribe entries h i) = i.
Proof.
  revert h. induction entries as [|[key value] rest IH]; intros h; simpl; auto.
Qed.

(** The confirmation decides on the trimmed, lower-cased answer. *)
Lemma confirmCase_outcome (caseDescribe : list Field) (caseRecord : Obj) h chunk rest :
  outcome (confirmCase caseDescribe caseRecord h (chunk :: rest)) =
  if String.eqb (toLowerCase (trim chunk)) "y" then Returned caseRecord
  else Thrown canceled.
Proof.
  unfold confirmCase, bind; simpl.
  match goal with
  | |- context [logSummary ?a ?b ?c ?d] =>
      destruct (logSummary_runs a b c d) as [Ho Hu]
  end.
  rewrite Ho; simpl. rewrite Hu; simpl.
  destruct (String.eqb (toLowerCase (trim chunk)) "y"); reflexivity.
Qed.

(* ================================================================= *)
(** ** The interaction provider *)


(* ================================================================= *)
(** ** Objects *)

Lemma get_set_same (o : Obj) k v : Object.get (Object.set o k v) k = Some v.
Proof.
  induction o as [|[k' v'] r IH]; simpl.
  - now rewrite String.eqb_refl.
  - destruct (String.eqb k' k) eqn:E; simpl.
    + now rewrite String.eqb_refl.
    + now rewrite E.
Qed.

Lemma get_set_other (o : Obj) k v k' :
  k <> k' -> Object.get (Object.set o k v) k' = Object.get o k'.
Proof.
  intros N. induction o as [|[k0 v0] r IH]; simpl.
  - apply String.eqb_neq in N. now rewrite N.
  - destruct (String.eqb k0 k) eqn:E; simpl.
    + apply String.eqb_eq in E. subst k0.
      apply String.eqb_neq in N. now rewrite N.
    + destruct (String.eqb k0 k'); auto.
Qed.

Lemma get_delete_other (o : Obj) k k' :
  k <> k' -> Object.get (Object.delete o k) k' = Object.get o k'.
Proof.
  intros N. induction o as [|[k0 v0] r IH]; simpl; auto.
  destruct (String.eqb k0 k) eqn:E; simpl.
  - apply String.eqb_eq in E. subst k0.
    apply String.eqb_neq in N. now rewrite N.
  - destruct (String.eqb k0 k'); auto.
Qed.

Lemma get_assign_absent (source target : Obj) k :
  ~ In k (map fst source) ->
  Object.get (Object.assign target source) k = Object.get target k.
Proof.
  revert target. induction source as [|[k1 v1] r IH]; intros target N; simpl; auto.
  simpl in N. rewrite IH by tauto.
  destruct (String.eqb k1 "__proto__"); auto.
  apply get_set_other. tauto.
Qed.


(* ================================================================= *)
(** ** handleCreateCase *)


(** The handler issues one call, the creation of the record it built. *)
Lemma handleCreateCase_call env conn args h i :
  exists rejection,
    emitted (handleCreateCase env conn args h i)
    = [Remote (CreateOne "Case" (caseRecordOf args)) rejection].
Proof.
  unfold handleCreateCase, try_catch, bind, call_dml, settle.
  destruct (dml conn h (CreateOne "Case" (caseRecordOf args))) as [e | [rs | r]];
    simpl; eauto.
  destruct (success r); simpl; eauto.
  destruct (errors r) as [[es | e] |]; simpl; eauto.
Qed.


(* ================================================================= *)
(** ** Invariants of the guided flow *)

Lemma askUntilFilled_local message nag h i :
  Forall local (emitted (askUntilFilled message nag h i)).
Proof.
  revert h. induction i as [|chunk rest IH]; intros h; simpl.
  - repeat constructor; intros [].
  - destruct (String.eqb (trim (trim chunk)) ""); simpl.
    + repeat (constructor; [intros []|]). apply IH.
    + repeat constructor; intros [].
Qed.

Lemma logSummary_local caseDescribe entries h i :
  Forall local (emitted (logSummary caseDescribe entries h i)).
Proof.
  revert h. induction entries as [|[key value] rest IH]; intros h; simpl.
  - constructor.
  - constructor; [intros [] | apply IH].
Qed.

(** A property of outcome and events that local events do not disturb, that
    reads satisfy and that sequencing preserves holds of the whole flow. *)
Section FlowInvariant.

Variable Q : forall A, Outcome A -> list Event -> Prop.
Hypothesis Q_local :
  forall A (o : Outcome A) ev, Forall local ev -> Q A o ev.
Hypothesis Q_read :
  forall A c (answer : Exn + A) i, is_dml c = false ->
    Q A (outcome (settle c answer i)) (emitted (settle c answer i)).
Hypothesis Q_seq :
  forall A B (a : A) (o : Outcome B) ev1 ev2,
    Q A (Returned a) ev1 -> Q B o ev2 -> Q B o (ev1 ++ ev2)%list.
Hypothesis Q_thrown :
  forall A B e ev, Q A (Thrown e) ev -> Q B (Thrown e) ev.
Hypothesis Q_pending :
  forall A B ev, Q A Pending ev -> Q B Pending ev.
Hypothesis Q_rethrow :
  forall A e e' ev ev', Q A (Thrown e) ev -> Forall local ev' ->
    Q A (Thrown e') (ev ++ ev')%list.

Lemma inv_ret A (a : A) : always (Q A) (ret a).
Proof. intros h i. apply Q_local. constructor. Qed.

Lemma inv_throw A e : always (Q A) (throw e).
Proof. intros h i. apply Q_local. constructor. Qed.

Lemma inv_emit ev : local ev -> always (Q unit) (emit ev).
Proof. intros L h i. apply Q_local. repeat constructor; auto. Qed.

Lemma inv_promptUser message : always (Q string) (promptUser message).
Proof.
  intros h i. apply Q_local.
  destruct i; simpl; repeat constructor; intros [].
Qed.

Lemma inv_askUntilFilled message nag :
  always (Q string) (askUntilFilled message nag).
Proof. intros h i. apply Q_local, askUntilFilled_local. Qed.

Lemma inv_logSummary caseDescribe entries :
  always (Q unit) (logSummary caseDescribe entries).
Proof. intros h i. apply Q_local, logSummary_local. Qed.

Lemma inv_find conn obj crit fields :
  always (Q (list SRecord)) (call_find conn obj crit fields).
Proof. intros h i. apply Q_read. reflexivity. Qed.

Lemma inv_describe conn obj : always (Q (list Field)) (call_describe conn obj).
Proof. intros h i. apply Q_read. reflexivity. Qed.

Lemma inv_bind A B (m : M A) (f : A -> M B) :
  always (Q A) m -> (forall a, always (Q B) (f a)) -> always (Q B) (bind m f).
Proof.
  intros Hm Hf h i. unfold bind.
  specialize (Hm h i).
  destruct (outcome (m h i)) as [a | e |] eqn:E; simpl.
  - eapply Q_seq; [exact Hm | apply Hf].
  - eapply Q_thrown; exact Hm.
  - eapply Q_pending; exact Hm.
Qed.

Lemma inv_fmap A B (g : A -> B) (m : M A) :
  always (Q A) m -> always (Q B) (fmap g m).
Proof. intros Hm. apply inv_bind; auto. intros a. apply inv_ret. Qed.

(** [catch (error) { console.error(...); throw new Error(...) }] *)
Lemma inv_rethrow A (m : M A) line e' :
  always (Q A) m ->
  always (Q A) (try_catch m (fun error => emit (LogError line error) ;;; throw e')).
Proof.
  intros Hm h i. unfold try_catch.
  specialize (Hm h i).
  destruct (outcome (m h i)) as [a | e |] eqn:E; simpl;
    try (rewrite E; exact Hm).
  eapply Q_rethrow; [exact Hm|]. repeat constructor. intros [].
Qed.

Ltac inv_step :=
  first
    [ apply inv_ret | apply inv_throw | apply inv_promptUser
    | apply inv_askUntilFilled | apply inv_logSummary
    | apply inv_find | apply inv_describe
    | apply inv_emit; intros []
    | apply inv_fmap
    | apply inv_rethrow
    | apply inv_bind; [| intros ?] ].

Ltac inv_case :=
  match goal with
  | |- always _ (if ?b then _ else _) => destruct b
  | |- always _ (match ?x with _ => _ end) => destruct x
  end.

Ltac inv_auto := repeat first [inv_step | inv_case].

Lemma inv_selectAccount conn : always (Q SRecord) (selectAccount conn).
Proof. unfold selectAccount, undefined_read. inv_auto. Qed.

Lemma inv_selectContact conn account caseRecord :
  always (Q Obj) (selectContact conn account caseRecord).
Proof. unfold selectContact, undefined_read. inv_auto. Qed.

Lemma inv_webContact caseRecord : always (Q Obj) (webContact caseRecord).
Proof. unfold webContact. inv_auto. Qed.

Lemma inv_askSubject caseRecord : always (Q Obj) (askSubject caseRecord).
Proof. unfold askSubject. inv_auto. Qed.

Lemma inv_askDescription caseRecord : always (Q Obj) (askDescription caseRecord).
Proof. unfold askDescription. inv_auto. Qed.

Lemma inv_askCommonPicklist key message caseDescribe caseRecord :
  always (Q Obj) (askCommonPicklist key message caseDescribe caseRecord).
Proof. unfold askCommonPicklist, undefined_read. inv_auto. Qed.

Lemma inv_askRequired conn field caseRecord :
  always (Q Obj) (askRequired conn field caseRecord).
Proof.
  unfold askRequired, askReference, askPicklist, askScalar, undefined_read.
  inv_auto.
Qed.

Lemma inv_askRequiredFields conn requiredFields caseRecord :
  always (Q Obj) (askRequiredFields conn requiredFields caseRecord).
Proof.
  revert caseRecord.
  induction requiredFields as [|field rest IH]; intros caseRecord; simpl.
  - apply inv_ret.
  - destruct (alreadyHandled caseRecord field); auto.
    apply inv_bind; auto. apply inv_askRequired.
Qed.

Lemma inv_collectCaseRecord conn :
  always (Q (list Field * Obj)) (collectCaseRecord conn).
Proof.
  unfold collectCaseRecord.
  repeat first
    [ apply inv_ret | apply inv_describe | apply inv_selectAccount
    | apply inv_selectContact | apply inv_webContact | apply inv_askSubject
    | apply inv_askDescription | apply inv_askCommonPicklist
    | apply inv_askRequiredFields
    | apply inv_bind; [| intros ?] ].
Qed.

Lemma inv_confirmCase caseDescribe caseRecord :
  always (Q Obj) (confirmCase caseDescribe caseRecord).
Proof. unfold confirmCase. inv_auto. Qed.

Theorem inv_advancedGuidedCaseCreation conn :
  always (Q Obj) (advancedGuidedCaseCreation conn).
Proof.
  unfold advancedGuidedCaseCreation.
  apply inv_bind; [apply inv_collectCaseRecord | intros ?; apply inv_confirmCase].
Qed.

End FlowInvariant.

Lemma local_not_writes ev : local ev -> ~ writes ev.
Proof. destruct ev; simpl; auto. intros L _. apply L. exact I. Qed.

Lemma local_not_rejected ev : local ev -> ~ rejected ev.
Proof. destruct ev; simpl; auto. intros L _. apply L. exact I. Qed.

(** The guided flow only reads from the organisation. *)
Lemma flow_quiet conn : always quietly (advancedGuidedCaseCreation conn).
Proof.
  apply (inv_advancedGuidedCaseCreation (fun A => @quietly A)); unfold quietly.
  - intros A o ev L. eapply Forall_impl; [|exact L]. apply local_not_writes.
  - intros A c [e | a] i D; simpl; repeat constructor; simpl; congruence.
  - intros A B a o ev1 ev2 H1 H2. apply Forall_app; auto.
  - auto.
  - auto.
  - intros A e e' ev ev' H L. apply Forall_app; split; auto.
    eapply Forall_impl; [|exact L]. apply local_not_writes.
Qed.

(** In the guided flow a rejected call always ends in a thrown error. *)
Lemma flow_loud conn : always loudly (advancedGuidedCaseCreation conn).
Proof.
  apply (inv_advancedGuidedCaseCreation (fun A => @loudly A)); unfold loudly.
  - intros A o ev L. right. eapply Forall_impl; [|exact L]. apply local_not_rejected.
  - intros A c [e | a] i D; simpl; [left; eauto | right; repeat constructor; auto].
  - intros A B a o ev1 ev2 [[e H1] | H1] [H2 | H2]; try discriminate; auto.
    right. apply Forall_app; auto.
  - intros; left; eauto.
  - intros A B ev [[e H] | H]; [discriminate | auto].
  - intros; left; eauto.
Qed.

(* ================================================================= *)
(** ** The DML handler, case by case *)

(** Outside the Case insert both variants issue the one call of the
    [switch] and format its answer. *)
Lemma handler_direct handler conn args h i :
  In handler variants -> isCaseInsert args = false ->
  handler conn args h i = runDirect conn (operation args) (directCall args) h i.
Proof.
  unfold isCaseInsert, directCall, runDirect.
  intros [<- | [<- | []]] C;
    unfold Guided.handleDMLRecords, Guided.performOperation,
           Dedicated.handleDMLRecords, Dedicated.performOperation,
           otherOperations, str_truthy.
  all: destruct (String.eqb (operation args) "insert"); simpl in C;
    [ rewrite C
    | destruct (String.eqb (operation args) "update");
      [| destruct (String.eqb (operation args) "delete");
         [| destruct (String.eqb (operation args) "upsert");
            [ destruct (externalIdField args) as [ext|];
              [destruct (String.eqb ext "")|] |]]]].
  all: unfold bind, fmap, bind, call_dml, settle, throw, ret; simpl;
    repeat match goal with
           | |- context [dml ?c ?h ?x] => destruct (dml c h x); simpl
           end; reflexivity.
Qed.

(** A Case insert in the guided variant: the flow, then the creation of the
    one record it returned. *)
Lemma guided_case_insert conn args h i :
  isCaseInsert args = true ->
  Guided.handleDMLRecords conn args h i =
  let r := advancedGuidedCaseCreation conn h i in
  match outcome r with
  | Returned caseDetails =>
      after r (runDirect conn (operation args)
                 (inr (Create "Case" [caseDetails]))
                 (h ++ emitted r)%list (unread r))
  | Thrown e => {| outcome := Thrown e; emitted := emitted r; unread := unread r |}
  | Pending => {| outcome := Pending; emitted := emitted r; unread := unread r |}
  end.
Proof.
  unfold isCaseInsert. intros C. apply andb_prop in C. destruct C as [C1 C2].
  unfold Guided.handleDMLRecords, Guided.performOperation. rewrite C1, C2.
  apply String.eqb_eq in C2. rewrite C2.
  unfold bind at 1 2, runDirect, call_dml, settle, after. cbv zeta.
  destruct (outcome (advancedGuidedCaseCreation conn h i)) eqn:E; simpl; auto.
  destruct (dml conn _ _); simpl; rewrite ?app_nil_r; reflexivity.
Qed.

(** A Case insert in the other variant: no effect, and the pointer to the
    dedicated tools as an error result. *)
Lemma dedicated_case_insert conn args h i :
  isCaseInsert args = true ->
  Dedicated.handleDMLRecords conn args h i =
  {| outcome := Returned (text_result Dedicated.useCaseTools true);
     emitted := []; unread := i |}.
Proof.
  unfold isCaseInsert. intros C. apply andb_prop in C. destruct C as [C1 C2].
  unfold Dedicated.handleDMLRecords, Dedicated.performOperation. rewrite C1, C2.
  reflexivity.
Qed.


(* ================================================================= *)
(** ** Upsert and its external-id field *)

(** C4.  An upsert whose [externalIdField] is absent or the
    empty string throws the missing-parameter error in both variants, with
    no event at all and the input untouched; an upsert with a non-empty
    [externalIdField] issues the upsert call with it, and nothing else. *)
Theorem C4_upsert_externalIdField :
  forall handler (conn : Conn) (args : DMLArgs) (h : list Event) (i : list string),
    In handler variants ->
    operation args = "upsert" ->
    ((externalIdField args = None \/ externalIdField args = Some "") ->
       handler conn args h i
       = {| outcome := Thrown missingExternalId; emitted := []; unread := i |})
    /\ (forall ext, externalIdField args = Some ext -> ext <> "" ->
          exists rejection,
            emitted (handler conn args h i)
            = [Remote (Upsert (objectName args) (records args) ext) rejection]).
Proof.
  intros handler conn args h i V Op.
  assert (C : isCaseInsert args = false) by (unfold isCaseInsert; now rewrite Op).
  rewrite (handler_direct handler conn args h i V C).
  unfold runDirect, directCall. rewrite Op. simpl. split.
  - intros [-> | ->]; reflexivity.
  - intros ext -> N. apply String.eqb_neq in N. rewrite N.
    destruct (dml conn h _); simpl; eauto.
Qed.

Lemma C4_witness :
  Guided.handleDMLRecords Demo.conn (Demo.upsertAccounts None) [] []
  = {| outcome := Thrown missingExternalId; emitted := []; unread := [] |}
  /\ exists rejection,
       emitted (Dedicated.handleDMLRecords Demo.conn
                  (Demo.upsertAccounts (Some "Ext__c")) [] [])
       = [Remote (Upsert "Account" (records (Demo.upsertAccounts (Some "Ext__c")))
                    "Ext__c") rejection].
Proof.
  split.
  - apply (C4_upsert_externalIdField Guided.handleDMLRecords Demo.conn
             (Demo.upsertAccounts None) [] []).
    + simpl; auto.
    + reflexivity.
    + left; reflexivity.
  - apply (C4_upsert_externalIdField Dedicated.handleDMLRecords Demo.conn
             (Demo.upsertAccounts (Some "Ext__c")) [] []).
    + simpl; auto.
    + reflexivity.
    + reflexivity.
    + discriminate.
Defined.

(** An [externalIdField] that is supplied as the empty string: the upsert
    call is not issued. *)
Lemma C4_counterexample :
  externalIdField (Demo.upsertAccounts (Some "")) = Some ""
  /\ Guided.handleDMLRecords Demo.conn (Demo.upsertAccounts (Some "")) [] []
     = {| outcome := Thrown missingExternalId; emitted := []; unread := [] |}
  /\ Dedicated.handleDMLRecords Demo.conn (Demo.upsertAccounts (Some "")) [] []
     = {| outcome := Thrown missingExternalId; emitted := []; unread := [] |}.
Proof. repeat split. Qed.

(* ================================================================= *)
(** ** Completed batches *)

Lemma directCall_is_dml args c : directCall args = inr c -> is_dml c = true.
Proof.
  unfold directCall.
  repeat match goal with
         | |- context [if ?b then _ else _] => destruct b
         | |- context [match ?x with Some _ => _ | None => _ end] => destruct x
         end; intros H; inversion H; reflexivity.
Qed.

Lemma directCall_submitted args c :
  directCall args = inr c -> submitted c = length (records args).
Proof.
  unfold directCall.
  repeat match goal with
         | |- context [if ?b then _ else _] => destruct b
         | |- context [match ?x with Some _ => _ | None => _ end] => destruct x
         end; intros H; inversion H; simpl; auto using length_map.
Qed.

(** A handler that returned a result that is no error issued a DML call as
    its last event, the call was answered, and the result is the formatted
    answer. *)
Lemma handler_completed handler conn args h i res :
  In handler variants ->
  outcome (handler conn args h i) = Returned res -> isError res = false ->
  exists pre c reply,
    emitted (handler conn args h i) = (pre ++ [Remote c None])%list
    /\ is_dml c = true
    /\ dml conn (h ++ pre)%list c = inr reply
    /\ res = formatResults (operation args) reply
    /\ submitted c = (if isCaseInsert args then 1 else length (records args)).
Proof.
  intros V. destruct (isCaseInsert args) eqn:C.
  - destruct V as [<- | [<- | []]].
    + rewrite guided_case_insert by exact C. cbv zeta.
      destruct (outcome (advancedGuidedCaseCreation conn h i)) as [rec | e |] eqn:E;
        simpl; try discriminate.
      unfold runDirect.
      destruct (dml conn (h ++ emitted (advancedGuidedCaseCreation conn h i))%list
                  (Create "Case" [rec])) as [e | reply] eqn:D; simpl; try discriminate.
      intros H _. injection H as <-.
      exists (emitted (advancedGuidedCaseCreation conn h i)), (Create "Case" [rec]), reply.
      auto.
    + rewrite dedicated_case_insert by exact C. simpl.
      intros H. injection H as <-. discriminate.
  - rewrite (handler_direct handler conn args h i V C). unfold runDirect.
    destruct (directCall args) as [e | c] eqn:DC; simpl; try discriminate.
    destruct (dml conn h c) as [e | reply] eqn:D; simpl; try discriminate.
    intros H _. injection H as <-.
    exists [], c, reply. rewrite app_nil_r.
    repeat split; eauto using directCall_is_dml, directCall_submitted.
Qed.

(** Conversely, a handler whose last event is an answered DML call returned
    the formatted answer. *)
Lemma handler_call_completed handler conn args h i pre c :
  In handler variants ->
  emitted (handler conn args h i) = (pre ++ [Remote c None])%list ->
  is_dml c = true ->
  exists reply,
    dml conn (h ++ pre)%list c = inr reply
    /\ outcome (handler conn args h i) = Returned (formatResults (operation args) reply).
Proof.
  intros V. destruct (isCaseInsert args) eqn:C.
  - destruct V as [<- | [<- | []]].
    + rewrite guided_case_insert by exact C. cbv zeta.
      pose proof (flow_quiet conn h i) as Qt. unfold quietly in Qt.
      destruct (outcome (advancedGuidedCaseCreation conn h i)) as [rec | e |] eqn:E;
        simpl.
      * unfold runDirect.
        destruct (dml conn (h ++ emitted (advancedGuidedCaseCreation conn h i))%list
                    (Create "Case" [rec])) as [e | reply] eqn:D; simpl;
          intros H _; apply app_inj_tail in H; destruct H as [<- H];
          inversion H; subst. eauto.
      * intros H W. rewrite H in Qt. apply Forall_app in Qt.
        destruct Qt as [_ Qt]. inversion Qt; subst. simpl in *. tauto.
      * intros H W. rewrite H in Qt. apply Forall_app in Qt.
        destruct Qt as [_ Qt]. inversion Qt; subst. simpl in *. tauto.
    + rewrite dedicated_case_insert by exact C. simpl.
      intros H. destruct pre; discriminate.
  - rewrite (handler_direct handler conn args h i V C). unfold runDirect.
    destruct (directCall args) as [e | c0] eqn:DC; simpl.
    + intros H. destruct pre; discriminate.
    + destruct (dml conn h c0) as [e | reply] eqn:D; simpl; intros H _;
        apply (app_inj_tail [] pre) in H; destruct H as [<- H];
        inversion H; subst.
      rewrite app_nil_r. eauto.
Qed.

Lemma successCount_le (results : list DMLResult) :
  successCount results <= length results.
Proof. apply filter_length_le. Qed.

Lemma tally_adds_up (results : list DMLResult) :
  successCount results + failureCount results = length results.
Proof. unfold failureCount. pose proof (successCount_le results). lia. Qed.

Lemma textOf_formatResults op reply :
  textOf (formatResults op reply) = responseText op (resultsOf reply).
Proof. unfold textOf, formatResults, text_result. simpl. reflexivity. Qed.

(** C5.  When either variant returns a result that is no error,
    its last event is a DML call that the organisation answered, and the
    report opens with the tally of that answer: the count of successes plus
    the count of failures is the number of results the call returned.  The
    call submitted one record for a Case insert (the guided variant) and the
    caller's records otherwise; so outside the Case insert, and when the
    organisation returns one result per submitted record, the two counts add
    up to [records.length]. *)
Theorem C5_tally_adds_up_to_results :
  forall handler (conn : Conn) (args : DMLArgs) (h : list Event) (i : list string)
         (res : ToolResult),
    In handler variants ->
    outcome (handler conn args h i) = Returned res ->
    isError res = false ->
    exists pre c reply rest,
      emitted (handler conn args h i) = (pre ++ [Remote c None])%list
      /\ dml conn (h ++ pre)%list c = inr reply
      /\ textOf res
         = toUpperCase (operation args) ++ " operation completed." ++ nl ++
           "Processed " ++ show_nat (length (resultsOf reply)) ++ " records:" ++ nl ++
           "- Successful: " ++ show_nat (successCount (resultsOf reply)) ++ nl ++
           "- Failed: " ++ show_nat (failureCount (resultsOf reply)) ++ nl ++ rest
      /\ successCount (resultsOf reply) + failureCount (resultsOf reply)
         = length (resultsOf reply)
      /\ submitted c = (if isCaseInsert args then 1 else length (records args))
      /\ (isCaseInsert args = false ->
          length (resultsOf reply) = submitted c ->
          successCount (resultsOf reply) + failureCount (resultsOf reply)
          = length (records args)).
Proof.
  intros handler conn args h i res V R E.
  destruct (handler_completed handler conn args h i res V R E)
    as (pre & c & reply & Hev & _ & D & -> & S).
  exists pre, c, reply.
  eexists. repeat split; eauto using tally_adds_up.
  - rewrite textOf_formatResults. unfold responseText, tally.
    repeat rewrite append_assoc. reflexivity.
  - intros C L. rewrite C in S. rewrite tally_adds_up. congruence.
Qed.

Lemma C5_witness :
  exists pre c reply rest,
    emitted (Dedicated.handleDMLRecords Demo.mixed Demo.updateTwo [] [])
    = (pre ++ [Remote c None])%list
    /\ dml Demo.mixed ([] ++ pre)%list c = inr reply
    /\ textOf (formatResults "update"
                 (Batch [Demo.done "500X";
                         Demo.failed "Required fields are missing"
                           "REQUIRED_FIELD_MISSING" ["Subject"; "Origin"]]))
       = toUpperCase (operation Demo.updateTwo) ++ " operation completed." ++ nl ++
         "Processed " ++ show_nat (length (resultsOf reply)) ++ " records:" ++ nl ++
         "- Successful: " ++ show_nat (successCount (resultsOf reply)) ++ nl ++
         "- Failed: " ++ show_nat (failureCount (resultsOf reply)) ++ nl ++ rest
    /\ successCount (resultsOf reply) + failureCount (resultsOf reply)
       = length (resultsOf reply)
    /\ submitted c
       = (if isCaseInsert Demo.updateTwo then 1 else length (records Demo.updateTwo))
    /\ (isCaseInsert Demo.updateTwo = false ->
        length (resultsOf reply) = submitted c ->
        successCount (resultsOf reply) + failureCount (resultsOf reply)
        = length (records Demo.updateTwo)).
Proof.
  apply (C5_tally_adds_up_to_results Dedicated.handleDMLRecords Demo.mixed
           Demo.updateTwo [] []).
  - simpl; auto.
  - reflexivity.
  - reflexivity.
Defined.

(** A Case insert with two caller-supplied records in the guided variant,
    answered with one result per submitted record: the tally counts one
    record, not two. *)
Lemma C5_counterexample :
  outcome (Guided.handleDMLRecords Demo.conn (Demo.insertCase [[]; []]) []
             (Demo.answers "y"))
  = Returned (formatResults "insert" (Batch [Demo.done "500X"]))
  /\ successCount [Demo.done "500X"] + failureCount [Demo.done "500X"] = 1
  /\ length (records (Demo.insertCase [[]; []])) = 2.
Proof. vm_compute. repeat split. Qed.

(* ================================================================= *)
(** ** The report of a batch *)

Lemma contains_refl s : contains s s.
Proof. exists "", "". now rewrite append_nil_r. Qed.

Lemma contains_left p a b : contains p a -> contains p (a ++ b).
Proof.
  intros (x & y & ->). exists x, (y ++ b). now rewrite !append_assoc.
Qed.

Lemma contains_right p a b : contains p b -> contains p (a ++ b).
Proof.
  intros (x & y & ->). exists (a ++ x), y. now rewrite !append_assoc.
Qed.


Lemma forEachIdx_contains {A} (f : A -> nat -> string) xs :
  forall k j x, nth_error xs j = Some x ->
                contains (f x (k + j)) (forEachIdx f k xs).
Proof.
  induction xs as [|y xs IH]; intros k j x H.
  - destruct j; discriminate.
  - destruct j as [|j]; simpl in *.
    + injection H as ->. rewrite Nat.add_0_r. apply contains_left, contains_refl.
    + apply contains_right. replace (k + S j) with (S k + j) by lia. now apply IH.
Qed.








(** The report of that batch, in full. *)
Example mixed_batch_report :
  Guided.handleDMLRecords Demo.mixed Demo.updateTwo [] []
  = {| outcome :=
         Returned (text_result
           ("UPDATE operation completed." ++ nl ++
            "Processed 2 records:" ++ nl ++
            "- Successful: 1" ++ nl ++
            "- Failed: 1" ++ nl ++ nl ++
            "Successful Records:" ++ nl ++
            "Record 1 - ID: 500X" ++ nl ++ nl ++
            "Errors:" ++ nl ++
            "Record 2:" ++ nl ++
            "  - Required fields are missing [REQUIRED_FIELD_MISSING]" ++ nl ++
            "    Fields: Subject, Origin" ++ nl) false);
       emitted := [Remote (Update "Account" (records Demo.updateTwo)) None];
       unread := [] |}.
Proof. reflexivity. Qed.

(* ================================================================= *)
(** ** Inserting a Case *)

Lemma isCaseInsert_true args :
  operation args = "insert" -> objectName args = "Case" -> isCaseInsert args = true.
Proof. unfold isCaseInsert. intros -> ->. reflexivity. Qed.

Lemma isCaseInsert_false args :
  objectName args <> "Case" -> isCaseInsert args = false.
Proof.
  unfold isCaseInsert. intros N. apply String.eqb_neq in N. rewrite N.
  apply andb_false_r.
Qed.

(** C1.  For an insert on [Case]: the variant of
    [tools/caseCreation.ts] runs the guided flow, which writes nothing, and,
    when the flow returns a record, issues one further call, the creation of
    that single record (when the flow aborts or waits for input, it issues no
    further call and returns nothing); the caller's records play no part.
    The other variant issues no call and asks for no input: it returns an
    error result that points to the dedicated case tools.  For an insert on
    any other object both variants issue exactly one call, the creation of
    the caller's records. *)
Theorem C1_case_insert :
  forall (conn : Conn) (args : DMLArgs) (h : list Event) (i : list string),
    operation args = "insert" ->
    (objectName args = "Case" ->
       Forall (fun e => ~ writes e) (emitted (advancedGuidedCaseCreation conn h i))
       /\ match outcome (advancedGuidedCaseCreation conn h i) with
          | Returned caseDetails =>
              exists rejection,
                emitted (Guided.handleDMLRecords conn args h i)
                = (emitted (advancedGuidedCaseCreation conn h i)
                   ++ [Remote (Create "Case" [caseDetails]) rejection])%list
          | _ =>
              emitted (Guided.handleDMLRecords conn args h i)
              = emitted (advancedGuidedCaseCreation conn h i)
              /\ forall res,
                   outcome (Guided.handleDMLRecords conn args h i) <> Returned res
          end
       /\ Dedicated.handleDMLRecords conn args h i
          = {| outcome := Returned (text_result Dedicated.useCaseTools true);
               emitted := []; unread := i |})
    /\ (objectName args <> "Case" ->
        forall handler, In handler variants ->
          exists rejection,
            emitted (handler conn args h i)
            = [Remote (Create (objectName args) (records args)) rejection]).
Proof.
  intros conn args h i Op. split.
  - intros Ob. pose proof (isCaseInsert_true args Op Ob) as C.
    split; [apply flow_quiet|]. split; [| now apply dedicated_case_insert].
    rewrite guided_case_insert by exact C. cbv zeta.
    destruct (outcome (advancedGuidedCaseCreation conn h i)); simpl;
      try (split; [reflexivity | discriminate]).
    unfold runDirect. destruct (dml conn _ _); simpl; eauto.
  - intros Ob handler V.
    rewrite (handler_direct handler conn args h i V (isCaseInsert_false args Ob)).
    unfold runDirect, directCall. rewrite Op. simpl.
    destruct (dml conn h _); simpl; eauto.
Qed.

Lemma C1_witness :
  Forall (fun e => ~ writes e)
    (emitted (advancedGuidedCaseCreation Demo.conn [] (Demo.answers "y")))
  /\ match outcome (advancedGuidedCaseCreation Demo.conn [] (Demo.answers "y")) with
     | Returned caseDetails =>
         exists rejection,
           emitted (Guided.handleDMLRecords Demo.conn (Demo.insertCase [[]]) []
                      (Demo.answers "y"))
           = (emitted (advancedGuidedCaseCreation Demo.conn [] (Demo.answers "y"))
              ++ [Remote (Create "Case" [caseDetails]) rejection])%list
     | _ =>
         emitted (Guided.handleDMLRecords Demo.conn (Demo.insertCase [[]]) []
                    (Demo.answers "y"))
         = emitted (advancedGuidedCaseCreation Demo.conn [] (Demo.answers "y"))
         /\ forall res,
              outcome (Guided.handleDMLRecords Demo.conn (Demo.insertCase [[]]) []
                         (Demo.answers "y")) <> Returned res
     end
  /\ Dedicated.handleDMLRecords Demo.conn (Demo.insertCase [[]]) [] (Demo.answers "y")
     = {| outcome := Returned (text_result Dedicated.useCaseTools true);
          emitted := []; unread := Demo.answers "y" |}.
Proof.
  apply (C1_case_insert Demo.conn (Demo.insertCase [[]]) [] (Demo.answers "y")).
  - reflexivity.
  - reflexivity.
Defined.

(** The second variant on an input that takes the guided flow to a record:
    it asks nothing, calls nothing and creates nothing. *)
Lemma C1_counterexample :
  (exists caseDetails,
     outcome (advancedGuidedCaseCreation Demo.conn [] (Demo.answers "y"))
     = Returned caseDetails)
  /\ Dedicated.handleDMLRecords Demo.conn (Demo.insertCase [[]]) [] (Demo.answers "y")
     = {| outcome := Returned (text_result Dedicated.useCaseTools true);
          emitted := []; unread := Demo.answers "y" |}.
Proof. split; [eexists; vm_compute; reflexivity | reflexivity]. Qed.

(* ================================================================= *)
(** ** The confirmation *)

(** A confirmation that returns read an affirmative answer last. *)
Lemma confirmCase_returns caseDescribe caseRecord h i x :
  outcome (confirmCase caseDescribe caseRecord h i) = Returned x ->
  exists before chunk,
    emitted (confirmCase caseDescribe caseRecord h i)
    = (before ++ [Log confirmPrompt; Write "> "; Read chunk])%list
    /\ toLowerCase (trim chunk) = "y" /\ x = caseRecord
    /\ Forall local before.
Proof.
  unfold confirmCase, bind; simpl.
  match goal with
  | |- context [logSummary ?a ?b ?c ?d] =>
      destruct (logSummary_runs a b c d) as [Ho Hu];
      pose proof (logSummary_local a b c d) as Hl
  end.
  rewrite Ho; simpl. rewrite Hu.
  destruct i as [|chunk rest]; simpl; [discriminate|].
  destruct (String.eqb (toLowerCase (trim chunk)) "y") eqn:Y; simpl; [|discriminate].
  intros H. injection H as <-.
  exists (Log (nl ++ "Case Details Summary:")
          :: emitted (logSummary caseDescribe caseRecord
                        (h ++ [Log (nl ++ "Case Details Summary:")])%list
                        (chunk :: rest)))%list, chunk.
  split; [| split; [now apply String.eqb_eq | split; [reflexivity|]]].
  - reflexivity.
  - constructor; [intros [] | exact Hl].
Qed.

Lemma flow_returns conn h i x :
  outcome (advancedGuidedCaseCreation conn h i) = Returned x ->
  exists before chunk,
    emitted (advancedGuidedCaseCreation conn h i)
    = (before ++ [Log confirmPrompt; Write "> "; Read chunk])%list
    /\ toLowerCase (trim chunk) = "y"
    /\ Forall (fun e => ~ writes e) before.
Proof.
  intros R. pose proof (flow_quiet conn h i) as Qt. unfold quietly in Qt.
  revert R Qt. unfold advancedGuidedCaseCreation, bind.
  destruct (outcome (collectCaseRecord conn h i)) as [[cd rec] | e |];
    cbn [outcome emitted unread after fst snd]; try discriminate.
  intros R Qt.
  destruct (confirmCase_returns _ _ _ _ _ R) as (before & chunk & E & Y & _ & _).
  rewrite E in *. rewrite app_assoc in Qt. apply Forall_app in Qt.
  exists (emitted (collectCaseRecord conn h i) ++ before)%list, chunk.
  rewrite app_assoc. tauto.
Qed.

(** C6.  In the guided variant, for an insert on [Case]: when the record
    has been collected and the answer to the confirmation, trimmed and
    lower-cased, is not ["y"], the flow and the handler throw the
    cancellation and no call that writes is among the events; and whenever a
    call that writes is among the events of the handler, it is the creation
    of the record the flow returned, it comes last, right after the
    confirmation prompt was answered affirmatively, and nothing before it
    wrote. *)
Theorem C6_create_only_after_confirmation :
  forall (conn : Conn) (args : DMLArgs) (h : list Event) (i : list string),
    operation args = "insert" ->
    objectName args = "Case" ->
    (forall caseDescribe caseRecord chunk rest,
       outcome (collectCaseRecord conn h i) = Returned (caseDescribe, caseRecord) ->
       unread (collectCaseRecord conn h i) = chunk :: rest ->
       toLowerCase (trim chunk) <> "y" ->
       outcome (advancedGuidedCaseCreation conn h i) = Thrown canceled
       /\ outcome (Guided.handleDMLRecords conn args h i) = Thrown canceled
       /\ Forall (fun e => ~ writes e) (emitted (Guided.handleDMLRecords conn args h i)))
    /\ (forall c rejection,
          In (Remote c rejection) (emitted (Guided.handleDMLRecords conn args h i)) ->
          is_dml c = true ->
          exists before chunk caseDetails,
            emitted (Guided.handleDMLRecords conn args h i)
            = (before ++ [Log confirmPrompt; Write "> "; Read chunk]
               ++ [Remote c rejection])%list
            /\ toLowerCase (trim chunk) = "y"
            /\ outcome (advancedGuidedCaseCreation conn h i) = Returned caseDetails
            /\ c = Create "Case" [caseDetails]
            /\ Forall (fun e => ~ writes e) before).
Proof.
  intros conn args h i Op Ob.
  pose proof (isCaseInsert_true args Op Ob) as C.
  pose proof (flow_quiet conn h i) as Qt. unfold quietly in Qt.
  rewrite guided_case_insert by exact C. cbv zeta. split.
  - intros cd rec chunk rest R U N.
    assert (F : outcome (advancedGuidedCaseCreation conn h i) = Thrown canceled).
    { unfold advancedGuidedCaseCreation, bind. rewrite R.
      cbn [outcome emitted unread after fst snd]. rewrite U.
      rewrite confirmCase_outcome. apply String.eqb_neq in N. now rewrite N. }
    rewrite F. simpl. auto.
  - intros c rejection I W.
    destruct (outcome (advancedGuidedCaseCreation conn h i)) as [rec | e |] eqn:R;
      simpl in I.
    + destruct (flow_returns conn h i rec R) as (before & chunk & E & Y & B).
      apply in_app_or in I. destruct I as [I | I].
      { exfalso. rewrite Forall_forall in Qt. apply (Qt _ I). exact W. }
      unfold runDirect in *.
      destruct (dml conn _ (Create "Case" [rec])) as [e | reply]; simpl in *;
        destruct I as [I | []]; inversion I; subst;
        exists before, chunk, rec; rewrite E, <- app_assoc; auto.
    + exfalso. rewrite Forall_forall in Qt. apply (Qt _ I). exact W.
    + exfalso. rewrite Forall_forall in Qt. apply (Qt _ I). exact W.
Qed.

Lemma C6_witness :
  outcome (advancedGuidedCaseCreation Demo.conn [] (Demo.answers "n")) = Thrown canceled
  /\ outcome (Guided.handleDMLRecords Demo.conn (Demo.insertCase [[]]) []
                (Demo.answers "n")) = Thrown canceled
  /\ Forall (fun e => ~ writes e)
       (emitted (Guided.handleDMLRecords Demo.conn (Demo.insertCase [[]]) []
                   (Demo.answers "n"))).
Proof.
  eapply (proj1 (C6_create_only_after_confirmation Demo.conn (Demo.insertCase [[]])
                   [] (Demo.answers "n") eq_refl eq_refl)).
  - vm_compute. reflexivity.
  - vm_compute. reflexivity.
  - vm_compute. discriminate.
Defined.

(* ================================================================= *)
(** ** What the collected record holds *)

Lemma post_ret {A} (a : A) (P : A -> Prop) : P a -> post (ret a) P.
Proof. intros H h i x E. injection E as <-. exact H. Qed.

Lemma post_throw {A} e (P : A -> Prop) : post (throw e) P.
Proof. intros h i x E. discriminate. Qed.

Lemma post_bind {A B} (m : M A) (f : A -> M B) (P : A -> Prop) (Q : B -> Prop) :
  post m P -> (forall a, P a -> post (f a) Q) -> post (bind m f) Q.
Proof.
  intros Hm Hf h i b E. apply bind_returns in E. destruct E as (a & Ea & Eb).
  eapply Hf; eauto.
Qed.

Lemma post_bind_any {A B} (m : M A) (f : A -> M B) (Q : B -> Prop) :
  (forall a, post (f a) Q) -> post (bind m f) Q.
Proof. intros Hf. apply post_bind with (P := fun _ => True); [easy | auto]. Qed.

Lemma post_try_catch {A} (m : M A) handler (P : A -> Prop) :
  post m P -> (forall e, post (handler e) P) -> post (try_catch m handler) P.
Proof.
  intros Hm Hh h i a. unfold try_catch.
  destruct (outcome (m h i)) eqn:E; simpl; intros R.
  - rewrite E in R. eapply Hm; eauto. rewrite E. exact R.
  - eapply Hh; eauto.
  - rewrite E in R. discriminate.
Qed.

Lemma post_weaken {A} (m : M A) (P Q : A -> Prop) :
  post m P -> (forall a, P a -> Q a) -> post m Q.
Proof. intros Hm PQ h i a E. eauto. Qed.









Ltac post_auto :=
  repeat first
    [ apply post_ret | apply post_throw
    | apply post_bind_any; intros ?
    | apply post_try_catch; [| intros ?]
    | match goal with
      | |- post (if ?b then _ else _) _ => destruct b
      | |- post (match ?x with _ => _ end) _ => destruct x
      | |- post (fmap _ _) _ => unfold fmap
      end ].










(* ================================================================= *)
(** ** Selection by number *)

Lemma Invalid_check answer n :
  Invalid answer n ->
  invalid_selection (parseInt answer) n = true
  /\ valid_selection (parseInt answer) n = false.
Proof.
  intros [-> | (z & -> & R)]; simpl; auto.
  split.
  - apply orb_true_iff. destruct R; [left | right]; now apply Z.ltb_lt.
  - apply andb_false_iff. destruct R; [left | right]; apply Z.leb_gt; lia.
Qed.

Lemma Picks_check {A} answer (xs : list A) x :
  Picks answer xs x ->
  invalid_selection (parseInt answer) (length xs) = false
  /\ valid_selection (parseInt answer) (length xs) = true
  /\ chosen xs (parseInt answer) = Some x.
Proof.
  intros (z & -> & R & N). simpl. repeat split.
  - apply orb_false_iff. split; apply Z.ltb_ge; lia.
  - apply andb_true_iff. split; apply Z.leb_le; lia.
  - unfold element. replace (z - 1 <? 0)%Z with false; auto.
    symmetry. apply Z.ltb_ge. lia.
Qed.

(** A number of the list always picks an item. *)
Lemma in_range_picks {A} answer (xs : list A) z :
  parseInt answer = Some z -> (1 <= z <= Z.of_nat (length xs))%Z ->
  exists x, Picks answer xs x.
Proof.
  intros P R.
  destruct (nth_error xs (Z.to_nat (z - 1))) as [x|] eqn:N.
  - exists x, z. auto.
  - apply nth_error_None in N. lia.
Qed.

(** A string that trims to nothing is white space from its start. *)
Lemma trim_blank s : trim s = "" -> ltrim s = "".
Proof.
  unfold trim. pose proof (ltrim_no_lead s) as L.
  destruct (ltrim s) as [|d t]; auto.
  simpl in L. rewrite rtrim_cons, L, andb_false_r. discriminate.
Qed.

Lemma Picks_not_blank {A} answer (xs : list A) x :
  Picks answer xs x -> String.eqb (trim answer) "" = false.
Proof.
  intros (z & P & _). apply String.eqb_neq. intros E.
  apply trim_blank in E. unfold parseInt in P. rewrite E in P. discriminate.
Qed.

Ltac run_step :=
  cbn [bind fmap promptUser ret throw emit try_catch after settle
       outcome emitted unread call_find undefined_read].

Lemma askPicklist_selects field values caseRecord h chunk rest :
  (Invalid (trim chunk) (length values) ->
   outcome (askPicklist field values caseRecord h (chunk :: rest))
   = Thrown (JsError ("Invalid " ++ f_label field
                      ++ " selection. Please enter a valid number from the list.")))
  /\ (forall item, Picks (trim chunk) values item ->
        outcome (askPicklist field values caseRecord h (chunk :: rest))
        = Returned (Object.set caseRecord (f_name field) (VStr (pv_value item)))).
Proof.
  unfold askPicklist. run_step. split.
  - intros I. destruct (Invalid_check _ _ I) as [-> _]. reflexivity.
  - intros item P. destruct (Picks_check _ _ _ P) as (-> & _ & ->). reflexivity.
Qed.

Lemma askCommonPicklist_selects key message caseDescribe caseRecord field values
      h chunk rest :
  truthy_at caseRecord key = false ->
  List.find (fun f => String.eqb (f_name f) key) caseDescribe = Some field ->
  f_picklistValues field = Some values ->
  values <> [] ->
  (Invalid (trim chunk) (length values) ->
   outcome (askCommonPicklist key message caseDescribe caseRecord h (chunk :: rest))
   = Returned caseRecord)
  /\ (forall item, Picks (trim chunk) values item ->
        outcome (askCommonPicklist key message caseDescribe caseRecord h (chunk :: rest))
        = Returned (Object.set caseRecord key (VStr (pv_value item)))).
Proof.
  intros T F V N. unfold askCommonPicklist. rewrite T, F, V.
  assert (L : (0 <? length values)%nat = true)
    by (destruct values; [congruence | reflexivity]).
  rewrite L. cbn [negb]. run_step. split.
  - intros I. destruct (Invalid_check _ _ I) as [_ ->]. reflexivity.
  - intros item P. destruct (Picks_check _ _ _ P) as (_ & -> & ->). reflexivity.
Qed.

Lemma selectContact_selects conn account caseRecord contacts h chunk rest :
  find conn h "Contact" (FieldIs "AccountId" (Id account)) ["Id"; "Name"] = inr contacts ->
  contacts <> [] ->
  (Invalid (trim chunk) (length contacts) ->
   outcome (selectContact conn account caseRecord h (chunk :: rest))
   = Returned caseRecord)
  /\ (forall contact, Picks (trim chunk) contacts contact ->
        outcome (selectContact conn account caseRecord h (chunk :: rest))
        = Returned (Object.set caseRecord "ContactId" (VStr (Id contact)))).
Proof.
  intros F N. unfold selectContact, bind, call_find, settle. rewrite F. run_step.
  assert (L : (0 <? length contacts)%nat = true)
    by (destruct contacts; [congruence | reflexivity]).
  rewrite L. run_step. split.
  - intros I. destruct (Invalid_check _ _ I) as [_ ->].
    destruct (negb _); reflexivity.
  - intros contact P. rewrite (Picks_not_blank _ _ _ P).
    destruct (Picks_check _ _ _ P) as (_ & -> & ->). reflexivity.
Qed.

Lemma selectAccount_selects conn accounts h chunk1 chunk2 rest :
  find conn
    (h ++ [Log "Enter a search string to filter accounts:"; Write "> "; Read chunk1])%list
    "Account" (NameLike ("%" ++ trim chunk1 ++ "%")) ["Id"; "Name"] = inr accounts ->
  2 <= length accounts ->
  (Invalid (trim chunk2) (length accounts) ->
   outcome (selectAccount conn h (chunk1 :: chunk2 :: rest))
   = Thrown (JsError "Invalid account selection. Please enter a valid number from the list."))
  /\ (forall account, Picks (trim chunk2) accounts account ->
        outcome (selectAccount conn h (chunk1 :: chunk2 :: rest))
        = Returned account).
Proof.
  intros F N.
  unfold selectAccount, bind, call_find, settle. run_step. rewrite F. run_step.
  destruct accounts as [|a1 [|a2 more]]; simpl in N; try lia.
  run_step. split.
  - intros I. destruct (Invalid_check _ _ I) as [-> _]. reflexivity.
  - intros account P. destruct (Picks_check _ _ _ P) as (-> & _ & ->). reflexivity.
Qed.

Lemma askReference_selects conn field objectName caseRecord records h chunk1 chunk2 rest :
  find conn
    (h ++ [Log ("Enter a search string to find " ++ f_label field ++ ":");
           Write "> "; Read chunk1])%list
    objectName (NameLike ("%" ++ trim chunk1 ++ "%")) ["Id"; "Name"] = inr records ->
  2 <= length records ->
  (Invalid (trim chunk2) (length records) ->
   outcome (askReference conn field objectName caseRecord h (chunk1 :: chunk2 :: rest))
   = Thrown (JsError ("Unable to find " ++ f_label field ++ " records. Please try again.")))
  /\ (forall record, Picks (trim chunk2) records record ->
        outcome (askReference conn field objectName caseRecord h (chunk1 :: chunk2 :: rest))
        = Returned (Object.set caseRecord (f_name field) (VStr (Id record)))).
Proof.
  intros F N.
  unfold askReference, try_catch, bind, call_find, settle. run_step. rewrite F. run_step.
  destruct records as [|r1 [|r2 more]]; simpl in N; try lia.
  run_step. split.
  - intros I. destruct (Invalid_check _ _ I) as [-> _]. reflexivity.
  - intros record P. destruct (Picks_check _ _ _ P) as (-> & _ & ->). reflexivity.
Qed.

(** An invalid account selection aborts the whole flow. *)
Lemma invalid_account_aborts conn fields accounts h chunk1 chunk2 rest :
  describe conn h "Case" = inr fields ->
  find conn
    ((h ++ [Remote (Describe "Case") None])
     ++ [Log "Enter a search string to filter accounts:"; Write "> "; Read chunk1])%list
    "Account" (NameLike ("%" ++ trim chunk1 ++ "%")) ["Id"; "Name"] = inr accounts ->
  2 <= length accounts ->
  Invalid (trim chunk2) (length accounts) ->
  outcome (advancedGuidedCaseCreation conn h (chunk1 :: chunk2 :: rest))
  = Thrown (JsError "Invalid account selection. Please enter a valid number from the list.").
Proof.
  intros D F N I.
  pose proof (proj1 (selectAccount_selects conn accounts _ chunk1 chunk2 rest F N) I) as S.
  unfold advancedGuidedCaseCreation, collectCaseRecord.
  unfold bind at 1 2. unfold call_describe, settle. rewrite D.
  cbn [outcome emitted unread after].
  unfold bind at 1. rewrite S. reflexivity.
Qed.

(** C2.  A number of the list always picks the item at that
    place.  With two or more matches, the account step and the sub-flow of a
    required lookup abort on an answer in which [parseInt] finds no number or
    one outside the list, the first with the invalid-selection error and the
    second with its own error, and return the picked record otherwise; the
    sub-flow of a required picklist aborts with the invalid-selection error
    or sets the picked value.  The contact step and the Origin, Status and
    Priority steps do not abort on such an answer: they leave the record as
    it is; on a number of the list they set the picked contact or value.
    An abort of the account step is an abort of the whole flow. *)
Theorem C2_selection_steps :
  (forall A (answer : string) (xs : list A) (z : Z),
     parseInt answer = Some z -> (1 <= z <= Z.of_nat (length xs))%Z ->
     exists x, Picks answer xs x)
  /\ (forall conn accounts h chunk1 chunk2 rest,
        find conn
          (h ++ [Log "Enter a search string to filter accounts:"; Write "> ";
                 Read chunk1])%list
          "Account" (NameLike ("%" ++ trim chunk1 ++ "%")) ["Id"; "Name"]
        = inr accounts ->
        2 <= length accounts ->
        (Invalid (trim chunk2) (length accounts) ->
         outcome (selectAccount conn h (chunk1 :: chunk2 :: rest))
         = Thrown (JsError "Invalid account selection. Please enter a valid number from the list."))
        /\ (forall account, Picks (trim chunk2) accounts account ->
              outcome (selectAccount conn h (chunk1 :: chunk2 :: rest))
              = Returned account))
  /\ (forall field values caseRecord h chunk rest,
        (Invalid (trim chunk) (length values) ->
         outcome (askPicklist field values caseRecord h (chunk :: rest))
         = Thrown (JsError ("Invalid " ++ f_label field
                            ++ " selection. Please enter a valid number from the list.")))
        /\ (forall item, Picks (trim chunk) values item ->
              outcome (askPicklist field values caseRecord h (chunk :: rest))
              = Returned (Object.set caseRecord (f_name field) (VStr (pv_value item)))))
  /\ (forall conn field objectName caseRecord records h chunk1 chunk2 rest,
        find conn
          (h ++ [Log ("Enter a search string to find " ++ f_label field ++ ":");
                 Write "> "; Read chunk1])%list
          objectName (NameLike ("%" ++ trim chunk1 ++ "%")) ["Id"; "Name"]
        = inr records ->
        2 <= length records ->
        (Invalid (trim chunk2) (length records) ->
         outcome (askReference conn field objectName caseRecord h
                    (chunk1 :: chunk2 :: rest))
         = Thrown (JsError ("Unable to find " ++ f_label field
                            ++ " records. Please try again.")))
        /\ (forall record, Picks (trim chunk2) records record ->
              outcome (askReference conn field objectName caseRecord h
                         (chunk1 :: chunk2 :: rest))
              = Returned (Object.set caseRecord (f_name field) (VStr (Id record)))))
  /\ (forall conn account caseRecord contacts h chunk rest,
        find conn h "Contact" (FieldIs "AccountId" (Id account)) ["Id"; "Name"]
        = inr contacts ->
        contacts <> [] ->
        (Invalid (trim chunk) (length contacts) ->
         outcome (selectContact conn account caseRecord h (chunk :: rest))
         = Returned caseRecord)
        /\ (forall contact, Picks (trim chunk) contacts contact ->
              outcome (selectContact conn account caseRecord h (chunk :: rest))
              = Returned (Object.set caseRecord "ContactId" (VStr (Id contact)))))
  /\ (forall key message caseDescribe caseRecord field values h chunk rest,
        truthy_at caseRecord key = false ->
        List.find (fun f => String.eqb (f_name f) key) caseDescribe = Some field ->
        f_picklistValues field = Some values ->
        values <> [] ->
        (Invalid (trim chunk) (length values) ->
         outcome (askCommonPicklist key message caseDescribe caseRecord h (chunk :: rest))
         = Returned caseRecord)
        /\ (forall item, Picks (trim chunk) values item ->
              outcome (askCommonPicklist key message caseDescribe caseRecord h
                         (chunk :: rest))
              = Returned (Object.set caseRecord key (VStr (pv_value item)))))
  /\ (forall conn fields accounts h chunk1 chunk2 rest,
        describe conn h "Case" = inr fields ->
        find conn
          ((h ++ [Remote (Describe "Case") None])
           ++ [Log "Enter a search string to filter accounts:"; Write "> ";
               Read chunk1])%list
          "Account" (NameLike ("%" ++ trim chunk1 ++ "%")) ["Id"; "Name"]
        = inr accounts ->
        2 <= length accounts ->
        Invalid (trim chunk2) (length accounts) ->
        outcome (advancedGuidedCaseCreation conn h (chunk1 :: chunk2 :: rest))
        = Thrown (JsError "Invalid account selection. Please enter a valid number from the list.")).
Proof.
  split; [intros; eapply in_range_picks; eauto|].
  split; [intros; now apply selectAccount_selects|].
  split; [intros; apply askPicklist_selects|].
  split; [intros; now apply askReference_selects|].
  split; [intros; now apply selectContact_selects|].
  split; [intros; eapply askCommonPicklist_selects; eauto|].
  intros. eapply invalid_account_aborts; eauto.
Qed.

Lemma C2_witness :
  outcome (selectAccount Demo.conn [] ["Acme"; "3"])
  = Thrown (JsError "Invalid account selection. Please enter a valid number from the list.")
  /\ outcome (selectAccount Demo.conn [] ["Acme"; "2"]) = Returned Demo.acmeIndustries
  /\ outcome (selectContact Demo.conn Demo.acmeCorp [] [] ["7"]) = Returned [].
Proof.
  destruct C2_selection_steps as (_ & A & _ & _ & C & _ & _).
  split; [| split].
  - apply (proj1 (A Demo.conn [Demo.acmeCorp; Demo.acmeIndustries] [] "Acme" "3" []
                    eq_refl (le_n 2))).
    right. exists 3%Z. split; [reflexivity | right; reflexivity].
  - apply (proj2 (A Demo.conn [Demo.acmeCorp; Demo.acmeIndustries] [] "Acme" "2" []
                    eq_refl (le_n 2))).
    exists 2%Z. split; [reflexivity | split; [split; discriminate | reflexivity]].
  - apply (proj1 (C Demo.conn Demo.acmeCorp [] [Demo.ann; Demo.bob] [] "7" [] eq_refl
                    ltac:(discriminate))).
    right. exists 7%Z. split; [reflexivity | right; reflexivity].
Defined.

(** A guided flow in which the contact is answered with 7 out of two and
    the origin with 0: neither aborts, the flow goes on to the confirmation
    and returns a record with no contact and no origin.  And an account
    answer that is not a number, but starts with one, selects. *)
Lemma C2_counterexample :
  outcome (advancedGuidedCaseCreation Demo.conn []
             ["Acme"; "2"; "7"; "joe@acme.test"; "Joe"; "Printer on fire"; "";
              "0"; "1"; "1"; "y"])
  = Returned [("AccountId", VStr "001B"); ("SuppliedEmail", VStr "joe@acme.test");
              ("SuppliedName", VStr "Joe"); ("Subject", VStr "Printer on fire");
              ("Status", VStr "New"); ("Priority", VStr "High")]
  /\ outcome (selectAccount Demo.conn [] ["Acme"; "2abc"])
     = Returned Demo.acmeIndustries.
Proof. vm_compute. split; reflexivity. Qed.

(** The sub-flows of the required fields abort the flow on a number that is
    not of the list: a required picklist with the invalid-selection error, a
    required lookup with its own error. *)
Example required_picklist_aborts :
  outcome (advancedGuidedCaseCreation
             (Demo.org Demo.caseFieldsMore (fun c => inr (Demo.onePerRecord c))) []
             ["Acme"; "2"; "1"; "Printer on fire"; ""; "2"; "1"; "1"; "5"])
  = Thrown (JsError "Invalid Reason__c selection. Please enter a valid number from the list.").
Proof. vm_compute. reflexivity. Qed.

Example required_lookup_aborts :
  outcome (advancedGuidedCaseCreation
             (Demo.org Demo.caseFieldsMore (fun c => inr (Demo.onePerRecord c))) []
             ["Acme"; "2"; "1"; "Printer on fire"; ""; "2"; "1"; "1"; "1"; "Widget"; "9"])
  = Thrown (JsError "Unable to find Product__c records. Please try again.").
Proof. vm_compute. reflexivity. Qed.

Example required_fields_filled :
  outcome (advancedGuidedCaseCreation
             (Demo.org Demo.caseFieldsMore (fun c => inr (Demo.onePerRecord c))) []
             ["Acme"; "2"; "1"; "Printer on fire"; ""; "2"; "1"; "1"; "1"; "Widget"; "2";
              "Y"])
  = Returned [("AccountId", VStr "001B"); ("ContactId", VStr "003A");
              ("Subject", VStr "Printer on fire"); ("Origin", VStr "Web");
              ("Status", VStr "New"); ("Priority", VStr "High");
              ("Reason__c", VStr "Breakdown"); ("Product__c", VStr "001B")].
Proof. vm_compute. reflexivity. Qed.

(* ================================================================= *)
(** ** Rejected calls *)

Ltac catches_done :=
  eexists; split;
  [ reflexivity
  | intros ? ? I; simpl in I;
    repeat match goal with
           | H : _ \/ _ |- _ => destruct H
           | H : False |- _ => destruct H
           | H : Remote _ _ = Remote _ _ |- _ => inversion H; clear H; subst
           end; reflexivity ].

Lemma handleGetCaseMetadata_catches conn :
  catches "Error getting case metadata: " (handleGetCaseMetadata conn).
Proof.
  intros h i. unfold handleGetCaseMetadata, try_catch, bind, call_describe, settle.
  destruct (describe conn h "Case"); simpl; catches_done.
Qed.

Lemma handleSearchAccounts_catches conn searchTerm :
  catches "Error searching accounts: " (handleSearchAccounts conn searchTerm).
Proof.
  intros h i. unfold handleSearchAccounts, try_catch, bind, call_find, settle.
  destruct (find conn h _ _ _) as [e | accounts]; simpl; [catches_done|].
  destruct (length accounts =? 0)%nat; simpl; catches_done.
Qed.

Lemma handleSearchContacts_catches conn accountId :
  catches "Error searching contacts: " (handleSearchContacts conn accountId).
Proof.
  intros h i.
  unfold handleSearchContacts, try_catch, bind, call_find, call_retrieve, settle.
  destruct (retrieve conn h _ _) as [e | account]; simpl; [catches_done|].
  destruct (find conn _ _ _ _) as [e | contacts]; simpl; [catches_done|].
  destruct (length contacts =? 0)%nat; simpl; catches_done.
Qed.

Lemma handleCreateCase_catches env conn args :
  catches "Error creating case: " (handleCreateCase env conn args).
Proof.
  intros h i. unfold handleCreateCase, try_catch, bind, call_dml, settle.
  destruct (dml conn h _) as [e | [rs | r]]; simpl; try catches_done.
  destruct (success r); simpl; [catches_done|].
  destruct (errors r) as [[es | e] |]; simpl; catches_done.
Qed.

Lemma handleGetPicklistValues_catches conn fieldName :
  catches "Error getting picklist values: " (handleGetPicklistValues conn fieldName).
Proof.
  intros h i.
  unfold handleGetPicklistValues, try_catch, bind, call_describe, settle, undefined_read.
  destruct (describe conn h "Case") as [e | caseDescribe]; simpl; [catches_done|].
  destruct (List.find _ caseDescribe) as [field|]; simpl; [|catches_done].
  destruct (negb _); simpl; [catches_done|].
  destruct (f_picklistValues field); simpl; catches_done.
Qed.

(** Neither variant of the DML handler catches: a rejected call ends the
    run with a thrown error. *)
Lemma handleDMLRecords_propagates handler conn args h i c e :
  In handler variants ->
  In (Remote c (Some e)) (emitted (handler conn args h i)) ->
  (exists x, outcome (handler conn args h i) = Thrown x)
  /\ (is_dml c = true -> outcome (handler conn args h i) = Thrown e).
Proof.
  intros V. destruct (isCaseInsert args) eqn:C.
  - destruct V as [<- | [<- | []]].
    + rewrite guided_case_insert by exact C. cbv zeta.
      pose proof (flow_loud conn h i) as L. pose proof (flow_quiet conn h i) as Qt.
      unfold loudly, quietly in *. rewrite Forall_forall in Qt.
      destruct (outcome (advancedGuidedCaseCreation conn h i)) as [rec | x |] eqn:R;
        simpl.
      * destruct L as [[x L] | L]; [discriminate|]. rewrite Forall_forall in L.
        unfold runDirect.
        destruct (dml conn _ (Create "Case" [rec])) as [e' | reply]; simpl;
          intros I; apply in_app_or in I;
          (destruct I as [I | [I | []]]; [exfalso; apply (L _ I); exact Logic.I |]);
          inversion I; subst; eauto.
      * intros I. split; [eauto|]. intros W. exfalso. apply (Qt _ I). exact W.
      * intros I. destruct L as [[x L] | L]; [discriminate|].
        rewrite Forall_forall in L. exfalso. apply (L _ I). exact Logic.I.
    + rewrite dedicated_case_insert by exact C. simpl. tauto.
  - rewrite (handler_direct handler conn args h i V C). unfold runDirect.
    destruct (directCall args) as [x | c0]; simpl; [tauto|].
    destruct (dml conn h c0) as [e' | reply]; simpl; intros [I | []];
      inversion I; subst; eauto.
Qed.

(** C3.  The five case handlers catch: whatever the
    organisation answers they return a result, and when a call was rejected
    the result is the error result that carries the text of the rejection
    after the name of the operation.  The DML handler does not catch, in
    either variant: whenever one of its calls is rejected its run ends with a
    thrown error, which for its own DML call is the rejection itself. *)
Theorem C3_rejections :
  (forall conn, catches "Error getting case metadata: " (handleGetCaseMetadata conn))
  /\ (forall conn searchTerm,
        catches "Error searching accounts: " (handleSearchAccounts conn searchTerm))
  /\ (forall conn accountId,
        catches "Error searching contacts: " (handleSearchContacts conn accountId))
  /\ (forall env conn args,
        catches "Error creating case: " (handleCreateCase env conn args))
  /\ (forall conn fieldName,
        catches "Error getting picklist values: " (handleGetPicklistValues conn fieldName))
  /\ (forall handler conn args h i c e,
        In handler variants ->
        In (Remote c (Some e)) (emitted (handler conn args h i)) ->
        (exists x, outcome (handler conn args h i) = Thrown x)
        /\ (is_dml c = true -> outcome (handler conn args h i) = Thrown e)).
Proof.
  repeat split;
    auto using handleGetCaseMetadata_catches, handleSearchAccounts_catches,
      handleSearchContacts_catches, handleCreateCase_catches,
      handleGetPicklistValues_catches;
    intros; eapply handleDMLRecords_propagates; eauto.
Qed.

Lemma C3_witness :
  (exists res,
     outcome (handleSearchAccounts Demo.offline "Acme" [] []) = Returned res
     /\ forall c e,
          In (Remote c (Some e)) (emitted (handleSearchAccounts Demo.offline "Acme" [] [])) ->
          res = text_result ("Error searching accounts: " ++ exn_text e) true)
  /\ outcome (Guided.handleDMLRecords Demo.offline Demo.updateTwo [] [])
     = Thrown Demo.expired.
Proof.
  destruct C3_rejections as (_ & A & _ & _ & _ & D). split.
  - apply (A Demo.offline "Acme" [] []).
  - apply (D Guided.handleDMLRecords Demo.offline Demo.updateTwo [] []
             (Update "Account" (records Demo.updateTwo)) Demo.expired).
    + simpl; auto.
    + simpl; auto.
    + reflexivity.
Defined.

(** The DML handler with the session expired: the rejection of the update
    is thrown to the caller, in both variants. *)
Lemma C3_counterexample :
  Guided.handleDMLRecords Demo.offline Demo.updateTwo [] []
  = {| outcome := Thrown Demo.expired;
       emitted := [Remote (Update "Account" (records Demo.updateTwo))
                     (Some Demo.expired)];
       unread := [] |}
  /\ Dedicated.handleDMLRecords Demo.offline Demo.updateTwo [] []
     = {| outcome := Thrown Demo.expired;
          emitted := [Remote (Update "Account" (records Demo.updateTwo))
                        (Some Demo.expired)];
          unread := [] |}.
Proof. split; reflexivity. Qed.

(** The same failure in a handler that catches. *)
Example searchAccounts_offline :
  handleSearchAccounts Demo.offline "Acme" [] []
  = {| outcome :=
         Returned (text_result
           "Error searching accounts: INVALID_SESSION_ID: Session expired or invalid"
           true);
       emitted := [Remote (Find "Account" (NameLike "%Acme%") ["Id"; "Name"])
                     (Some Demo.expired)];
       unread := [] |}.
Proof. reflexivity. Qed.

(* ================================================================= *)
(** ** The examples of the specification *)

Example search_acme :
  outcome (handleSearchAccounts Demo.conn "Acme" [] [])
  = Returned (text_result
      ("Found 2 accounts matching " ++ dq ++ "Acme" ++ dq ++ ":" ++ nl ++ nl ++
       "1. Acme Corp (ID: 001A)" ++ nl ++
       "2. Acme Industries (ID: 001B)") false).
Proof. reflexivity. Qed.

Example priority_picklist :
  let priorityField :=
    {| f_name := "Priority"; f_label := "Priority"; f_type := "picklist";
       f_nillable := true; f_defaultedOnCreate := true; f_createable := true;
       f_picklistValues :=
         Some [ {| pv_label := "High"; pv_value := "High"; pv_defaultValue := false |};
                {| pv_label := "Low"; pv_value := "Low"; pv_defaultValue := true |} ];
       f_referenceTo := Some [] |} in
  outcome (handleGetPicklistValues
             (Demo.org [priorityField] (fun c => inr (Demo.onePerRecord c)))
             "Priority" [] [])
  = Returned (text_result
      ("Picklist values for Priority (Priority):" ++ nl ++ nl ++
       "1. High" ++ nl ++
       "2. Low (Default)" ++ nl ++ nl ++
       "Please ask the user to select one of these values for the Priority field.")
      false).
Proof. reflexivity. Qed.

(** No match is an empty result, not an error. *)
Example search_no_match :
  forall conn searchTerm h i,
    find conn h "Account" (NameLike ("%" ++ searchTerm ++ "%")) ["Id"; "Name"] = inr [] ->
    outcome (handleSearchAccounts conn searchTerm h i)
    = Returned (text_result "No accounts found matching your search criteria." false).
Proof.
  intros conn searchTerm h i F.
  unfold handleSearchAccounts, try_catch, bind, call_find, settle. rewrite F.
  reflexivity.
Qed.

(* ================================================================= *)
(** ** The numbers of a list *)

Lemma show_pos_acc fuel n acc : show_pos fuel n acc = show_pos fuel n "" ++ acc.
Proof.
  revert n acc. induction fuel as [|fuel IH]; intros n acc; cbn [show_pos]; auto.
  destruct (n <? 10)%nat; auto.
  rewrite IH, (IH _ (String _ "")), append_assoc. reflexivity.
Qed.

Lemma show_pos_fuel f1 : forall f2 n acc,
  n < f1 -> n < f2 -> show_pos f1 n acc = show_pos f2 n acc.
Proof.
  induction f1 as [|f1 IH]; intros f2 n acc H1 H2; [lia|].
  destruct f2 as [|f2]; [lia|]. cbn [show_pos].
  destruct (n <? 10)%nat eqn:E; auto.
  apply Nat.ltb_ge in E.
  assert (n / 10 < n) by (apply Nat.div_lt; lia).
  apply IH; lia.
Qed.

Lemma show_pos_S fuel n acc :
  show_pos (S fuel) n acc =
  if (n <? 10)%nat then String (ascii_of_nat (48 + n mod 10)) acc
  else show_pos fuel (n / 10) (String (ascii_of_nat (48 + n mod 10)) acc).
Proof. reflexivity. Qed.

(** The decimal rendering, digit by digit. *)
Lemma show_nat_step n :
  show_nat n =
  if (n <? 10)%nat then String (ascii_of_nat (48 + n mod 10)) ""
  else show_nat (n / 10) ++ String (ascii_of_nat (48 + n mod 10)) "".
Proof.
  unfold show_nat. rewrite (show_pos_S n n ""). destruct (n <? 10)%nat eqn:E; auto.
  apply Nat.ltb_ge in E.
  assert (n / 10 < n) by (apply Nat.div_lt; lia).
  rewrite show_pos_acc. f_equal. apply show_pos_fuel; lia.
Qed.

Lemma digit_char d :
  d < 10 ->
  digit_of (ascii_of_nat (48 + d)) = Some (Z.of_nat d)
  /\ IdPattern.is_digit (ascii_of_nat (48 + d)) = true.
Proof.
  intros H. do 10 (destruct d as [|d]; [split; reflexivity|]). lia.
Qed.

Lemma all_chars_app p a b : all_chars p (a ++ b) = all_chars p a && all_chars p b.
Proof. induction a as [|c a IH]; simpl; auto. now rewrite IH, andb_assoc. Qed.

Lemma is_number_cons c s :
  IdPattern.is_digit c = true -> all_chars IdPattern.is_digit s = true ->
  is_number (String c s) = true.
Proof. intros Hc Hs. unfold is_number. simpl. now rewrite Hc, Hs. Qed.

Lemma is_number_snoc s c :
  is_number s = true -> IdPattern.is_digit c = true ->
  is_number (s ++ String c "") = true.
Proof.
  unfold is_number. intros H Hc. apply andb_true_iff in H. destruct H as [N D].
  apply andb_true_iff. split.
  - destruct s; [discriminate | reflexivity].
  - rewrite all_chars_app, D. simpl. now rewrite Hc.
Qed.

Lemma show_nat_is_number n : is_number (show_nat n) = true.
Proof.
  induction n as [n IH] using lt_wf_ind. rewrite show_nat_step.
  assert (M : n mod 10 < 10) by (apply Nat.mod_upper_bound; lia).
  destruct (digit_char _ M) as [_ Dg].
  destruct (n <? 10)%nat eqn:E.
  - now apply is_number_cons.
  - apply Nat.ltb_ge in E.
    assert (L : n / 10 < n) by (apply Nat.div_lt; lia).
    apply is_number_snoc; auto.
Qed.

Lemma is_digit_digit_of c :
  IdPattern.is_digit c = true -> exists d, digit_of c = Some d.
Proof.
  unfold IdPattern.is_digit, digit_of. intros ->. eauto.
Qed.

Lemma digits_app s r acc :
  all_chars IdPattern.is_digit s = true ->
  digits acc (s ++ r) = digits (digits acc s) r.
Proof.
  revert acc. induction s as [|c s IH]; intros acc H; simpl in *; auto.
  apply andb_true_iff in H. destruct H as [Hc Hs].
  destruct (is_digit_digit_of c Hc) as [d ->]. now apply IH.
Qed.

Lemma digits_one acc c d :
  digit_of c = Some d ->
  digits acc (String c "")
  = Some (10 * match acc with Some a => a | None => 0 end + d)%Z.
Proof. intros H. simpl. now rewrite H. Qed.

Lemma digits_show_nat n : digits None (show_nat n) = Some (Z.of_nat n).
Proof.
  induction n as [n IH] using lt_wf_ind. rewrite show_nat_step.
  assert (M : n mod 10 < 10) by (apply Nat.mod_upper_bound; lia).
  destruct (digit_char _ M) as [Dg _].
  destruct (n <? 10)%nat eqn:E.
  - rewrite (digits_one _ _ _ Dg). apply Nat.ltb_lt in E.
    rewrite Nat.mod_small by exact E. f_equal; lia.
  - apply Nat.ltb_ge in E.
    assert (L : n / 10 < n) by (apply Nat.div_lt; lia).
    pose proof (show_nat_is_number (n / 10)) as Nm. unfold is_number in Nm.
    apply andb_true_iff in Nm. destruct Nm as [_ Nm].
    rewrite digits_app by exact Nm. rewrite (IH _ L).
    rewrite (digits_one _ _ _ Dg). f_equal.
    pose proof (Nat.div_mod_eq n 10). lia.
Qed.

Lemma digit_not_ws c : IdPattern.is_digit c = true -> is_ws c = false.
Proof.
  unfold IdPattern.is_digit, is_ws. intros H.
  apply andb_true_iff in H. destruct H as [H1 H2].
  apply Nat.leb_le in H1. apply Nat.leb_le in H2.
  repeat (apply orb_false_iff; split);
    try (apply andb_false_iff; right; apply Nat.leb_gt; lia);
    apply Nat.eqb_neq; lia.
Qed.

Lemma number_starts s :
  is_number s = true ->
  exists c r, s = String c r /\ IdPattern.is_digit c = true.
Proof.
  unfold is_number. destruct s as [|c r]; [discriminate|]. simpl.
  intros H. apply andb_true_iff in H. exists c, r. tauto.
Qed.

(** [parseInt] reads a run of digits as it stands. *)
Lemma parseInt_number s : is_number s = true -> parseInt s = digits None s.
Proof.
  intros H. destruct (number_starts s H) as (c & r & -> & D).
  unfold parseInt. simpl ltrim. rewrite (digit_not_ws c D).
  destruct c as [[] [] [] [] [] [] [] []]; try discriminate D; reflexivity.
Qed.

Lemma rev_all_chars p s : all_chars p (JsString.rev s) = all_chars p s.
Proof.
  induction s as [|c s IH]; simpl; auto.
  rewrite all_chars_app, IH. simpl. rewrite andb_true_r. apply andb_comm.
Qed.

(** Trimming leaves a run of digits as it stands. *)
Lemma trim_number s : is_number s = true -> trim s = s.
Proof.
  intros H. unfold trim.
  assert (A : all_chars IdPattern.is_digit s = true)
    by (unfold is_number in H; apply andb_true_iff in H; tauto).
  assert (S1 : starts_ws s = false).
  { destruct s; simpl in *; auto. apply andb_true_iff in A.
    apply digit_not_ws. tauto. }
  rewrite (ltrim_fixed _ S1). apply rtrim_fixed. unfold ends_ws.
  rewrite <- rev_all_chars in A.
  destruct (JsString.rev s); simpl in *; auto. apply andb_true_iff in A.
  apply digit_not_ws. tauto.
Qed.

Lemma parseInt_show_nat n : parseInt (show_nat n) = Some (Z.of_nat n).
Proof. rewrite parseInt_number by apply show_nat_is_number. apply digits_show_nat. Qed.

(** The number shown next to an item picks that item. *)
Lemma shown_number_picks {A} (xs : list A) k x :
  nth_error xs k = Some x -> Picks (show_nat (k + 1)) xs x.
Proof.
  intros N. exists (Z.of_nat (k + 1)). rewrite parseInt_show_nat.
  assert (k < length xs) by (apply nth_error_Some; congruence).
  repeat split; try lia.
  replace (Z.to_nat (Z.of_nat (k + 1) - 1)) with k by lia. exact N.
Qed.

Lemma join_contains sep xs x : In x xs -> contains x (join sep xs).
Proof.
  induction xs as [|y xs IH]; intros I; [destruct I|].
  destruct I as [-> | I].
  - simpl. destruct xs; [apply contains_refl | apply contains_left, contains_refl].
  - specialize (IH I). simpl. destruct xs as [|z zs]; [destruct I|].
    do 2 apply contains_right. exact IH.
Qed.

Lemma mapi_from_nth {A B} (f : A -> nat -> B) xs :
  forall start k x, nth_error xs k = Some x ->
                    nth_error (mapi_from f start xs) k = Some (f x (start + k)).
Proof.
  induction xs as [|y xs IH]; intros start k x H.
  - destruct k; discriminate.
  - destruct k as [|k]; simpl in *.
    + injection H as ->. now rewrite Nat.add_0_r.
    + rewrite (IH (S start) k x H). f_equal. f_equal. lia.
Qed.

Lemma mapi_length {A B} (f : A -> nat -> B) xs : length (mapi f xs) = length xs.
Proof.
  unfold mapi. generalize 0. induction xs; intros n; simpl; auto.
Qed.

(** Every name is in the numbered list, after its number. *)
Lemma numbered_contains names k name :
  nth_error names k = Some name ->
  contains (show_nat (k + 1) ++ ". " ++ name) (numbered names).
Proof.
  intros H. unfold numbered. apply join_contains.
  apply (nth_error_In _ k). unfold mapi.
  rewrite (mapi_from_nth _ names 0 k name H). reflexivity.
Qed.

(** X1.  In the account step of the guided flow, when the search matches
    two accounts or more, every match is shown in the prompt as its 1-based
    number, a dot and its name, and answering that number selects that
    account. *)
Theorem shown_account_number_selects :
  forall (conn : Conn) (accounts : list SRecord) (h : list Event)
         (chunk1 : string) (rest : list string) (k : nat) (account : SRecord),
    find conn
      (h ++ [Log "Enter a search string to filter accounts:"; Write "> "; Read chunk1])%list
      "Account" (NameLike ("%" ++ trim chunk1 ++ "%")) ["Id"; "Name"] = inr accounts ->
    2 <= length accounts ->
    nth_error accounts k = Some account ->
    outcome (selectAccount conn h (chunk1 :: show_nat (k + 1) :: rest)) = Returned account
    /\ In (Log ("Select an account:" ++ nl ++ numbered (map Name accounts)))
          (emitted (selectAccount conn h (chunk1 :: show_nat (k + 1) :: rest)))
    /\ contains (show_nat (k + 1) ++ ". " ++ Name account) (numbered (map Name accounts)).
Proof.
  intros conn accounts h chunk1 rest k account F N K.
  pose proof (shown_number_picks accounts k account K) as P.
  rewrite <- (trim_number (show_nat (k + 1))) in P by apply show_nat_is_number.
  split; [apply (proj2 (selectAccount_selects conn accounts h chunk1 _ rest F N) _ P)|].
  split.
  - unfold selectAccount, bind, call_find, settle. run_step. rewrite F. run_step.
    destruct accounts as [|a1 [|a2 more]]; simpl in N; try lia.
    run_step. destruct (invalid_selection _ _); run_step; simpl; auto 10.
  - apply numbered_contains. now apply map_nth_error.
Qed.

Lemma shown_account_number_selects_witness :
  outcome (selectAccount Demo.conn [] ["Acme"; show_nat (1 + 1)]) = Returned Demo.acmeIndustries
  /\ In (Log ("Select an account:" ++ nl
              ++ numbered (map Name [Demo.acmeCorp; Demo.acmeIndustries])))
        (emitted (selectAccount Demo.conn [] ["Acme"; show_nat (1 + 1)]))
  /\ contains (show_nat (1 + 1) ++ ". " ++ Name Demo.acmeIndustries)
       (numbered (map Name [Demo.acmeCorp; Demo.acmeIndustries])).
Proof.
  apply (shown_account_number_selects Demo.conn [Demo.acmeCorp; Demo.acmeIndustries]
           [] "Acme" [] 1 Demo.acmeIndustries).
  - reflexivity.
  - simpl; lia.
  - reflexivity.
Defined.

(* ================================================================= *)
(** ** The loop over the required fields *)

Lemma defined_at_get o o' k :
  Object.get o' k = Object.get o k -> Object.defined_at o' k = Object.defined_at o k.
Proof. unfold Object.defined_at. now intros ->. Qed.

Lemma extends_refl o : extends o o.
Proof. intros k _. reflexivity. Qed.

Lemma extends_trans o1 o2 o3 : extends o1 o2 -> extends o2 o3 -> extends o1 o3.
Proof.
  intros H1 H2 k D. rewrite H2, H1; auto.
  rewrite (defined_at_get _ _ _ (H1 k D)). exact D.
Qed.

Lemma extends_set_fresh o k v :
  Object.defined_at o k = false -> extends o (Object.set o k v).
Proof. intros F k' D. apply get_set_other. intros ->. congruence. Qed.

Lemma not_handled_name caseRecord field :
  alreadyHandled caseRecord field = false ->
  ~ In (f_name field) handledNames /\ Object.defined_at caseRecord (f_name field) = false.
Proof.
  unfold alreadyHandled, handledNames. intros H.
  apply orb_false_elim in H. destruct H as [N D]. split; auto.
  intros I. rewrite (proj2 (existsb_exists _ _)) in N; [discriminate|].
  exists (f_name field). split; auto. apply String.eqb_refl.
Qed.

Lemma askScalar_defined field :
  post (askScalar field) (fun v => is_defined v = true).
Proof. unfold askScalar. post_auto; reflexivity. Qed.

(** A required field that is asked for gets a value, under its own name. *)
Lemma askRequired_sets conn field caseRecord :
  post (askRequired conn field caseRecord)
    (fun rec' => exists v, is_defined v = true
                           /\ rec' = Object.set caseRecord (f_name field) v).
Proof.
  unfold askRequired, askReference, askPicklist, undefined_read.
  repeat match goal with
         | |- post (match ?x with _ => _ end) _ => destruct x
         end.
  all: try (eapply post_bind;
            [apply askScalar_defined
            | intros v Dv; apply post_ret; exists v; split; [exact Dv | reflexivity]]).
  all: post_auto; eexists; (split; [| reflexivity]); reflexivity.
Qed.

Lemma defined_after_set o k v :
  is_defined v = true -> Object.defined_at (Object.set o k v) k = true.
Proof.
  intros D. unfold Object.defined_at. rewrite get_set_same. destruct v; auto; discriminate.
Qed.

Lemma askRequiredFields_post conn requiredFields :
  forall caseRecord,
    post (askRequiredFields conn requiredFields caseRecord)
      (fun rec' =>
         extends caseRecord rec'
         /\ (forall k, In k handledNames -> Object.get rec' k = Object.get caseRecord k)
         /\ (forall field, In field requiredFields -> alreadyHandled rec' field = true)).
Proof.
  induction requiredFields as [|field rest IH]; intros caseRecord; simpl.
  - apply post_ret.
    split; [apply extends_refl | split; [reflexivity | intros f []]].
  - destruct (alreadyHandled caseRecord field) eqn:H.
    + eapply post_weaken; [apply IH|]. intros rec' (E & K & A).
      split; [exact E | split; [exact K |]]. intros f [<- | I]; auto.
      unfold alreadyHandled in *. apply orb_true_iff in H. apply orb_true_iff.
      destruct H as [H | H]; [left; exact H | right].
      rewrite (defined_at_get _ _ _ (E _ H)). exact H.
    + destruct (not_handled_name _ _ H) as [N D].
      eapply post_bind; [apply askRequired_sets | intros rec1 (v & Dv & ->)].
      eapply post_weaken; [apply IH|]. intros rec' (E & K & A).
      split; [| split].
      * eapply extends_trans; [apply extends_set_fresh; exact D | exact E].
      * intros k I. rewrite (K k I). apply get_set_other. intros Heq. subst k. auto.
      * intros f [<- | I]; auto.
        unfold alreadyHandled. apply orb_true_iff. right.
        pose proof (defined_after_set caseRecord (f_name field) v Dv) as Ds.
        rewrite (defined_at_get _ _ _ (E _ Ds)). exact Ds.
Qed.

(** X2.  The loop over the required fields never changes a field that
    already has a value, and never touches one of the seven names the flow
    handles itself, whatever the metadata and the answers. *)
Theorem required_loop_never_overwrites :
  forall (conn : Conn) (requiredFields : list Field) (caseRecord : Obj)
         (h : list Event) (i : list string) (result : Obj),
    outcome (askRequiredFields conn requiredFields caseRecord h i) = Returned result ->
    (forall k v, Object.get caseRecord k = Some v -> v <> VUndefined ->
                 Object.get result k = Some v)
    /\ (forall k, In k handledNames -> Object.get result k = Object.get caseRecord k).
Proof.
  intros conn requiredFields caseRecord h i result R.
  destruct (askRequiredFields_post conn requiredFields caseRecord h i result R)
    as (E & K & _).
  split; auto. intros k v G U. rewrite E; auto.
  unfold Object.defined_at. rewrite G. destruct v; congruence.
Qed.

Lemma required_loop_never_overwrites_witness :
  (forall k v, Object.get [("AccountId", VStr "001B"); ("Type", VStr "Problem")] k = Some v ->
               v <> VUndefined ->
               Object.get [("AccountId", VStr "001B"); ("Type", VStr "Problem");
                           ("Reason__c", VStr "Other")] k = Some v)
  /\ (forall k, In k handledNames ->
                Object.get [("AccountId", VStr "001B"); ("Type", VStr "Problem");
                            ("Reason__c", VStr "Other")] k
                = Object.get [("AccountId", VStr "001B"); ("Type", VStr "Problem")] k).
Proof.
  apply (required_loop_never_overwrites Demo.conn
           [Demo.picklist "Type" true ["Problem"; "Question"];
            Demo.picklist "Origin" true ["Phone"; "Web"];
            Demo.picklist "Reason__c" true ["Breakdown"; "Other"]]
           [("AccountId", VStr "001B"); ("Type", VStr "Problem")] [] ["2"]).
  vm_compute. reflexivity.
Defined.

(** X3.  When the guided flow has collected its record, every required
    field of the metadata (not nillable, not defaulted on create, createable,
    not [CaseNumber]) is one of the seven names the flow handles itself or
    has a value in the record. *)
Theorem required_fields_are_filled :
  forall (conn : Conn) (h : list Event) (i : list string)
         (caseDescribe : list Field) (caseRecord : Obj) (field : Field),
    outcome (collectCaseRecord conn h i) = Returned (caseDescribe, caseRecord) ->
    In field caseDescribe ->
    is_required field = true ->
    In (f_name field) handledNames
    \/ Object.inherited (f_name field) = true
    \/ exists v, Object.get caseRecord (f_name field) = Some v /\ v <> VUndefined.
Proof.
  intros conn h i cd rec field R I Q.
  assert (P : post (collectCaseRecord conn)
                (fun c => forall f, In f (fst c) -> is_required f = true ->
                                    alreadyHandled (snd c) f = true)).
  { unfold collectCaseRecord. apply post_bind_any; intros desc.
    do 8 (apply post_bind_any; intros ?).
    eapply post_bind; [apply askRequiredFields_post | intros r (_ & _ & A)].
    apply post_ret. simpl. intros f If Qf. apply A. apply filter_In. auto. }
  specialize (P h i _ R field I Q). simpl in P.
  unfold alreadyHandled in P. apply orb_true_iff in P. destruct P as [P | P].
  - left. apply existsb_exists in P. destruct P as (x & Ix & Ex).
    apply String.eqb_eq in Ex. rewrite Ex. exact Ix.
  - right. unfold Object.defined_at in P.
    destruct (Object.get rec (f_name field)) as [v|]; [right | left; exact P].
    exists v. split; auto. intros ->. discriminate.
Qed.

Lemma required_fields_are_filled_witness :
  In (f_name (Demo.lookup "Product__c" "Product2")) handledNames
  \/ Object.inherited (f_name (Demo.lookup "Product__c" "Product2")) = true
  \/ exists v,
       Object.get [("AccountId", VStr "001B"); ("ContactId", VStr "003A");
                   ("Subject", VStr "Printer on fire"); ("Origin", VStr "Web");
                   ("Status", VStr "New"); ("Priority", VStr "High");
                   ("Reason__c", VStr "Breakdown"); ("Product__c", VStr "001B")]
         (f_name (Demo.lookup "Product__c" "Product2")) = Some v
       /\ v <> VUndefined.
Proof.
  apply (required_fields_are_filled
           (Demo.org Demo.caseFieldsMore (fun c => inr (Demo.onePerRecord c))) []
           ["Acme"; "2"; "1"; "Printer on fire"; ""; "2"; "1"; "1"; "1"; "Widget"; "2"]
           Demo.caseFieldsMore).
  - vm_compute. reflexivity.
  - simpl. auto 10.
  - reflexivity.
Defined.

(* ================================================================= *)
(** ** The record handed to the confirmation *)

Lemma only_changes_refl ks o : only_changes ks o o.
Proof. intros k _. reflexivity. Qed.

Lemma only_changes_set ks o k v : In k ks -> only_changes ks o (Object.set o k v).
Proof. intros I k' N. apply get_set_other. intros ->. auto. Qed.

Lemma only_changes_delete ks o k : In k ks -> only_changes ks o (Object.delete o k).
Proof. intros I k' N. apply get_delete_other. intros ->. auto. Qed.

Lemma only_changes_trans ks o1 o2 o3 :
  only_changes ks o1 o2 -> only_changes ks o2 o3 -> only_changes ks o1 o3.
Proof. intros H1 H2 k N. rewrite H2, H1; auto. Qed.

Lemma get_delete_set_absent o k v :
  Object.get o k = None -> Object.get (Object.delete (Object.set o k v) k) k = None.
Proof.
  induction o as [|[k0 v0] r IH]; simpl.
  - intros _. rewrite String.eqb_refl. reflexivity.
  - destruct (String.eqb k0 k) eqn:E; [discriminate|]. intros G.
    simpl. rewrite E. simpl. rewrite E. auto.
Qed.

Lemma chosen_In {A} (xs : list A) sel x : chosen xs sel = Some x -> In x xs.
Proof.
  destruct sel as [z|]; [|discriminate]. unfold chosen, element.
  destruct (z - 1 <? 0)%Z; [discriminate|]. apply nth_error_In.
Qed.

Lemma selectContact_frame conn account caseRecord :
  post (selectContact conn account caseRecord) (only_changes ["ContactId"] caseRecord).
Proof.
  unfold selectContact, undefined_read.
  post_auto; auto using only_changes_refl.
  apply only_changes_set. simpl. auto.
Qed.

Lemma webContact_frame caseRecord :
  post (webContact caseRecord)
    (only_changes ["SuppliedEmail"; "SuppliedName"] caseRecord).
Proof.
  unfold webContact. post_auto; auto using only_changes_refl.
  eapply only_changes_trans; apply only_changes_set; simpl; auto.
Qed.

Lemma askSubject_sets caseRecord :
  Object.get caseRecord "Subject" = None ->
  post (askSubject caseRecord)
    (fun rec' => only_changes ["Subject"] caseRecord rec'
                 /\ exists s, Object.get rec' "Subject" = Some (VStr s)).
Proof.
  intros G. unfold askSubject, truthy_at. rewrite G. simpl.
  apply post_bind_any; intros answer. apply post_ret. split.
  - apply only_changes_set. simpl. auto.
  - exists answer. apply get_set_same.
Qed.

Lemma askDescription_sets caseRecord :
  Object.get caseRecord "Description" = None ->
  post (askDescription caseRecord)
    (fun rec' => only_changes ["Description"] caseRecord rec'
                 /\ (Object.get rec' "Description" = None
                     \/ exists d, Object.get rec' "Description" = Some (VStr d)
                                  /\ trim d <> "")).
Proof.
  intros G. unfold askDescription, truthy_at. rewrite G. simpl.
  apply post_bind_any; intros answer.
  destruct (String.eqb (trim answer) "") eqn:E; apply post_ret; split.
  - eapply only_changes_trans;
      [apply only_changes_set | apply only_changes_delete]; simpl; auto.
  - left. now apply get_delete_set_absent.
  - apply only_changes_set. simpl. auto.
  - right. exists answer. split; [apply get_set_same | now apply String.eqb_neq].
Qed.

Lemma askCommonPicklist_sets key message caseDescribe caseRecord :
  Object.get caseRecord key = None ->
  post (askCommonPicklist key message caseDescribe caseRecord)
    (fun rec' => only_changes [key] caseRecord rec'
                 /\ (Object.get rec' key = None
                     \/ exists value, Object.get rec' key = Some (VStr value)
                                      /\ picklistValueOf caseDescribe key value)).
Proof.
  intros G. unfold askCommonPicklist, truthy_at, undefined_read. rewrite G. simpl.
  destruct (List.find _ caseDescribe) as [field|] eqn:Ef;
    [| apply post_ret; auto using only_changes_refl].
  destruct (f_picklistValues field) as [values|] eqn:Ev;
    [| apply post_ret; auto using only_changes_refl].
  destruct (0 <? length values)%nat;
    [| apply post_ret; auto using only_changes_refl].
  apply post_bind_any; intros sel.
  destruct (valid_selection sel (length values));
    [| apply post_ret; auto using only_changes_refl].
  destruct (chosen values sel) as [item|] eqn:Ec; [| apply post_throw].
  apply post_ret. split.
  - apply only_changes_set. simpl. auto.
  - right. exists (pv_value item). split; [apply get_set_same|].
    exists field, values, item. eauto using chosen_In.
Qed.

Ltac frames :=
  repeat match goal with
         | H : only_changes _ _ ?r |- context [Object.get ?r _] =>
             rewrite H by (simpl; intuition discriminate)
         end.

Lemma collectCaseRecord_shape conn :
  post (collectCaseRecord conn)
    (fun c =>
       (exists ident, Object.get (snd c) "AccountId" = Some (VStr ident))
       /\ (exists s, Object.get (snd c) "Subject" = Some (VStr s))
       /\ (Object.get (snd c) "Description" = None
           \/ exists d, Object.get (snd c) "Description" = Some (VStr d) /\ trim d <> "")
       /\ (forall key, In key ["Origin"; "Status"; "Priority"] ->
             Object.get (snd c) key = None
             \/ exists value, Object.get (snd c) key = Some (VStr value)
                              /\ picklistValueOf (fst c) key value)).
Proof.
  unfold collectCaseRecord.
  apply post_bind_any; intros desc. apply post_bind_any; intros account.
  eapply post_bind; [apply selectContact_frame | intros r1 F1].
  eapply post_bind; [apply webContact_frame | intros r2 F2].
  eapply post_bind; [apply askSubject_sets; frames; reflexivity | intros r3 (F3 & S3)].
  eapply post_bind; [apply askDescription_sets; frames; reflexivity | intros r4 (F4 & D4)].
  eapply post_bind;
    [apply askCommonPicklist_sets; frames; reflexivity | intros r5 (F5 & O5)].
  eapply post_bind;
    [apply askCommonPicklist_sets; frames; reflexivity | intros r6 (F6 & O6)].
  eapply post_bind;
    [apply askCommonPicklist_sets; frames; reflexivity | intros r7 (F7 & O7)].
  eapply post_bind; [apply askRequiredFields_post | intros r8 (_ & K & _)].
  apply post_ret. cbn [fst snd].
  assert (H : forall k, In k handledNames -> Object.get r8 k = Object.get r7 k) by exact K.
  clear K. unfold handledNames in H.
  split; [| split; [| split]].
  - rewrite H by (simpl; auto). frames. eexists. reflexivity.
  - rewrite H by (simpl; auto 10). frames. exact S3.
  - rewrite H by (simpl; auto 10). frames. exact D4.
  - intros key [<- | [<- | [<- | []]]]; rewrite H by (simpl; auto 10).
    + frames. exact O5.
    + frames. exact O6.
    + exact O7.
Qed.

(** X4.  The record the guided flow hands to the confirmation always holds
    [AccountId] and [Subject] as strings (the subject as answered, blank or
    not), and holds [Description] only as a string that is not blank: a blank
    description is left out. *)
Theorem collected_record_basics :
  forall (conn : Conn) (h : list Event) (i : list string)
         (caseDescribe : list Field) (caseRecord : Obj),
    outcome (collectCaseRecord conn h i) = Returned (caseDescribe, caseRecord) ->
    (exists ident, Object.get caseRecord "AccountId" = Some (VStr ident))
    /\ (exists s, Object.get caseRecord "Subject" = Some (VStr s))
    /\ (Object.get caseRecord "Description" = None
        \/ exists d, Object.get caseRecord "Description" = Some (VStr d)
                     /\ trim d <> "").
Proof.
  intros conn h i cd rec R.
  destruct (collectCaseRecord_shape conn h i _ R) as (A & S & D & _). auto.
Qed.

Lemma collected_record_basics_witness :
  (exists ident,
     Object.get [("AccountId", VStr "001B"); ("SuppliedEmail", VStr "joe@acme.test");
                 ("SuppliedName", VStr "Joe"); ("Subject", VStr "");
                 ("Origin", VStr "Web"); ("Status", VStr "New"); ("Priority", VStr "High")]
       "AccountId" = Some (VStr ident))
  /\ (exists s,
        Object.get [("AccountId", VStr "001B"); ("SuppliedEmail", VStr "joe@acme.test");
                    ("SuppliedName", VStr "Joe"); ("Subject", VStr "");
                    ("Origin", VStr "Web"); ("Status", VStr "New");
                    ("Priority", VStr "High")]
          "Subject" = Some (VStr s))
  /\ (Object.get [("AccountId", VStr "001B"); ("SuppliedEmail", VStr "joe@acme.test");
                  ("SuppliedName", VStr "Joe"); ("Subject", VStr "");
                  ("Origin", VStr "Web"); ("Status", VStr "New");
                  ("Priority", VStr "High")]
        "Description" = None
      \/ exists d,
           Object.get [("AccountId", VStr "001B"); ("SuppliedEmail", VStr "joe@acme.test");
                       ("SuppliedName", VStr "Joe"); ("Subject", VStr "");
                       ("Origin", VStr "Web"); ("Status", VStr "New");
                       ("Priority", VStr "High")]
             "Description" = Some (VStr d)
           /\ trim d <> "").
Proof.
  apply (collected_record_basics Demo.conn []
           ["Acme"; "2"; ""; "joe@acme.test"; "Joe"; ""; "  "; "2"; "1"; "1"]
           Demo.caseFields).
  vm_compute. reflexivity.
Defined.

(** X5.  In the record the guided flow hands to the confirmation, [Origin],
    [Status] and [Priority] are each either absent or the value of one of the
    entries the metadata lists for that picklist; the flow never sets them to
    anything else. *)
Theorem collected_picklists_come_from_metadata :
  forall (conn : Conn) (h : list Event) (i : list string)
         (caseDescribe : list Field) (caseRecord : Obj) (key : string),
    outcome (collectCaseRecord conn h i) = Returned (caseDescribe, caseRecord) ->
    In key ["Origin"; "Status"; "Priority"] ->
    Object.get caseRecord key = None
    \/ exists value, Object.get caseRecord key = Some (VStr value)
                     /\ picklistValueOf caseDescribe key value.
Proof.
  intros conn h i cd rec key R I.
  destruct (collectCaseRecord_shape conn h i _ R) as (_ & _ & _ & P). auto.
Qed.

Lemma collected_picklists_come_from_metadata_witness :
  Object.get [("AccountId", VStr "001B"); ("SuppliedEmail", VStr "joe@acme.test");
              ("SuppliedName", VStr "Joe"); ("Subject", VStr "");
              ("Origin", VStr "Web"); ("Status", VStr "New"); ("Priority", VStr "High")]
    "Origin" = None
  \/ exists value,
       Object.get [("AccountId", VStr "001B"); ("SuppliedEmail", VStr "joe@acme.test");
                   ("SuppliedName", VStr "Joe"); ("Subject", VStr "");
                   ("Origin", VStr "Web"); ("Status", VStr "New");
                   ("Priority", VStr "High")]
         "Origin" = Some (VStr value)
       /\ picklistValueOf Demo.caseFields "Origin" value.
Proof.
  apply (collected_picklists_come_from_metadata Demo.conn []
           ["Acme"; "2"; ""; "joe@acme.test"; "Joe"; ""; "  "; "2"; "1"; "1"]).
  - vm_compute. reflexivity.
  - simpl. auto.
Defined.

(* ================================================================= *)
(** ** The DML handler: what it sends and what it reports *)

(** X6.  An operation other than insert, update, delete and upsert makes
    both variants throw [Unsupported operation: <operation>] with no call
    issued and no input read. *)
Theorem unsupported_operation_throws :
  forall handler (conn : Conn) (args : DMLArgs) (h : list Event) (i : list string),
    In handler variants ->
    ~ In (operation args) ["insert"; "update"; "delete"; "upsert"] ->
    handler conn args h i
    = {| outcome := Thrown (JsError ("Unsupported operation: " ++ operation args));
         emitted := []; unread := i |}.
Proof.
  intros handler conn args h i V N. simpl in N.
  assert (E : forall s, In s ["insert"; "update"; "delete"; "upsert"] ->
                        String.eqb (operation args) s = false).
  { intros s I. apply String.eqb_neq. intros Heq. apply N. rewrite Heq. exact I. }
  assert (C : isCaseInsert args = false)
    by (unfold isCaseInsert; rewrite (E "insert") by (simpl; auto); reflexivity).
  rewrite (handler_direct handler conn args h i V C).
  unfold runDirect, directCall.
  rewrite (E "insert"), (E "update"), (E "delete"), (E "upsert") by (simpl; auto).
  reflexivity.
Qed.

Lemma unsupported_operation_throws_witness :
  Dedicated.handleDMLRecords Demo.conn
    {| operation := "merge"; objectName := "Account"; records := [];
       externalIdField := None; guidedInput := None |} [] ["y"]
  = {| outcome := Thrown (JsError ("Unsupported operation: " ++ "merge"));
       emitted := []; unread := ["y"] |}.
Proof.
  apply (unsupported_operation_throws Dedicated.handleDMLRecords Demo.conn
           {| operation := "merge"; objectName := "Account"; records := [];
              externalIdField := None; guidedInput := None |} [] ["y"]).
  - simpl; auto.
  - simpl; intuition discriminate.
Defined.

(** X7.  A delete submits, in both variants, one call that carries the
    [Id] of each of the caller's records, in order and one per record, and
    nothing else of them; a record with no [Id] contributes [undefined]. *)
Theorem delete_submits_ids_only :
  forall handler (conn : Conn) (args : DMLArgs) (h : list Event) (i : list string),
    In handler variants ->
    operation args = "delete" ->
    exists ids rejection,
      emitted (handler conn args h i) = [Remote (Destroy (objectName args) ids) rejection]
      /\ length ids = length (records args)
      /\ forall k record,
           nth_error (records args) k = Some record ->
           nth_error ids k
           = Some (match Object.get record "Id" with Some v => v | None => VUndefined end).
Proof.
  intros handler conn args h i V Op.
  assert (C : isCaseInsert args = false) by (unfold isCaseInsert; now rewrite Op).
  rewrite (handler_direct handler conn args h i V C).
  unfold runDirect, directCall. rewrite Op. simpl.
  exists (map idOf (records args)).
  destruct (dml conn h _); simpl; eexists;
    (split; [reflexivity | split; [apply length_map |]]);
    intros k record N; apply (map_nth_error idOf _ _ N).
Qed.

Lemma delete_submits_ids_only_witness :
  exists ids rejection,
    emitted (Guided.handleDMLRecords Demo.conn
               {| operation := "delete"; objectName := "Case";
                  records := [[("Id", VStr "500A"); ("Subject", VStr "x")]; []];
                  externalIdField := None; guidedInput := None |} [] [])
    = [Remote (Destroy "Case" ids) rejection]
    /\ length ids = 2
    /\ forall k record,
         nth_error [[("Id", VStr "500A"); ("Subject", VStr "x")]; []] k = Some record ->
         nth_error ids k
         = Some (match Object.get record "Id" with Some v => v | None => VUndefined end).
Proof.
  apply (delete_submits_ids_only Guided.handleDMLRecords Demo.conn
           {| operation := "delete"; objectName := "Case";
              records := [[("Id", VStr "500A"); ("Subject", VStr "x")]; []];
              externalIdField := None; guidedInput := None |} [] []).
  - simpl; auto.
  - reflexivity.
Defined.

(** X8.  Outside the Case insert, both variants read no input and issue
    at most one call, a DML call that submits as many entries as the caller
    gave records; and the second variant reads no input and logs nothing
    whatever its arguments. *)
Theorem dml_handler_effects :
  forall (conn : Conn) (args : DMLArgs) (h : list Event) (i : list string),
    (forall handler, In handler variants -> isCaseInsert args = false ->
       unread (handler conn args h i) = i
       /\ (emitted (handler conn args h i) = []
           \/ exists c rejection,
                emitted (handler conn args h i) = [Remote c rejection]
                /\ is_dml c = true
                /\ submitted c = length (records args)))
    /\ unread (Dedicated.handleDMLRecords conn args h i) = i
    /\ Forall is_remote (emitted (Dedicated.handleDMLRecords conn args h i)).
Proof.
  intros conn args h i.
  assert (D : forall handler, In handler variants -> isCaseInsert args = false ->
                unread (handler conn args h i) = i
                /\ (emitted (handler conn args h i) = []
                    \/ exists c rejection,
                         emitted (handler conn args h i) = [Remote c rejection]
                         /\ is_dml c = true
                         /\ submitted c = length (records args))).
  { intros handler V C. rewrite (handler_direct handler conn args h i V C).
    unfold runDirect. destruct (directCall args) as [e | c] eqn:DC; simpl; auto.
    destruct (dml conn h c); simpl; split; auto; right; exists c; eexists;
      eauto using directCall_is_dml, directCall_submitted. }
  split; [exact D|].
  destruct (isCaseInsert args) eqn:C.
  - rewrite dedicated_case_insert by exact C. simpl. auto.
  - destruct (D Dedicated.handleDMLRecords (or_intror (or_introl eq_refl)) eq_refl)
      as [U [-> | (c & rej & -> & _)]]; split; auto.
    repeat constructor.
Qed.

Lemma successLine_reported op results idx r :
  nth_error results idx = Some r -> success r = true ->
  contains (successLine r idx) (responseText op results).
Proof.
  intros H S. unfold responseText.
  assert (P : (0 <? successCount results)%nat = true).
  { apply Nat.ltb_lt. unfold successCount.
    assert (I : In r (filter success results))
      by (apply filter_In; split; [eapply nth_error_In; eauto | exact S]).
    destruct (filter success results); [destruct I | simpl; lia]. }
  rewrite P. apply contains_right, contains_left.
  do 3 apply contains_right.
  apply (forEachIdx_contains successLine results 0 idx r H).
Qed.

(** X9.  Whenever the DML call of either variant is answered, every
    successful record that carries a non-empty id is listed in the report as
    [Record <n> - ID: <id>], with its 1-based position in the answer. *)
Theorem successes_are_listed :
  forall handler (conn : Conn) (args : DMLArgs) (h : list Event) (i : list string)
         (pre : list Event) (c : Call),
    In handler variants ->
    emitted (handler conn args h i) = (pre ++ [Remote c None])%list ->
    is_dml c = true ->
    exists reply res,
      dml conn (h ++ pre)%list c = inr reply
      /\ outcome (handler conn args h i) = Returned res
      /\ forall idx r ident,
           nth_error (resultsOf reply) idx = Some r ->
           success r = true -> id r = Some ident -> ident <> "" ->
           contains ("Record " ++ show_nat (idx + 1) ++ " - ID: " ++ ident ++ nl)
             (textOf res).
Proof.
  intros handler conn args h i pre c V Hev W.
  destruct (handler_call_completed handler conn args h i pre c V Hev W)
    as (reply & D & R).
  exists reply, (formatResults (operation args) reply).
  rewrite textOf_formatResults.
  split; [exact D | split; [exact R|]].
  intros idx r ident Hn Hs Hi Ne.
  pose proof (successLine_reported (operation args) _ _ _ Hn Hs) as L.
  unfold successLine, opt_truthy, str_truthy, show_opt in L. rewrite Hs, Hi in L.
  apply String.eqb_neq in Ne. rewrite Ne in L. exact L.
Qed.

Lemma successes_are_listed_witness :
  exists reply res,
    dml Demo.mixed ([] ++ [])%list (Update "Account" (records Demo.updateTwo)) = inr reply
    /\ outcome (Dedicated.handleDMLRecords Demo.mixed Demo.updateTwo [] []) = Returned res
    /\ forall idx r ident,
         nth_error (resultsOf reply) idx = Some r ->
         success r = true -> id r = Some ident -> ident <> "" ->
         contains ("Record " ++ show_nat (idx + 1) ++ " - ID: " ++ ident ++ nl)
           (textOf res).
Proof.
  apply (successes_are_listed Dedicated.handleDMLRecords Demo.mixed Demo.updateTwo
           [] [] [] (Update "Account" (records Demo.updateTwo))).
  - simpl; auto.
  - reflexivity.
  - reflexivity.
Defined.

Lemma all_succeeded_counts results :
  forallb success results = true ->
  successCount results = length results /\ failureCount results = 0.
Proof.
  intros A. unfold failureCount, successCount.
  assert (E : filter success results = results).
  { induction results as [|r rs IH]; simpl in *; auto.
    apply andb_true_iff in A. destruct A as [-> A]. now rewrite IH. }
  rewrite E. split; [reflexivity | lia].
Qed.

Lemma none_succeeded_counts results :
  forallb (fun r => negb (success r)) results = true ->
  successCount results = 0 /\ failureCount results = length results.
Proof.
  intros A. unfold failureCount, successCount.
  assert (E : filter success results = []).
  { induction results as [|r rs IH]; simpl in *; auto.
    apply andb_true_iff in A. destruct A as [N A].
    destruct (success r); [discriminate | auto]. }
  rewrite E. simpl. split; [reflexivity | lia].
Qed.

(** X10.  The report has a section of successful records only when some
    record succeeded and a section of errors only when some record failed:
    a batch in which every record succeeded ends after its list of
    successes, a batch in which every record failed goes from the tally
    to its errors, and an empty answer gives the tally of zeros alone. *)
Theorem report_sections :
  forall (op : string) (results : list DMLResult),
    (results <> [] -> forallb success results = true ->
     responseText op results
     = tally op results ++ nl ++ "Successful Records:" ++ nl
       ++ forEachIdx successLine 0 results ++ nl)
    /\ (results <> [] -> forallb (fun r => negb (success r)) results = true ->
        responseText op results
        = tally op results ++ nl ++ "Errors:" ++ nl ++ forEachIdx errorBlock 0 results)
    /\ responseText op []
       = toUpperCase op ++ " operation completed." ++ nl ++ "Processed 0 records:" ++ nl
         ++ "- Successful: 0" ++ nl ++ "- Failed: 0" ++ nl ++ nl.
Proof.
  intros op results. split; [| split].
  - intros N A. unfold responseText.
    destruct (all_succeeded_counts results A) as [-> ->].
    destruct results; [congruence|]. cbn [Nat.ltb Nat.leb length].
    rewrite append_nil_r, !append_assoc. reflexivity.
  - intros N A. unfold responseText.
    destruct (none_succeeded_counts results A) as [-> ->].
    destruct results; [congruence|]. cbn [Nat.ltb Nat.leb length].
    reflexivity.
  - unfold responseText, tally. cbn [successCount failureCount filter length Nat.sub
                                      Nat.ltb Nat.leb].
    rewrite !append_assoc. reflexivity.
Qed.

Lemma report_sections_witness :
  responseText "update" [Demo.done "500X"; Demo.done "500Y"]
  = tally "update" [Demo.done "500X"; Demo.done "500Y"] ++ nl ++ "Successful Records:"
    ++ nl ++ forEachIdx successLine 0 [Demo.done "500X"; Demo.done "500Y"] ++ nl.
Proof.
  apply (proj1 (report_sections "update" [Demo.done "500X"; Demo.done "500Y"])).
  - discriminate.
  - reflexivity.
Defined.

(* ================================================================= *)
(** ** The case handlers *)

(** X11.  The four look-up handlers of the case tools (metadata, account
    search, contact search, picklist values) read no input, log nothing and
    issue only calls that read: at most two, and never a write. *)
Theorem lookups_only_read :
  forall (conn : Conn) (searchTerm accountId fieldName : string) (m : M ToolResult)
         (h : list Event) (i : list string),
    In m (lookups conn searchTerm accountId fieldName) ->
    unread (m h i) = i
    /\ Forall reads (emitted (m h i))
    /\ length (emitted (m h i)) <= 2.
Proof.
  intros conn searchTerm accountId fieldName m h i I.
  unfold lookups in I. simpl in I.
  destruct I as [<- | [<- | [<- | [<- | []]]]].
  - unfold handleGetCaseMetadata, try_catch, bind, call_describe, settle.
    destruct (describe conn h "Case"); simpl; repeat constructor.
  - unfold handleSearchAccounts, try_catch, bind, call_find, settle.
    destruct (find conn h _ _ _) as [e | accounts]; simpl; [repeat constructor|].
    destruct (length accounts =? 0)%nat; simpl; repeat constructor.
  - unfold handleSearchContacts, try_catch, bind, call_find, call_retrieve, settle.
    destruct (retrieve conn h _ _) as [e | account]; simpl; [repeat constructor|].
    destruct (find conn _ _ _ _) as [e | contacts]; simpl; [repeat constructor|].
    destruct (length contacts =? 0)%nat; simpl; repeat constructor.
  - unfold handleGetPicklistValues, try_catch, bind, call_describe, settle, undefined_read.
    destruct (describe conn h "Case") as [e | caseDescribe]; simpl; [repeat constructor|].
    destruct (List.find _ caseDescribe) as [field|]; simpl; [|repeat constructor].
    destruct (negb _); simpl; [repeat constructor|].
    destruct (f_picklistValues field); simpl; repeat constructor.
Qed.

Lemma lookups_only_read_witness :
  unread (handleSearchContacts Demo.conn "001A" [] ["pending"]) = ["pending"]
  /\ Forall reads (emitted (handleSearchContacts Demo.conn "001A" [] ["pending"]))
  /\ length (emitted (handleSearchContacts Demo.conn "001A" [] ["pending"])) <= 2.
Proof.
  apply (lookups_only_read Demo.conn "Acme" "001A" "Priority").
  simpl. auto.
Defined.

Lemma mapi_contains {A} (f : A -> nat -> string) sep xs k x :
  nth_error xs k = Some x -> contains (f x k) (join sep (mapi f xs)).
Proof.
  intros H. apply join_contains. apply (nth_error_In _ k). unfold mapi.
  rewrite (mapi_from_nth f xs 0 k x H). reflexivity.
Qed.

(** X12.  When the search is answered, [handleSearchAccounts] returns a
    result that is no error: the fixed no-match text when nothing matched,
    and otherwise a text that lists every account found as its 1-based
    number, its name and its id. *)
Theorem search_accounts_lists_matches :
  forall (conn : Conn) (searchTerm : string) (h : list Event) (i : list string)
         (accounts : list SRecord),
    find conn h "Account" (NameLike ("%" ++ searchTerm ++ "%")) ["Id"; "Name"]
    = inr accounts ->
    exists res,
      outcome (handleSearchAccounts conn searchTerm h i) = Returned res
      /\ isError res = false
      /\ (accounts = [] ->
          textOf res = "No accounts found matching your search criteria.")
      /\ forall k account,
           nth_error accounts k = Some account ->
           contains (show_nat (k + 1) ++ ". " ++ Name account
                     ++ " (ID: " ++ Id account ++ ")") (textOf res).
Proof.
  intros conn searchTerm h i accounts F.
  unfold handleSearchAccounts, try_catch, bind, call_find, settle. rewrite F.
  destruct accounts as [|a more].
  - simpl. eexists. repeat split. intros k account N. destruct k; discriminate.
  - cbn [length Nat.eqb outcome emitted unread after ret].
    eexists. split; [reflexivity|]. split; [reflexivity|]. split; [discriminate|].
    intros k account N. unfold textOf, text_result. cbn [content map c_text String.concat].
    do 9 apply contains_right.
    apply (mapi_contains
             (fun account idx => show_nat (idx + 1) ++ ". " ++ Name account
                                 ++ " (ID: " ++ Id account ++ ")") nl (a :: more) k account N).
Qed.

Lemma search_accounts_lists_matches_witness :
  exists res,
    outcome (handleSearchAccounts Demo.conn "Acme" [] []) = Returned res
    /\ isError res = false
    /\ ([Demo.acmeCorp; Demo.acmeIndustries] = [] ->
        textOf res = "No accounts found matching your search criteria.")
    /\ forall k account,
         nth_error [Demo.acmeCorp; Demo.acmeIndustries] k = Some account ->
         contains (show_nat (k + 1) ++ ". " ++ Name account
                   ++ " (ID: " ++ Id account ++ ")") (textOf res).
Proof.
  apply (search_accounts_lists_matches Demo.conn "Acme" [] []
           [Demo.acmeCorp; Demo.acmeIndustries]).
  reflexivity.
Defined.

(** X13.  [handleCreateCase] always returns a result; the result is no
    error exactly when the create call was answered with a single result
    whose [success] flag is set, and then its text shows the id of the new
    case. *)
Theorem create_case_succeeds_iff :
  forall (env : option string) (conn : Conn) (args : CreateCaseArgs)
         (h : list Event) (i : list string),
    exists res,
      outcome (handleCreateCase env conn args h i) = Returned res
      /\ (isError res = false <->
          exists r, dml conn h (CreateOne "Case" (caseRecordOf args)) = inr (Single r)
                    /\ success r = true)
      /\ forall r, dml conn h (CreateOne "Case" (caseRecordOf args)) = inr (Single r) ->
                   success r = true ->
                   contains ("- Case ID: " ++ show_opt (id r) ++ nl) (textOf res).
Proof.
  intros env conn args h i.
  unfold handleCreateCase, try_catch, bind, call_dml, settle.
  destruct (dml conn h (CreateOne "Case" (caseRecordOf args))) as [e | [rs | r]] eqn:D;
    cbn [outcome emitted unread after ret throw].
  - eexists. split; [reflexivity|]. split; [| intros r E; discriminate E].
    split; [discriminate | intros (r & E & _); discriminate E].
  - eexists. split; [reflexivity|]. split; [| intros r E; discriminate E].
    split; [discriminate | intros (r & E & _); discriminate E].
  - destruct (success r) eqn:S; cbn [outcome emitted unread after ret throw].
    + eexists. split; [reflexivity|]. split.
      * split; [intros _; exists r; auto | reflexivity].
      * intros r' E _. injection E as <-.
        unfold textOf, text_result. cbn [content map c_text String.concat].
        do 6 apply contains_right.
        exists "". eexists. change ("" ++ ?x) with x.
        rewrite !append_assoc. reflexivity.
    + assert (N : forall X : Prop,
                (exists r0, inr (Single r) = inr (B := DMLReply) (A := Exn) (Single r0)
                            /\ success r0 = true) -> X).
      { intros X (r0 & E & S0). injection E as <-. congruence. }
      destruct (errors r) as [[es | e] |]; cbn [outcome emitted unread after ret throw];
        eexists; (split; [reflexivity|]);
        (split; [split; [discriminate | apply N]
                | intros r' E S'; injection E as <-; congruence]).
Qed.

Lemma named_get (args : CreateCaseArgs) :
  Object.get (namedFields args) "Subject" = Some (val_of (subject args))
  /\ Object.get (namedFields args) "Description" = Some (val_of (description args))
  /\ Object.get (namedFields args) "Priority" = Some (val_of (priority args))
  /\ Object.get (namedFields args) "Status" = Some (val_of (status args))
  /\ Object.get (namedFields args) "AccountId" = Some (val_of (accountId args))
  /\ Object.get (namedFields args) "ContactId"
     = (if opt_truthy (contactId args) then Some (val_of (contactId args)) else None)
  /\ Object.get (namedFields args) "Type"
     = (if opt_truthy (caseType args) then Some (val_of (caseType args)) else None)
  /\ Object.get (namedFields args) "Origin"
     = (if opt_truthy (origin args) then Some (val_of (origin args)) else None).
Proof.
  unfold namedFields.
  destruct (opt_truthy (contactId args)), (opt_truthy (caseType args)),
    (opt_truthy (origin args)); repeat split.
Qed.

(** X14.  The record [handleCreateCase] sends to the create call: the five
    required arguments always go under [Subject], [Description], [Priority],
    [Status] and [AccountId], as [undefined] when the argument is missing;
    [contactId], [caseType] and [origin] go under [ContactId], [Type] and
    [Origin] only when they are non-empty strings; and none of this is
    changed for a key that [additionalFields] does not hold. *)
Theorem create_case_record :
  forall (env : option string) (conn : Conn) (args : CreateCaseArgs)
         (h : list Event) (i : list string),
    exists record rejection,
      emitted (handleCreateCase env conn args h i)
      = [Remote (CreateOne "Case" record) rejection]
      /\ forall key named,
           In (key, named)
              [("Subject", Some (val_of (subject args)));
               ("Description", Some (val_of (description args)));
               ("Priority", Some (val_of (priority args)));
               ("Status", Some (val_of (status args)));
               ("AccountId", Some (val_of (accountId args)));
               ("ContactId", if opt_truthy (contactId args)
                             then Some (VStr (show_opt (contactId args))) else None);
               ("Type", if opt_truthy (caseType args)
                        then Some (VStr (show_opt (caseType args))) else None);
               ("Origin", if opt_truthy (origin args)
                          then Some (VStr (show_opt (origin args))) else None)] ->
           (forall extra, additionalFields args = Some extra -> ~ In key (map fst extra)) ->
           Object.get record key = named.
Proof.
  intros env conn args h i.
  destruct (handleCreateCase_call env conn args h i) as [rejection E].
  exists (caseRecordOf args), rejection. split; [exact E|].
  intros key named I X.
  assert (G : Object.get (caseRecordOf args) key = Object.get (namedFields args) key).
  { unfold caseRecordOf. destruct (additionalFields args) as [extra|]; auto.
    apply get_assign_absent. now apply X. }
  rewrite G. destruct (named_get args) as (S & D & P & St & A & C & T & O).
  simpl in I.
  destruct I as [I | [I | [I | [I | [I | [I | [I | [I | []]]]]]]]];
    injection I as <- <-; auto.
  - rewrite C. destruct (contactId args); reflexivity.
  - rewrite T. destruct (caseType args); reflexivity.
  - rewrite O. destruct (origin args); reflexivity.
Qed.

(** X15.  [handleGetPicklistValues] always returns a result; the result is
    no error exactly when the metadata was delivered, holds a field of the
    given name, that field is a picklist and carries a list of values; its
    text then lists every value as its 1-based number and its label, marked
    [(Default)] when it is the default. *)
Theorem picklist_values_listed_iff :
  forall (conn : Conn) (fieldName : string) (h : list Event) (i : list string),
    exists res,
      outcome (handleGetPicklistValues conn fieldName h i) = Returned res
      /\ (isError res = false <->
          exists fields field values,
            describe conn h "Case" = inr fields
            /\ List.find (fun f => String.eqb (f_name f) fieldName) fields = Some field
            /\ f_type field = "picklist"
            /\ f_picklistValues field = Some values)
      /\ forall fields field values k value,
           describe conn h "Case" = inr fields ->
           List.find (fun f => String.eqb (f_name f) fieldName) fields = Some field ->
           f_type field = "picklist" ->
           f_picklistValues field = Some values ->
           nth_error values k = Some value ->
           contains (show_nat (k + 1) ++ ". " ++ pv_label value
                     ++ (if pv_defaultValue value then " (Default)" else ""))
             (textOf res).
Proof.
  intros conn fieldName h i.
  unfold handleGetPicklistValues, try_catch, bind, call_describe, settle, undefined_read.
  destruct (describe conn h "Case") as [e | fields] eqn:D;
    cbn [outcome emitted unread after ret throw].
  { eexists. split; [reflexivity|]. split.
    - split; [discriminate | intros (fs & f & vs & E & _); discriminate E].
    - intros fs f vs k v E. discriminate E. }
  destruct (List.find _ fields) as [field|] eqn:F;
    cbn [outcome emitted unread after ret throw].
  2: { eexists. split; [reflexivity|]. split.
       - split; [discriminate | intros (fs & f & vs & E & E2 & _)].
         injection E as <-. rewrite F in E2. discriminate E2.
       - intros fs f vs k v E E2. injection E as <-. rewrite F in E2. discriminate E2. }
  destruct (String.eqb (f_type field) "picklist") eqn:T;
    cbn [negb outcome emitted unread after ret throw].
  2: { apply String.eqb_neq in T. eexists. split; [reflexivity|]. split.
       - split; [discriminate | intros (fs & f & vs & E & E2 & E3 & _)].
         injection E as <-. rewrite F in E2. injection E2 as <-. contradiction.
       - intros fs f vs k v E E2 E3. injection E as <-. rewrite F in E2.
         injection E2 as <-. contradiction. }
  apply String.eqb_eq in T.
  destruct (f_picklistValues field) as [values|] eqn:V;
    cbn [outcome emitted unread after ret throw].
  2: { eexists. split; [reflexivity|]. split.
       - split; [discriminate | intros (fs & f & vs & E & E2 & _ & E4)].
         injection E as <-. rewrite F in E2. injection E2 as <-. rewrite V in E4.
         discriminate E4.
       - intros fs f vs k v E E2 _ E4. injection E as <-. rewrite F in E2.
         injection E2 as <-. rewrite V in E4. discriminate E4. }
  eexists. split; [reflexivity|]. split.
  - split; [intros _; exists fields, field, values; auto | reflexivity].
  - intros fs f vs k v E E2 _ E4 N. injection E as <-. rewrite F in E2.
    injection E2 as <-. rewrite V in E4. injection E4 as <-.
    unfold textOf, text_result. cbn [content map c_text String.concat].
    do 7 apply contains_right. apply contains_left.
    apply (mapi_contains
             (fun value idx => show_nat (idx + 1) ++ ". " ++ pv_label value
                               ++ (if pv_defaultValue value then " (Default)" else ""))
             nl values k v N).
Qed.

(** X16.  When the metadata is delivered, [handleGetCaseMetadata] returns a
    result that is no error, whose text names every required field (not
    nillable, not defaulted on create, createable, not [CaseNumber]) as
    [- <label> (<name>): <type>] and ends with the guidance for the guided
    process. *)
Theorem case_metadata_lists_required_fields :
  forall (conn : Conn) (h : list Event) (i : list string) (fields : list Field),
    describe conn h "Case" = inr fields ->
    exists res,
      outcome (handleGetCaseMetadata conn h i) = Returned res
      /\ isError res = false
      /\ (forall field, In field fields -> is_required field = true ->
            contains ("- " ++ f_label field ++ " (" ++ f_name field ++ "): "
                      ++ f_type field) (textOf res))
      /\ exists before, textOf res = before ++ guidance.
Proof.
  intros conn h i fields D.
  unfold handleGetCaseMetadata, try_catch, bind, call_describe, settle. rewrite D.
  cbn [outcome emitted unread after ret throw].
  eexists. split; [reflexivity|]. split; [reflexivity|].
  unfold textOf, text_result. cbn [content map c_text String.concat]. split.
  - intros field I Q. do 5 apply contains_right. apply contains_left.
    apply join_contains.
    apply (in_map (fun field => "- " ++ f_label field ++ " (" ++ f_name field ++ "): "
                                ++ f_type field)).
    apply filter_In. auto.
  - eexists. rewrite <- !append_assoc. reflexivity.
Qed.

Lemma case_metadata_lists_required_fields_witness :
  exists res,
    outcome (handleGetCaseMetadata
               (Demo.org Demo.caseFieldsMore (fun c => inr (Demo.onePerRecord c))) [] [])
    = Returned res
    /\ isError res = false
    /\ (forall field, In field Demo.caseFieldsMore -> is_required field = true ->
          contains ("- " ++ f_label field ++ " (" ++ f_name field ++ "): "
                    ++ f_type field) (textOf res))
    /\ exists before, textOf res = before ++ guidance.
Proof.
  apply (case_metadata_lists_required_fields
           (Demo.org Demo.caseFieldsMore (fun c => inr (Demo.onePerRecord c))) [] []
           Demo.caseFieldsMore).
  reflexivity.
Defined.

(* ================================================================= *)
(** ** The first guided flow *)

Section FirstFlowInvariant.

Variable Q : forall A, Outcome A -> list Event -> Prop.
Hypothesis Q_local :
  forall A (o : Outcome A) ev, Forall local ev -> Q A o ev.
Hypothesis Q_read :
  forall A c (answer : Exn + A) i, is_dml c = false ->
    Q A (outcome (settle c answer i)) (emitted (settle c answer i)).
Hypothesis Q_seq :
  forall A B (a : A) (o : Outcome B) ev1 ev2,
    Q A (Returned a) ev1 -> Q B o ev2 -> Q B o (ev1 ++ ev2)%list.
Hypothesis Q_thrown :
  forall A B e ev, Q A (Thrown e) ev -> Q B (Thrown e) ev.
Hypothesis Q_pending :
  forall A B ev, Q A Pending ev -> Q B Pending ev.

Ltac first_flow_step :=
  first
    [ apply (inv_ret Q Q_local) | apply (inv_throw Q Q_local)
    | apply (inv_promptUser Q Q_local)
    | apply (inv_find Q Q_read) | apply (inv_describe Q Q_read)
    | apply (inv_fmap Q Q_local Q_seq Q_thrown Q_pending)
    | apply (inv_bind Q Q_seq Q_thrown Q_pending); [| intros ?]
    | match goal with
      | |- always _ (if ?b then _ else _) => destruct b
      | |- always _ (match ?x with _ => _ end) => destruct x
      end ].

Lemma inv_picklistOf conn fieldName :
  always (Q (list PicklistValue)) (picklistOf conn fieldName).
Proof. unfold picklistOf, undefined_read. repeat first_flow_step. Qed.

Lemma inv_guidedCaseCreation conn : always (Q Obj) (guidedCaseCreation conn).
Proof.
  unfold guidedCaseCreation.
  repeat first [apply inv_picklistOf | first_flow_step].
Qed.

End FirstFlowInvariant.

(** X17.  The first guided flow issues no call that writes, whatever the
    organisation answers and the user types; and whenever one of its calls
    is rejected, its run ends with a thrown error. *)
Theorem first_flow_reads_and_propagates :
  forall (conn : Conn) (h : list Event) (i : list string),
    Forall (fun e => ~ writes e) (emitted (guidedCaseCreation conn h i))
    /\ (forall c e, In (Remote c (Some e)) (emitted (guidedCaseCreation conn h i)) ->
          exists x, outcome (guidedCaseCreation conn h i) = Thrown x).
Proof.
  intros conn h i. split.
  - apply (inv_guidedCaseCreation (fun A => @quietly A)); unfold quietly.
    + intros A o ev L. eapply Forall_impl; [|exact L]. apply local_not_writes.
    + intros A c [e | a] j D; simpl; repeat constructor; simpl; congruence.
    + intros A B a o ev1 ev2 H1 H2. apply Forall_app; auto.
    + auto.
    + auto.
  - assert (L : loudly (outcome (guidedCaseCreation conn h i))
                  (emitted (guidedCaseCreation conn h i))).
    { apply (inv_guidedCaseCreation (fun A => @loudly A)); unfold loudly.
      - intros A o ev L. right. eapply Forall_impl; [|exact L]. apply local_not_rejected.
      - intros A c [e | a] j D; simpl; [left; eauto | right; repeat constructor; auto].
      - intros A B a o ev1 ev2 [[e H1] | H1] [H2 | H2]; try discriminate; auto.
        right. apply Forall_app; auto.
      - intros; left; eauto.
      - intros A B ev [[e H] | H]; [discriminate | auto]. }
    intros c e I. destruct L as [L | L]; auto.
    rewrite Forall_forall in L. exfalso. apply (L _ I). exact Logic.I.
Qed.

Lemma ends_bind {A B} (m : M A) (f : A -> M B) (P : B -> list Event -> Prop) :
  (forall b pre ev, P b ev -> P b (pre ++ ev)%list) ->
  (forall a, ends (f a) P) -> ends (bind m f) P.
Proof.
  intros Pre Hf h i b R. pose proof (bind_returns m f h i b R) as (a & Ea & Eb).
  unfold bind in *. rewrite Ea in *. simpl. apply Pre. now apply Hf.
Qed.

Lemma ends_throw {A} e (P : A -> list Event -> Prop) : ends (throw e) P.
Proof. intros h i a R. discriminate R. Qed.

(** X18.  When the first guided flow returns, the last thing it did was to
    show the record as JSON, members with no value left out, and to read an
    answer that is [y] or [Y] once trimmed; the record it returns is the one
    it showed, with the keys [AccountId], [ContactId], [Type] and [Status]
    in this order, [AccountId] being a string and the others strings or
    [undefined]. *)
Theorem first_flow_returns_what_it_showed :
  forall (conn : Conn) (h : list Event) (i : list string) (caseDetails : Obj),
    outcome (guidedCaseCreation conn h i) = Returned caseDetails ->
    exists before chunk ident contact type_ status_,
      emitted (guidedCaseCreation conn h i)
      = (before ++ [Log (confirmDetails [("AccountId", Some ident); ("ContactId", contact);
                                         ("Type", type_); ("Status", status_)]);
                    Write "> "; Read chunk])%list
      /\ toLowerCase (trim chunk) = "y"
      /\ caseDetails = [("AccountId", VStr ident); ("ContactId", val_of contact);
                        ("Type", val_of type_); ("Status", val_of status_)].
Proof.
  intros conn h i caseDetails R.
  set (P := fun (rec : Obj) (ev : list Event) =>
              exists before chunk ident contact type_ status_,
                ev = (before ++ [Log (confirmDetails [("AccountId", Some ident);
                                                      ("ContactId", contact);
                                                      ("Type", type_); ("Status", status_)]);
                                 Write "> "; Read chunk])%list
                /\ toLowerCase (trim chunk) = "y"
                /\ rec = [("AccountId", VStr ident); ("ContactId", val_of contact);
                          ("Type", val_of type_); ("Status", val_of status_)]).
  assert (Pre : forall b pre ev, P b ev -> P b (pre ++ ev)%list).
  { intros b pre ev (before & chunk & a & c & t & s & -> & Y & E).
    exists (pre ++ before)%list, chunk, a, c, t, s. rewrite app_assoc. auto. }
  assert (E : ends (guidedCaseCreation conn) P).
  { unfold guidedCaseCreation.
    apply ends_bind; [exact Pre | intros term].
    apply ends_bind; [exact Pre | intros accounts].
    destruct (length accounts =? 0)%nat; [apply ends_throw|].
    apply ends_bind; [exact Pre | intros sel].
    destruct (chosen accounts sel) as [account|]; [| apply ends_throw].
    do 6 (apply ends_bind; [exact Pre | intros ?]).
    intros h0 i0 rec. unfold bind. destruct i0 as [|chunk rest]; [discriminate|].
    cbn [promptUser outcome emitted unread after].
    destruct (String.eqb (toLowerCase (trim chunk)) "y") eqn:Y;
      cbn [negb throw ret outcome emitted unread]; [| discriminate].
    intros Hr. injection Hr as <-.
    exists [], chunk. do 4 eexists.
    split; [reflexivity | split; [now apply String.eqb_eq | reflexivity]]. }
  exact (E h i caseDetails R).
Qed.

Lemma first_flow_returns_what_it_showed_witness :
  exists before chunk ident contact type_ status_,
    emitted (guidedCaseCreation
               (Demo.org (Demo.picklist "Type" false ["Problem"; "Question"]
                          :: Demo.caseFields) (fun c => inr (Demo.onePerRecord c)))
               [] ["Acme"; "1"; ""; "2"; "x"; "Y"])
    = (before ++ [Log (confirmDetails [("AccountId", Some ident); ("ContactId", contact);
                                       ("Type", type_); ("Status", status_)]);
                  Write "> "; Read chunk])%list
    /\ toLowerCase (trim chunk) = "y"
    /\ [("AccountId", VStr "001A"); ("ContactId", VUndefined);
        ("Type", VStr "Question"); ("Status", VUndefined)]
       = [("AccountId", VStr ident); ("ContactId", val_of contact);
          ("Type", val_of type_); ("Status", val_of status_)].
Proof.
  apply (first_flow_returns_what_it_showed
           (Demo.org (Demo.picklist "Type" false ["Problem"; "Question"]
                      :: Demo.caseFields) (fun c => inr (Demo.onePerRecord c)))
           [] ["Acme"; "1"; ""; "2"; "x"; "Y"]).
  vm_compute. reflexivity.
Defined.

Lemma Invalid_chosen {A} answer (xs : list A) :
  Invalid answer (length xs) -> chosen xs (parseInt answer) = None.
Proof.
  intros [-> | (z & -> & R)]; simpl; auto. unfold element.
  destruct (z - 1 <? 0)%Z eqn:E; auto. apply Z.ltb_ge in E.
  apply nth_error_None. lia.
Qed.

Lemma ask_number_run message h chunk rest :
  fmap parseInt (promptUser message) h (chunk :: rest)
  = {| outcome := Returned (parseInt (trim chunk));
       emitted := [Log message; Write "> "; Read chunk];
       unread := rest |}.
Proof. reflexivity. Qed.

(** X19.  The account step of the first guided flow: no match aborts with
    [No accounts found for the given search string.]; otherwise the flow
    always asks for a number, even when a single account matched, and an
    answer in which [parseInt] finds no number or one outside the list
    aborts with [Invalid account selection.], while a number of the list
    makes the flow look up the contacts of that account next. *)
Theorem first_flow_account_step :
  forall (conn : Conn) (accounts : list SRecord) (h : list Event)
         (chunk1 chunk2 : string) (rest : list string),
    find conn
      (h ++ [Log "Enter a search string to filter accounts:"; Write "> "; Read chunk1])%list
      "Account" (NameLike ("%" ++ trim chunk1 ++ "%")) ["Id"; "Name"] = inr accounts ->
    (accounts = [] ->
     outcome (guidedCaseCreation conn h (chunk1 :: chunk2 :: rest))
     = Thrown (JsError "No accounts found for the given search string."))
    /\ (accounts <> [] -> Invalid (trim chunk2) (length accounts) ->
        outcome (guidedCaseCreation conn h (chunk1 :: chunk2 :: rest))
        = Thrown (JsError "Invalid account selection."))
    /\ (forall account, Picks (trim chunk2) accounts account ->
          exists rejection more,
            emitted (guidedCaseCreation conn h (chunk1 :: chunk2 :: rest))
            = ([Log "Enter a search string to filter accounts:"; Write "> "; Read chunk1;
                Remote (Find "Account" (NameLike ("%" ++ trim chunk1 ++ "%"))
                          ["Id"; "Name"]) None;
                Log ("Select an account:" ++ nl ++ numbered (map Name accounts));
                Write "> "; Read chunk2;
                Remote (Find "Contact" (FieldIs "AccountId" (Id account)) ["Id"; "Name"])
                  rejection] ++ more)%list).
Proof.
  intros conn accounts h chunk1 chunk2 rest F.
  assert (S : forall (k : list SRecord -> M Obj),
            (x <- promptUser "Enter a search string to filter accounts:" ;;
             found <- call_find conn "Account" (NameLike ("%" ++ x ++ "%")) ["Id"; "Name"] ;;
             k found) h (chunk1 :: chunk2 :: rest)
            = after (promptUser "Enter a search string to filter accounts:" h
                       (chunk1 :: chunk2 :: rest))
                (after {| outcome := Returned accounts;
                          emitted := [Remote (Find "Account"
                                                (NameLike ("%" ++ trim chunk1 ++ "%"))
                                                ["Id"; "Name"]) None];
                          unread := chunk2 :: rest |}
                   (k accounts
                      ((h ++ [Log "Enter a search string to filter accounts:";
                              Write "> "; Read chunk1])
                       ++ [Remote (Find "Account" (NameLike ("%" ++ trim chunk1 ++ "%"))
                                     ["Id"; "Name"]) None])%list
                      (chunk2 :: rest)))).
  { intros k. unfold bind, call_find, settle.
    cbn [promptUser outcome emitted unread after]. rewrite F. reflexivity. }
  unfold guidedCaseCreation. rewrite S. clear S.
  cbn [promptUser outcome emitted unread after].
  split; [| split].
  - intros ->. reflexivity.
  - intros N I. destruct accounts as [|a more]; [congruence|].
    cbn [length Nat.eqb]. unfold bind at 1. rewrite ask_number_run.
    cbn [outcome emitted unread after].
    change (S (length more)) with (length (a :: more)) in I.
    rewrite (Invalid_chosen _ _ I). reflexivity.
  - intros account P.
    assert (N : (length accounts =? 0)%nat = false).
    { destruct P as (z & _ & R & _). apply Nat.eqb_neq. lia. }
    rewrite N. unfold bind at 1. rewrite ask_number_run.
    cbn [outcome emitted unread after].
    destruct (Picks_check _ _ _ P) as (_ & _ & ->).
    unfold bind at 1. unfold call_find, settle.
    destruct (find conn _ "Contact" _ _) as [e | contacts];
      cbn [outcome emitted unread after app]; do 2 eexists; reflexivity.
Qed.

Lemma first_flow_account_step_witness :
  outcome (guidedCaseCreation Demo.conn [] ["Acme"; "3"; "y"])
  = Thrown (JsError "Invalid account selection.").
Proof.
  apply (proj1 (proj2 (first_flow_account_step Demo.conn
                         [Demo.acmeCorp; Demo.acmeIndustries] [] "Acme" "3" ["y"]
                         eq_refl))).
  - discriminate.
  - right. exists 3%Z. split; [reflexivity | right; reflexivity].
Defined.

(* ================================================================= *)
(** ** The test script *)

Lemma createTestCase_run handler conn h i :
  createTestCase handler conn h i =
  let r := handler conn testArgs
             (h ++ [Log "Creating test case with guided input..."])%list i in
  match outcome r with
  | Returned result =>
      {| outcome := Returned result;
         emitted := (Log "Creating test case with guided input..."
                     :: emitted r ++ scriptLogs conn result)%list;
         unread := unread r |}
  | Thrown e =>
      {| outcome := Thrown e;
         emitted := (Log "Creating test case with guided input..."
                     :: emitted r ++ [LogError "Error creating test case:" e])%list;
         unread := unread r |}
  | Pending =>
      {| outcome := Pending;
         emitted := Log "Creating test case with guided input..." :: emitted r;
         unread := unread r |}
  end.
Proof.
  unfold createTestCase, try_catch, bind, emit, after, ret, throw.
  cbn [outcome emitted unread app]. cbv zeta.
  destruct (handler conn testArgs
              (h ++ [Log "Creating test case with guided input..."])%list i)
    as [[result | e |] evs rest];
    cbn [outcome emitted unread app].
  - unfold scriptLogs. destruct (content result) as [|first items];
      cbn [outcome emitted unread app].
    + rewrite app_nil_r. reflexivity.
    + destruct (isError result); cbn [negb outcome emitted unread app].
      * rewrite ?app_nil_r. reflexivity.
      * destruct (IdPattern.search (c_text first));
          cbn [outcome emitted unread app];
          rewrite ?app_nil_r; reflexivity.
  - reflexivity.
  - reflexivity.
Qed.

Lemma scriptLogs_local conn result : Forall local (scriptLogs conn result).
Proof.
  unfold scriptLogs. destruct (content result); [constructor|].
  constructor; [intros []|].
  destruct (isError result); [constructor|].
  destruct (IdPattern.search _); repeat constructor; intros [].
Qed.

(** X20.  [createTestCase] is transparent: it returns the result of the
    handler it calls unchanged, throws the error the handler throws, stays
    pending when the handler does, and leaves the same input unread; the
    handler runs right after the opening log line, and everything the
    script adds to the events is console output. *)
Theorem test_script_is_transparent :
  forall handler (conn : Conn) (h : list Event) (i : list string),
    outcome (createTestCase handler conn h i)
    = outcome (handler conn testArgs
                 (h ++ [Log "Creating test case with guided input..."])%list i)
    /\ unread (createTestCase handler conn h i)
       = unread (handler conn testArgs
                   (h ++ [Log "Creating test case with guided input..."])%list i)
    /\ exists logs,
         emitted (createTestCase handler conn h i)
         = (Log "Creating test case with guided input..."
            :: emitted (handler conn testArgs
                          (h ++ [Log "Creating test case with guided input..."])%list i)
            ++ logs)%list
         /\ Forall local logs.
Proof.
  intros handler conn h i. rewrite createTestCase_run. cbv zeta.
  destruct (outcome (handler conn testArgs _ i)) as [result | e |];
    cbn [outcome emitted unread]; (split; [reflexivity | split; [reflexivity|]]).
  - exists (scriptLogs conn result). split; [reflexivity | apply scriptLogs_local].
  - eexists. split; [reflexivity|]. repeat constructor. intros [].
  - exists []. rewrite app_nil_r. split; [reflexivity | constructor].
Qed.

Lemma search_skip c s :
  IdPattern.matchHere (String c s) = None ->
  IdPattern.search (String c s) = IdPattern.search s.
Proof. intros H. cbn [IdPattern.search]. rewrite H. reflexivity. Qed.

Lemma search_hit s group :
  IdPattern.matchHere s = Some group -> IdPattern.search s = Some group.
Proof. intros H. destruct s; cbn [IdPattern.search]; rewrite H; reflexivity. Qed.

Lemma search_digits d rest :
  all_chars IdPattern.is_digit d = true ->
  IdPattern.search (d ++ rest) = IdPattern.search rest.
Proof.
  induction d as [|c d IH]; intros D; [reflexivity|].
  cbn [all_chars] in D. apply andb_true_iff in D. destruct D as [Dc D].
  cbn [append]. rewrite search_skip; [exact (IH D)|].
  unfold IdPattern.matchHere. cbn [IdPattern.strip].
  destruct (Ascii.eqb_spec "R" c) as [<- | _]; [discriminate Dc | reflexivity].
Qed.

Lemma show_nat_digits n : all_chars IdPattern.is_digit (show_nat n) = true.
Proof.
  pose proof (show_nat_is_number n) as H. unfold is_number in H.
  apply andb_true_iff in H. apply H.
Qed.

Lemma span_app p a c rest :
  all_chars p a = true -> p c = false ->
  IdPattern.span p (a ++ String c rest) = (a, String c rest).
Proof.
  intros A C. induction a as [|x a IH]; cbn [append IdPattern.span].
  - rewrite C. reflexivity.
  - cbn [all_chars] in A. apply andb_true_iff in A. destruct A as [X A].
    rewrite X, (IH A). reflexivity.
Qed.

Lemma strip_app literal s : IdPattern.strip literal (literal ++ s) = Some s.
Proof.
  induction literal as [|c l IH]; cbn [append IdPattern.strip].
  - destruct s; reflexivity.
  - rewrite Ascii.eqb_refl. exact IH.
Qed.

(** A line of the list of successful records is a match, and its group is
    the whole id. *)
Lemma matchHere_line d w rest :
  is_number d = true -> all_chars IdPattern.is_word w = true -> w <> "" ->
  IdPattern.matchHere ("Record " ++ d ++ " - ID: " ++ w ++ nl ++ rest) = Some w.
Proof.
  intros D W N. unfold IdPattern.matchHere. rewrite strip_app.
  unfold is_number in D. apply andb_true_iff in D. destruct D as [D0 D].
  change (" - ID: " ++ w ++ nl ++ rest)
    with (String " " ("- ID: " ++ w ++ nl ++ rest)).
  rewrite (span_app _ _ _ _ D) by reflexivity.
  apply negb_true_iff in D0. rewrite D0.
  change (String " " ("- ID: " ++ w ++ nl ++ rest))
    with (" - ID: " ++ w ++ nl ++ rest).
  rewrite strip_app.
  change (nl ++ rest) with (String (ascii_of_nat 10) rest).
  rewrite (span_app _ _ _ _ W) by reflexivity.
  destruct w; [contradiction N; reflexivity | reflexivity].
Qed.

Lemma forEachIdx_first results : forall k j r,
  nth_error results j = Some r ->
  (forall j' r', j' < j -> nth_error results j' = Some r' ->
                 success r' && opt_truthy (id r') = false) ->
  forEachIdx successLine k results
  = successLine r (k + j) ++ forEachIdx successLine (S (k + j)) (skipn (S j) results).
Proof.
  induction results as [|x xs IH]; intros k j r N B.
  - destruct j; discriminate N.
  - destruct j as [|j].
    + injection N as ->. rewrite Nat.add_0_r. reflexivity.
    + cbn [forEachIdx]. unfold successLine at 1.
      rewrite (B 0 x) by (try lia; reflexivity). cbn [append].
      rewrite (IH (S k) j r N).
      * replace (S k + j) with (k + S j) by lia. reflexivity.
      * intros j' r' L N'. apply (B (S j') r'); [lia | exact N'].
Qed.

Lemma listed_counts results j r :
  nth_error results j = Some r -> success r = true ->
  (0 <? successCount results)%nat = true.
Proof.
  intros N S. apply Nat.ltb_lt. unfold successCount.
  apply nth_error_In in N.
  assert (I : In r (filter success results)) by (apply filter_In; auto).
  destruct (filter success results); [destruct I | cbn [length]; lia].
Qed.

Ltac skip_literal :=
  repeat (rewrite search_skip by reflexivity).

Lemma search_report op results j ident :
  In op ["insert"; "update"; "delete"; "upsert"] ->
  firstListed results j ident ->
  all_chars IdPattern.is_word ident = true ->
  IdPattern.search (responseText op results) = Some ident.
Proof.
  intros O ((r & N & S & I) & E & B) W.
  unfold responseText. rewrite (listed_counts results j r N S).
  rewrite (forEachIdx_first results 0 j r N B).
  unfold successLine. rewrite S, I. cbn [opt_truthy show_opt andb].
  unfold str_truthy. destruct (String.eqb_spec ident "") as [-> | _];
    [contradiction E; reflexivity|]. cbn [negb].
  unfold tally. rewrite !append_assoc.
  assert (T : forall rest,
             IdPattern.search
               (" operation completed." ++ nl ++ "Processed "
                ++ show_nat (length results) ++ " records:" ++ nl
                ++ "- Successful: " ++ show_nat (successCount results) ++ nl
                ++ "- Failed: " ++ show_nat (failureCount results) ++ nl
                ++ nl ++ "Successful Records:" ++ nl ++ rest)
             = IdPattern.search rest).
  { intros rest. unfold nl. cbn [append]. skip_literal.
    rewrite search_digits by apply show_nat_digits. cbn [append]. skip_literal.
    rewrite search_digits by apply show_nat_digits. cbn [append]. skip_literal.
    rewrite search_digits by apply show_nat_digits. cbn [append]. skip_literal.
    reflexivity. }
  assert (U : forall rest,
             IdPattern.search (toUpperCase op ++ rest) = IdPattern.search rest).
  { intros rest. destruct O as [<- | [<- | [<- | [<- | []]]]].
    - change (toUpperCase "insert") with "INSERT". cbn [append]. skip_literal.
      reflexivity.
    - change (toUpperCase "update") with "UPDATE". cbn [append]. skip_literal.
      reflexivity.
    - change (toUpperCase "delete") with "DELETE". cbn [append]. skip_literal.
      reflexivity.
    - change (toUpperCase "upsert") with "UPSERT". cbn [append]. skip_literal.
      reflexivity. }
  rewrite U, T. apply search_hit. rewrite ?append_assoc.
  apply matchHere_line; [apply show_nat_is_number | exact W | exact E].
Qed.

(** X21.  In the report of an insert, update, delete or upsert, the pattern
    [/Record \d+ - ID: (\w+)/] finds the id of the first record the report
    lists as successful (the first result with [success] and a non-empty
    id), provided the id is made of word characters. *)
Theorem pattern_finds_first_listed_id :
  forall (op : string) (results : list DMLResult) (j : nat) (ident : string),
    In op ["insert"; "update"; "delete"; "upsert"] ->
    firstListed results j ident ->
    all_chars IdPattern.is_word ident = true ->
    IdPattern.search (textOf (formatResults op (Batch results))) = Some ident.
Proof.
  intros op results j ident O F W. exact (search_report op results j ident O F W).
Qed.

Lemma pattern_finds_first_listed_id_witness :
  IdPattern.search
    (textOf (formatResults "update"
               (Batch [Demo.failed "Required fields are missing" "REQUIRED_FIELD_MISSING"
                         ["Subject"];
                       Demo.done "500A_1"; Demo.done "500B"])))
  = Some "500A_1".
Proof.
  apply (pattern_finds_first_listed_id "update" _ 1 "500A_1").
  - right. left. reflexivity.
  - split; [|split].
    + eexists. repeat split; reflexivity.
    + discriminate.
    + intros j' r' L N. destruct j' as [|j']; [|lia].
      injection N as <-. reflexivity.
  - reflexivity.
Defined.

(** X22.  When the test script gets a result that is not an error from
    either variant of the handler, the result is the insert report of the
    answer to a DML call the handler issued, and if that report lists a
    record whose id is made of word characters, the last two lines the
    script logs are the success message and the Lightning URL of the first
    listed id, built from the connection's [instanceUrl]. *)
Theorem test_script_logs_case_url :
  forall handler (conn : Conn) (h : list Event) (i : list string) (res : ToolResult),
    In handler variants ->
    outcome (createTestCase handler conn h i) = Returned res ->
    isError res = false ->
    exists pre c reply,
      is_dml c = true
      /\ dml conn (h ++ pre)%list c = inr reply
      /\ res = formatResults "insert" reply
      /\ forall j ident,
           firstListed (resultsOf reply) j ident ->
           all_chars IdPattern.is_word ident = true ->
           exists before,
             emitted (createTestCase handler conn h i)
             = (before ++ [Log (nl ++ "Case created successfully!");
                           Log ("Case URL: " ++ show_opt (instanceUrl conn)
                                ++ "/lightning/r/Case/" ++ ident ++ "/view")])%list.
Proof.
  intros handler conn h i res V R E.
  rewrite createTestCase_run in *. cbv zeta in *.
  destruct (outcome (handler conn testArgs
                       (h ++ [Log "Creating test case with guided input..."])%list i))
    as [result | e |] eqn:O; cbn [outcome emitted] in *; try discriminate R.
  injection R as ->.
  destruct (handler_completed handler conn testArgs _ i res V O E)
    as (pre & c & reply & _ & D & A & -> & _).
  exists (Log "Creating test case with guided input..." :: pre), c, reply.
  split; [exact D|]. split; [rewrite <- A, <- app_assoc; reflexivity|].
  split; [reflexivity|].
  intros j ident F W.
  unfold scriptLogs, formatResults, text_result.
  cbn [content isError c_text operation testArgs].
  rewrite (search_report "insert" (resultsOf reply) j ident
             (or_introl eq_refl) F W).
  eexists (_ :: _ ++ [_])%list. cbn [app]. f_equal.
  rewrite <- app_assoc. reflexivity.
Qed.

Lemma test_script_logs_case_url_witness :
  exists pre c reply,
    is_dml c = true
    /\ dml Demo.conn ([] ++ pre)%list c = inr reply
    /\ formatResults "insert" (Batch [Demo.done "500X"]) = formatResults "insert" reply
    /\ forall j ident,
         firstListed (resultsOf reply) j ident ->
         all_chars IdPattern.is_word ident = true ->
         exists before,
           emitted (createTestCase Guided.handleDMLRecords Demo.conn []
                      (Demo.answers "y"))
           = (before ++ [Log (nl ++ "Case created successfully!");
                         Log ("Case URL: " ++ show_opt (instanceUrl Demo.conn)
                              ++ "/lightning/r/Case/" ++ ident ++ "/view")])%list.
Proof.
  apply (test_script_logs_case_url Guided.handleDMLRecords Demo.conn []
           (Demo.answers "y") (formatResults "insert" (Batch [Demo.done "500X"]))).
  - left. reflexivity.
  - vm_compute. reflexivity.
  - reflexivity.
Defined.

(* ================================================================= *)
(** ** The contact search and the rejections of the look-ups *)

(** X23.  [handleSearchContacts] retrieves the account first and searches
    its contacts with the events of that call behind it.  When both calls
    are answered the result is no error: without contacts its text is the
    sentence that names the account and its id, and otherwise it lists every
    contact as its 1-based number, name and id followed by the e-mail and
    the phone, each shown as [N/A] when missing or empty. *)
Theorem search_contacts_lists_matches :
  forall (conn : Conn) (accountId : string) (h : list Event) (i : list string)
         (account : SRecord) (contacts : list SRecord),
    retrieve conn h "Account" accountId = inr account ->
    find conn (h ++ [Remote (Retrieve "Account" accountId) None])%list
      "Contact" (FieldIs "AccountId" accountId) ["Id"; "Name"; "Email"; "Phone"]
    = inr contacts ->
    exists res,
      outcome (handleSearchContacts conn accountId h i) = Returned res
      /\ isError res = false
      /\ (contacts = [] ->
          textOf res = "No contacts found for account " ++ dq ++ Name account ++ dq
                       ++ " (ID: " ++ accountId ++ ").")
      /\ forall k contact,
           nth_error contacts k = Some contact ->
           contains (show_nat (k + 1) ++ ". " ++ Name contact
                     ++ " (ID: " ++ Id contact ++ ")" ++ nl
                     ++ "   Email: " ++ (if opt_truthy (Email contact)
                                         then show_opt (Email contact) else "N/A") ++ nl
                     ++ "   Phone: " ++ (if opt_truthy (Phone contact)
                                         then show_opt (Phone contact) else "N/A"))
             (textOf res).
Proof.
  intros conn accountId h i account contacts R F.
  unfold handleSearchContacts, try_catch, bind, call_retrieve, call_find, settle.
  rewrite R. cbn [outcome emitted unread after app]. rewrite F.
  destruct contacts as [|c more].
  - simpl. eexists. repeat split. intros k contact N. destruct k; discriminate.
  - cbn [length Nat.eqb outcome emitted unread after ret].
    eexists. split; [reflexivity|]. split; [reflexivity|]. split; [discriminate|].
    intros k contact N. unfold textOf, text_result. cbn [content map c_text String.concat].
    do 9 apply contains_right.
    exact (mapi_contains
             (fun contact idx =>
                show_nat (idx + 1) ++ ". " ++ Name contact
                ++ " (ID: " ++ Id contact ++ ")" ++ nl
                ++ "   Email: " ++ or_na (Email contact) ++ nl
                ++ "   Phone: " ++ or_na (Phone contact))
             (nl ++ nl) (c :: more) k contact N).
Qed.

Lemma search_contacts_lists_matches_witness :
  exists res,
    outcome (handleSearchContacts Demo.conn "001A" [] []) = Returned res
    /\ isError res = false
    /\ ([Demo.ann; Demo.bob] = [] ->
        textOf res = "No contacts found for account " ++ dq ++ Name Demo.acmeCorp ++ dq
                     ++ " (ID: " ++ "001A" ++ ").")
    /\ forall k contact,
         nth_error [Demo.ann; Demo.bob] k = Some contact ->
         contains (show_nat (k + 1) ++ ". " ++ Name contact
                   ++ " (ID: " ++ Id contact ++ ")" ++ nl
                   ++ "   Email: " ++ (if opt_truthy (Email contact)
                                       then show_opt (Email contact) else "N/A") ++ nl
                   ++ "   Phone: " ++ (if opt_truthy (Phone contact)
                                       then show_opt (Phone contact) else "N/A"))
           (textOf res).
Proof.
  apply (search_contacts_lists_matches Demo.conn "001A" [] []
           Demo.acmeCorp [Demo.ann; Demo.bob]); reflexivity.
Defined.



